(** * CO_layers: surface detection and deprojection

    A shallow embedding of [src/measure_height.py] (functions
    [search_maxima], [detect_surface], [measure_mol_surface]) and of
    [src/CO_layers/measure_height.py] (functions [search_maxima],
    [Surface._detect_surface], [Surface._compute_surface]).

    Numbers.  A numpy [float64] is embedded as an exact rational
    extended with the IEEE special values [+inf], [-inf] and [nan]:
    type [num].  Rounding, overflow and the sign of zero are not
    modelled; a division by zero yields an infinity or [nan] exactly as
    numpy does (with a warning, never an exception).  Values that the
    programs keep finite by construction (image pixels after
    [np.nan_to_num], column indices, the scalar geometry parameters)
    are plain rationals [Qc].  The least-squares line of [np.polyfit]
    is the exact one.  Where rounding decides a property, the radius of
    [measure_mol_surface] is given a second time in IEEE binary64
    itself: module [ScriptBinary64].

    External collaborators.  [np.sqrt], [np.hypot], [np.sin], [np.cos],
    [np.nanstd], [cube._Jybeam_to_Tb], [scipy.ndimage.rotate] and the
    rank-deficient branch of [np.polyfit] are not part of the
    repository; they appear as parameters, and every theorem holds for
    each of their possible behaviours. *)

From Stdlib Require Import Floats.
From Stdlib Require Import QArith Qcanon ZArith Lqa.
From stdpp Require Import base numbers list sorting strings.

(* ===================================================================== *)
(** * Extended rationals                                                  *)
(* ===================================================================== *)

Inductive num : Type :=
  | Fin (q : Qc)
  | PInf
  | NInf
  | NaN.

Definition qz (z : Z) : Qc := Qc_of_Z z.
Definition qn (n : nat) : Qc := Qc_of_Z (Z.of_nat n).
Definition qfrac (a : Z) (b : positive) : Qc := Q2Qc (a # b).

Definition num_eqb (a b : num) : bool :=
  match a, b with
  | Fin x, Fin y => Qc_eq_bool x y
  | PInf, PInf | NInf, NInf | NaN, NaN => true
  | _, _ => false
  end.

Definition inf_of (positive_sign : bool) : num :=
  if positive_sign then PInf else NInf.

Definition nneg (a : num) : num :=
  match a with
  | Fin x => Fin (- x)%Qc
  | PInf => NInf
  | NInf => PInf
  | NaN => NaN
  end.

Definition nadd (a b : num) : num :=
  match a, b with
  | NaN, _ | _, NaN => NaN
  | Fin x, Fin y => Fin (x + y)%Qc
  | PInf, NInf | NInf, PInf => NaN
  | PInf, _ | _, PInf => PInf
  | NInf, _ | _, NInf => NInf
  end.

Definition nsub (a b : num) : num := nadd a (nneg b).

(** sign of a finite value times an infinity: [0 * inf] is [nan] *)
Definition scale_inf (x : Qc) (positive_sign : bool) : num :=
  if bool_decide (0 < x)%Qc then inf_of positive_sign
  else if bool_decide (x < 0)%Qc then inf_of (negb positive_sign)
  else NaN.

Definition nmul (a b : num) : num :=
  match a, b with
  | NaN, _ | _, NaN => NaN
  | Fin x, Fin y => Fin (x * y)%Qc
  | Fin x, PInf | PInf, Fin x => scale_inf x true
  | Fin x, NInf | NInf, Fin x => scale_inf x false
  | PInf, PInf | NInf, NInf => PInf
  | PInf, NInf | NInf, PInf => NInf
  end.

(** numpy division: [x/0] is an infinity of the sign of [x], [0/0] and
    [inf/inf] are [nan], a finite value over an infinity is zero. *)
Definition ndiv (a b : num) : num :=
  match a, b with
  | NaN, _ | _, NaN => NaN
  | Fin x, Fin y =>
      if bool_decide (y = 0)%Qc then scale_inf x true else Fin (x / y)%Qc
  | Fin _, (PInf | NInf) => Fin 0%Qc
  | PInf, Fin y => inf_of (bool_decide (0 <= y)%Qc)
  | NInf, Fin y => inf_of (bool_decide (y < 0)%Qc)
  | (PInf | NInf), (PInf | NInf) => NaN
  end.

(** comparisons: every comparison with [nan] is false *)
Definition nlt (a b : num) : bool :=
  match a, b with
  | NaN, _ | _, NaN => false
  | Fin x, Fin y => bool_decide (x < y)%Qc
  | NInf, (Fin _ | PInf) => true
  | Fin _, PInf => true
  | _, _ => false
  end.

Definition nle (a b : num) : bool :=
  match a, b with
  | NaN, _ | _, NaN => false
  | Fin x, Fin y => bool_decide (x <= y)%Qc
  | NInf, _ => true
  | _, PInf => true
  | _, _ => false
  end.

Definition ngt (a b : num) : bool := nlt b a.

Definition isinf (a : num) : bool :=
  match a with PInf | NInf => true | _ => false end.

Definition isnan (a : num) : bool :=
  match a with NaN => true | _ => false end.

Definition isfinite (a : num) : bool :=
  match a with Fin _ => true | _ => false end.

Definition qabs (x : Qc) : Qc := if bool_decide (x < 0)%Qc then (- x)%Qc else x.

Definition nabs (a : num) : num :=
  match a with
  | Fin x => Fin (qabs x)
  | PInf | NInf => PInf
  | NaN => NaN
  end.

Definition nsqr (a : num) : num := nmul a a.

Declare Scope num_scope.
Delimit Scope num_scope with num.
Bind Scope num_scope with num.
Infix "+" := nadd : num_scope.
Infix "-" := nsub : num_scope.
Infix "*" := nmul : num_scope.
Infix "/" := ndiv : num_scope.
Notation "- x" := (nneg x) : num_scope.
Infix "<?" := nlt : num_scope.
Infix "<=?" := nle : num_scope.
Infix ">?" := ngt : num_scope.

(** numpy's [np.sum] and [np.mean] of a one-dimensional array; the
    mean of an empty array is [nan] (with a warning). *)
Definition nsum (l : list num) : num := foldr nadd (Fin 0%Qc) l.

Definition nmean (l : list num) : num :=
  (nsum l / Fin (qn (length l)))%num.

(* ===================================================================== *)
(** * Array helpers                                                       *)
(* ===================================================================== *)

(** [np.where(mask)[0]]: the positions at which a boolean array is true *)
Fixpoint where_from (k : nat) (mask : list bool) : list nat :=
  match mask with
  | [] => []
  | b :: rest =>
      if b then k :: where_from (S k) rest else where_from (S k) rest
  end.

Definition np_where (mask : list bool) : list nat := where_from 0 mask.

(** boolean-mask selection [a[mask]] (the same as [a[np.where(mask)]]) *)
Fixpoint select {A} (mask : list bool) (a : list A) : list A :=
  match mask, a with
  | b :: mask', x :: a' => if b then x :: select mask' a' else select mask' a'
  | _, _ => []
  end.

(** [np.ma.masked_array(a, mask).compressed()]: entries whose mask is false *)
Definition compressed {A} (a : list A) (mask : list bool) : list A :=
  select (map negb mask) a.

(** indexing [a[i]] of an array of rationals, and of an index array *)
Definition at_q (a : list Qc) (i : nat) : Qc := default 0%Qc (a !! i).
Definition at_n (a : list nat) (i : nat) : nat := default 0%nat (a !! i).

(** [np.argsort(keys)]: the positions of [keys] in ascending key order.
    Equal keys keep their order of appearance here; numpy's default sort
    promises no order among them. *)
Fixpoint insert_key (p : Qc * nat) (l : list (Qc * nat)) : list (Qc * nat) :=
  match l with
  | [] => [p]
  | q :: l' =>
      if bool_decide (q.1 <= p.1)%Qc then q :: insert_key p l' else p :: q :: l'
  end.

Definition sort_keys (l : list (Qc * nat)) : list (Qc * nat) :=
  foldl (fun acc p => insert_key p acc) [] l.

Definition argsort (keys : list Qc) : list nat :=
  (sort_keys (zip keys (seq 0 (length keys)))).*2.

(* ===================================================================== *)
(** * Peak search: [search_maxima]                                        *)
(* ===================================================================== *)

Module PeakSearch.

(** [dy = y[1:] - y[:-1]] *)
Definition first_diff (y : list Qc) : list Qc :=
  zip_with Qcminus (drop 1 y) (take (length y - 1) y).

(** [(np.hstack((0, dy)) > 0) & (np.hstack((dy, 0)) < 0)] *)
Definition peak_mask (y : list Qc) : list bool :=
  let dy := first_diff y in
  zip_with andb
    (map (fun d => bool_decide (0 < d)%Qc) (0%Qc :: dy))
    (map (fun d => bool_decide (d < 0)%Qc) (dy ++ [0%Qc])).

Definition candidates (y : list Qc) : list nat := np_where (peak_mask y).

(** [if threshold: i_max = i_max[np.where(y[i_max] > threshold)]];
    Python's truth test treats both [None] and [0.0] as false. *)
Definition truthy (threshold : option Qc) : bool :=
  match threshold with
  | None => false
  | Some t => negb (bool_decide (t = 0)%Qc)
  end.

Definition apply_threshold (y : list Qc) (threshold : option Qc)
    (i_max : list nat) : list nat :=
  match threshold with
  | Some t =>
      if truthy threshold
      then select (map (fun v => bool_decide (t < v)%Qc) (map (at_q y) i_max)) i_max
      else i_max
  | None => i_max
  end.

(** [i_max = i_max[np.argsort(y[i_max])][::-1]] *)
Definition sort_by_height (y : list Qc) (i_max : list nat) : list nat :=
  reverse (map (at_n i_max) (argsort (map (at_q y) i_max))).

(** [(i_max >= c - dx) & (i_max <= c + dx)] at one entry [p] of [i_max] *)
Definition within (dx : Qc) (c p : nat) : bool :=
  bool_decide (qn c - dx <= qn p)%Qc && bool_decide (qn p <= qn c + dx)%Qc.

(** the same test between the entries at positions [a] and [k] *)
Definition near (i_max : list nat) (dx : Qc) (a k : nat) : bool :=
  within dx (at_n i_max a) (at_n i_max k).

(** one turn of [for i in range(i_max.size)] *)
Definition flag_step (i_max : list nat) (dx : Qc)
    (flag_remove : list bool) (i : nat) : list bool :=
  if default false (flag_remove !! i) then flag_remove
  else
    <[i := false]>
      (zip_with orb flag_remove (map (within dx (at_n i_max i)) i_max)).

Definition final_flags (i_max : list nat) (dx : Qc) : list bool :=
  foldl (flag_step i_max dx)
        (replicate (length i_max) false)
        (seq 0 (length i_max)).

Definition suppress (i_max : list nat) (dx : Qc) : list nat :=
  match i_max with
  | [] => i_max
  | _ =>
      if bool_decide (1 < dx)%Qc
      then select (map negb (final_flags i_max dx)) i_max
      else i_max
  end.

Definition search_maxima (y : list Qc) (threshold : option Qc) (dx : Qc)
    : list nat :=
  let i_max := candidates y in
  let i_max := apply_threshold y threshold i_max in
  let i_max := sort_by_height y i_max in
  suppress i_max dx.

End PeakSearch.

(* ===================================================================== *)
(** * Errors                                                              *)
(* ===================================================================== *)

(** Python exceptions that the modelled code can raise. *)
Inductive exn : Type :=
  | IndexError      (* an array index out of range *)
  | TypeError       (* [np.polyfit]: "expected non-empty vector for x";
                       arithmetic or a comparison with [None] *)
  | LinAlgError.    (* raised inside the least-squares solver *)

Inductive res (A : Type) : Type :=
  | Ok (a : A)
  | Raise (e : exn).
Arguments Ok {A} a.
Arguments Raise {A} e.

Definition res_bind {A B} (m : res A) (k : A -> res B) : res B :=
  match m with
  | Ok a => k a
  | Raise e => Raise e
  end.

Notation "'do' x <- m ; k" := (res_bind m (fun x => k))
  (at level 10, x name, m at level 100, k at level 200).

(** running a loop body over a list, stopping at the first exception *)
Fixpoint res_map {A B} (f : A -> res B) (l : list A) : res (list B) :=
  match l with
  | [] => Ok []
  | a :: l' => do b <- f a; do bs <- res_map f l'; Ok (b :: bs)
  end.

(** Python indexing [a[k]] with an integer [k]: negative indices count
    from the end, anything else out of range raises [IndexError]. *)
Definition py_index (a : list Qc) (k : Z) : res Qc :=
  let n := Z.of_nat (length a) in
  let k' := if (k <? 0)%Z then (k + n)%Z else k in
  if (k' <? 0)%Z then Raise IndexError
  else match a !! Z.to_nat k' with
       | Some v => Ok v
       | None => Raise IndexError
       end.

(* ===================================================================== *)
(** * Sub-pixel refinement                                                *)
(* ===================================================================== *)

Module Refine.

Definition a0 (f_minus f_max f_plus : Qc) : Qc :=
  (qz 13 * f_max / qz 12 - (f_plus + f_minus) / qz 24)%Qc.

Definition a1 (f_minus f_max f_plus : Qc) : Qc :=
  (qfrac 1 2 * (f_plus - f_minus))%Qc.

Definition a2 (f_minus f_max f_plus : Qc) : Qc :=
  (qfrac 1 2 * (f_plus + f_minus - qz 2 * f_max))%Qc.

(** [y_max = j - 0.5 * a1 / a2] *)
Definition y_max (j : nat) (f_minus f_max f_plus : Qc) : num :=
  (Fin (qn j)
   - Fin (qfrac 1 2 * a1 f_minus f_max f_plus)%Qc / Fin (a2 f_minus f_max f_plus))%num.

(** [f_max = a0 - 0.25 * a1**2 / a2] *)
Definition f_peak (f_minus f_max f_plus : Qc) : num :=
  (Fin (a0 f_minus f_max f_plus)
   - Fin (qfrac 1 4 * (a1 f_minus f_max f_plus * a1 f_minus f_max f_plus))%Qc
     / Fin (a2 f_minus f_max f_plus))%num.

(** the body of [for k in range(2)] for one row [j] of a column:
    reads [im[j,i]], [im[j-1,i]], [im[j+1,i]] and returns
    [(y_max, f_max)] *)
Definition refine (col : list Qc) (j : nat) : res (num * num) :=
  do f_max <- py_index col (Z.of_nat j);
  do f_minus <- py_index col (Z.of_nat j - 1);
  do f_plus <- py_index col (Z.of_nat j + 1);
  Ok (y_max j f_minus f_max f_plus, f_peak f_minus f_max f_plus).

End Refine.

(* ===================================================================== *)
(** * Least-squares line: [np.polyfit(x, y, 1)]                           *)
(* ===================================================================== *)

Definition qsum (l : list Qc) : Qc := foldr Qcplus 0%Qc l.

Definition all_finite (l : list num) : bool := forallb isfinite l.

Definition fin_val (a : num) : Qc :=
  match a with Fin q => q | _ => 0%Qc end.

(** determinant of the normal equations: [n*sum(x^2) - sum(x)^2] *)
Definition fit_det (x : list Qc) : Qc :=
  (qn (length x) * qsum (map (fun a => a * a) x) - qsum x * qsum x)%Qc.

(** the closed-form least-squares line [(P[0], P[1])] = (slope, intercept) *)
Definition fit_line (x y : list Qc) : Qc * Qc :=
  let n := qn (length x) in
  let sx := qsum x in
  let sy := qsum y in
  let sxy := qsum (zip_with Qcmult x y) in
  let slope := ((n * sxy - sx * sy) / fit_det x)%Qc in
  (slope, ((sy - slope * sx) / n)%Qc).

(** What the detectors take from numpy and scipy beside [np.polyfit]:
    [np.nanstd] of a channel image, [scipy.ndimage.rotate(im, angle,
    reshape=False)], and the largest finite value of the image's float
    type, which [np.nan_to_num] puts in the place of an infinity. *)
Record library : Type := Library {
  nanstd : list (list num) -> num;
  rotate : list (list Qc) -> Qc -> list (list Qc);
  float_max : Qc;
}.

Section Detector.

(** What the LAPACK solver behind [np.polyfit] does on input that is not
    a well-posed finite problem (a single abscissa, or data that holds an
    infinity or a nan). *)
Variable lstsq_degenerate : list Qc -> list num -> res (Qc * Qc).

(** The cube's conversion [cube._Jybeam_to_Tb]. *)
Variable Jybeam_to_Tb : num -> num.

Definition polyfit1 (x : list Qc) (y : list num) : res (Qc * Qc) :=
  match x with
  | [] => Raise TypeError
  | _ =>
      if all_finite y && negb (bool_decide (fit_det x = 0)%Qc)
      then Ok (fit_line x (map fin_val y))
      else lstsq_degenerate x y
  end.

(** [P[1] + P[0]*x] *)
Definition line_at (P : Qc * Qc) (x : Qc) : num := Fin (P.2 + P.1 * x)%Qc.

(** ** One column of a channel image *)

(** per-column state: [in_surface[i]], [j_surf[i,:]],
    [j_surf_exact[i,:]], [T_surf[i,:]] *)
Record column : Type := Column {
  in_surface : bool;
  j_surf : nat * nat;
  j_surf_exact : num * num;
  T_surf : num * num;
}.

(** the arrays as initialised by [np.full(nx, False)] and [np.zeros] *)
Definition column_init : column :=
  Column false (0%nat, 0%nat) (Fin 0%Qc, Fin 0%Qc) (Fin 0%Qc, Fin 0%Qc).

(** [j_max[np.where(j_max > y_star)]] and [j_max[np.where(j_max < y_star)]] *)
Definition above (y_star : Qc) (j_max : list nat) : list nat :=
  select (map (fun j => bool_decide (y_star < qn j)%Qc) j_max) j_max.
Definition below (y_star : Qc) (j_max : list nat) : list nat :=
  select (map (fun j => bool_decide (qn j < y_star)%Qc) j_max) j_max.

(** [np.sort(j_max[:2])] for an array of at least two indices *)
Definition sort2 (p : nat * nat) : nat * nat :=
  if bool_decide (p.2 < p.1)%nat then (p.2, p.1) else p.

(** *** [detect_surface] of src/measure_height.py, lines 229-253 *)
Definition select_pair_script (y_star : Qc) (j_max : list nat)
    : option (bool * (nat * nat)) :=
  match j_max with
  | s0 :: s1 :: _ =>
      Some
        (if bool_decide (qn s0 < y_star)%Qc && bool_decide (qn s1 < y_star)%Qc then
           match above y_star j_max with
           | r :: _ => (true, (s0, r))
           | [] => (false, (s0, s1))
           end
         else if bool_decide (y_star < qn s0)%Qc && bool_decide (y_star < qn s1)%Qc then
           match below y_star j_max with
           | r :: _ => (true, (r, s1))
           | [] => (false, (s0, s1))
           end
         else (true, sort2 (s0, s1)))
  | _ => None
  end.

(** *** [Surface._detect_surface], lines 75-94 *)
Definition select_pair_class (y_star : option Qc) (j_max : list nat)
    : option (bool * (nat * nat)) :=
  match j_max with
  | s0 :: s1 :: _ =>
      let sorted := sort2 (s0, s1) in
      Some
        match y_star with
        | None => (true, sorted)
        | Some ys =>
            let '(ins, pr) :=
              if bool_decide (qn sorted.2 < ys)%Qc then
                match above ys j_max with
                | r :: _ => (true, (s0, r))
                | [] => (false, sorted)
                end
              else (true, sorted) in
            (* np.mean(j_surf[i,:]) < self.y_star *)
            if bool_decide ((qn pr.1 + qn pr.2) / qz 2 < ys)%Qc
            then (false, pr) else (ins, pr)
        end
  | _ => None
  end.

(** the refinement loop [for k in range(2)], storing the peak value
    through [store] (the identity in the script, [_Jybeam_to_Tb] in the
    class) *)
Definition refine_pair (store : num -> num) (col : list Qc)
    (sel : bool * (nat * nat)) : res column :=
  do r0 <- Refine.refine col sel.2.1;
  do r1 <- Refine.refine col sel.2.2;
  Ok (Column sel.1 sel.2 (r0.1, r1.1) (store r0.2, store r1.2)).

Definition scan_column_script (thr dx y_star : Qc) (col : list Qc) : res column :=
  let j_max := PeakSearch.search_maxima col (Some thr) dx in
  match select_pair_script y_star j_max with
  | Some sel => refine_pair id col sel
  | None => Ok column_init
  end.

Definition scan_column_class (thr dx : Qc) (y_star : option Qc)
    (col : list Qc) : res column :=
  let j_max := PeakSearch.search_maxima col (Some thr) dx in
  match select_pair_class y_star j_max with
  | Some sel => refine_pair Jybeam_to_Tb col sel
  | None => Ok column_init
  end.

(** ** One channel image *)

(** [im[:,i]]: column [i] of an image stored by rows *)
Definition image_column (im : list (list Qc)) (i : nat) : list Qc :=
  map (fun row => at_q row i) im.

(** per-channel entry of [n_surf], and rows of [x_surf], [y_surf],
    [Tb_surf] *)
Record channel : Type := Channel {
  n_surf : nat;
  x_surf : list Qc;
  y_surf : list (num * num);
  Tb_surf : list (num * num);
}.

Definition zero2 : num * num := (Fin 0%Qc, Fin 0%Qc).

(** row assignment [row[:n] = vals] into a row of [nx] zeros *)
Definition fill_row {A} (zero : A) (nx : nat) (vals : list A) : list A :=
  vals ++ replicate (nx - length vals) zero.

Definition channel_init (nx : nat) : channel :=
  Channel 0 (replicate nx 0%Qc) (replicate nx zero2) (replicate nx zero2).

Definition count_true (mask : list bool) : nat := length (filter (fun b => b = true) mask).

(** [x = np.arange(nx)] *)
Definition arange (nx : nat) : list Qc := map qn (seq 0 nx).

(** [np.mean(j_surf_exact[mask,:], axis=1)] *)
Definition midpoint (c : column) : num :=
  ((c.(j_surf_exact).1 + c.(j_surf_exact).2) / Fin (qz 2))%num.

(** [np.polyfit(x[mask], np.mean(j_surf_exact[mask,:],axis=1), 1)] *)
Definition fit_columns (mask : list bool) (cols : list column) : res (Qc * Qc) :=
  polyfit1 (select mask (arange (length cols))) (select mask (map midpoint cols)).

(** [(j_surf_exact[:,0] < P[1] + P[0]*x) & (j_surf_exact[:,1] > P[1] + P[0]*x)] *)
Definition straddles (P : Qc * Qc) (x : Qc) (c : column) : bool :=
  (c.(j_surf_exact).1 <? line_at P x)%num && (c.(j_surf_exact).2 >? line_at P x)%num.

(** [in_surface & (...) & (...)] *)
Definition prune (P : Qc * Qc) (cols : list column) : list bool :=
  zip_with (fun x c => c.(in_surface) && straddles P x c) (arange (length cols)) cols.

(** the block "Saving the data" *)
Definition save (nx : nat) (mask : list bool) (cols : list column) : channel :=
  let n := count_true mask in
  if bool_decide (0 < n)%nat then
    Channel n
      (fill_row 0%Qc nx (select mask (arange (length cols))))
      (fill_row zero2 nx (select mask (map j_surf_exact cols)))
      (fill_row zero2 nx (select mask (map T_surf cols)))
  else
    Channel n (replicate nx 0%Qc) (replicate nx zero2) (replicate nx zero2).

(** the mask [in_surface_tmp] left by the first fit *)
Definition first_pass (cols : list column) : res (list bool) :=
  do P <- fit_columns (map in_surface cols) cols;
  Ok (prune P cols).

(** both fits: first fit, prune, second fit on the survivors, prune *)
Definition two_pass (cols : list column) : res (list bool) :=
  do tmp <- first_pass cols;
  do P <- fit_columns tmp cols;
  Ok (prune P cols).

(** *** [detect_surface], the body of [for iv in range(nv)] once
    [sigma*std] is the finite number [thr] and [y_star] a number *)
Definition clean_script (nx : nat) (cols : list column) : res channel :=
  let ins := map in_surface cols in
  if existsb id ins then
    do mask <- two_pass cols;
    Ok (save nx mask cols)
  else Ok (channel_init nx).

Definition detect_channel_script (nx : nat) (thr dx y_star : Qc)
    (im : list (list Qc)) : res channel :=
  do cols <- res_map (fun i => scan_column_script thr dx y_star (image_column im i))
                     (seq 0 nx);
  clean_script nx cols.

(** *** [Surface._detect_surface], the body of [for iv in range(nv)]
    once [sigma*std] is the finite number [thr] *)
Definition clean_class (nx : nat) (cols : list column) : res channel :=
  let ins := map in_surface cols in
  if existsb id ins then
    do mask <- (if bool_decide (2 < count_true ins)%nat
                then two_pass cols else Ok ins);
    Ok (save nx mask cols)
  else Ok (channel_init nx).

Definition detect_channel_class (nx : nat) (thr dx : Qc) (y_star : option Qc)
    (im : list (list Qc)) : res channel :=
  do cols <- res_map (fun i => scan_column_class thr dx y_star (image_column im i))
                     (seq 0 nx);
  clean_class nx cols.

(** ** The whole cube

    [cube.image] holds [cube.nv] channel images of [cube.nx] columns
    each, with the values as they are read from the file: [nan] and
    infinities can occur.  [dx] is the value of
    [cube.bmaj/cube.pixelscale].  The keyword [plot] stays at its
    default: nothing is written to disk. *)

Variable np : library.

(** [np.nan_to_num] on one pixel *)
Definition nan_to_num (a : num) : Qc :=
  match a with
  | Fin q => q
  | NaN => 0%Qc
  | PInf => np.(float_max)
  | NInf => (- np.(float_max))%Qc
  end.

(** [im = np.nan_to_num(cube.image[iv,:,:])], then
    [if PA is not None: im = np.array(rotate(im, PA - 90.0, reshape=False))] *)
Definition rotated (PA : option Qc) (raw : list (list num)) : list (list Qc) :=
  let im := map (map nan_to_num) raw in
  match PA with
  | Some pa => np.(rotate) im (pa - qz 90)%Qc
  | None => im
  end.

(** [threshold=sigma*std]: the product of [None] and a number raises *)
Definition threshold_of (sigma : option Qc) (std : num) : res num :=
  match sigma with
  | Some s => Ok (Fin s * std)%num
  | None => Raise TypeError
  end.

(** [search_maxima] called with a threshold that need not be finite.
    [nan] and the infinities are true for [if threshold:]; no sample is
    above [+inf] or [nan], every sample is above [-inf]. *)
Definition search_maxima_at (y : list Qc) (threshold : num) (dx : Qc) : list nat :=
  let i_max := PeakSearch.candidates y in
  let i_max :=
    match threshold with
    | Fin t => PeakSearch.apply_threshold y (Some t) i_max
    | NInf => i_max
    | PInf | NaN => []
    end in
  PeakSearch.suppress (PeakSearch.sort_by_height y i_max) dx.

(** *** [detect_surface]: one turn of [for i in range(nx)], with [sigma]
    and [y_star] as the caller passes them (both default to [None]).
    The test [j_surf[i,0] < y_star] is reached when the column has two
    maxima, and raises for [y_star=None]. *)
Definition scan_script (sigma : option Qc) (std : num) (dx : Qc)
    (y_star : option Qc) (col : list Qc) : res column :=
  do threshold <- threshold_of sigma std;
  let j_max := search_maxima_at col threshold dx in
  match y_star with
  | Some ys =>
      match select_pair_script ys j_max with
      | Some sel => refine_pair id col sel
      | None => Ok column_init
      end
  | None =>
      match j_max with
      | _ :: _ :: _ => Raise TypeError
      | _ => Ok column_init
      end
  end.

(** *** [Surface._detect_surface]: one turn of [for i in range(nx)] *)
Definition scan_class (sigma : option Qc) (std : num) (dx : Qc)
    (y_star : option Qc) (col : list Qc) : res column :=
  do threshold <- threshold_of sigma std;
  let j_max := search_maxima_at col threshold dx in
  match select_pair_class y_star j_max with
  | Some sel => refine_pair Jybeam_to_Tb col sel
  | None => Ok column_init
  end.

(** one turn of [for iv in range(nv)] on the image [im] *)
Definition channel_script (nx : nat) (sigma : option Qc) (std : num) (dx : Qc)
    (y_star : option Qc) (im : list (list Qc)) : res channel :=
  do cols <- res_map (fun i => scan_script sigma std dx y_star (image_column im i))
                     (seq 0 nx);
  clean_script nx cols.

Definition channel_class (nx : nat) (sigma : option Qc) (std : num) (dx : Qc)
    (y_star : option Qc) (im : list (list Qc)) : res channel :=
  do cols <- res_map (fun i => scan_class sigma std dx y_star (image_column im i))
                     (seq 0 nx);
  clean_class nx cols.

(** the loop [for iv in range(nv)] over channel images *)
Definition channels_script (nx : nat) (sigma : option Qc) (std : num) (dx : Qc)
    (PA y_star : option Qc) (image : list (list (list num))) : res (list channel) :=
  res_map (fun raw => channel_script nx sigma std dx y_star (rotated PA raw)) image.

Definition channels_class (nx : nat) (sigma : option Qc) (std : num) (dx : Qc)
    (PA y_star : option Qc) (image : list (list (list num))) : res (list channel) :=
  res_map (fun raw => channel_class nx sigma std dx y_star (rotated PA raw)) image.

(** [std = np.nanstd(cube.image[1,:,:])] comes before the loop: a cube
    without a channel of index 1 raises [IndexError]. *)
Definition detect_surface (image : list (list (list num))) (nx : nat) (dx : Qc)
    (PA sigma y_star : option Qc) : res (list channel) :=
  match image !! 1%nat with
  | Some noise => channels_script nx sigma (np.(nanstd) noise) dx PA y_star image
  | None => Raise IndexError
  end.

Definition _detect_surface (image : list (list (list num))) (nx : nat) (dx : Qc)
    (PA sigma y_star : option Qc) : res (list channel) :=
  match image !! 1%nat with
  | Some noise => channels_class nx sigma (np.(nanstd) noise) dx PA y_star image
  | None => Raise IndexError
  end.

End Detector.

(* ===================================================================== *)
(** * Deprojection                                                        *)
(* ===================================================================== *)

(** One entry of the detector's arrays seen together with the velocity
    of its channel: [cube.velocity[iv]], [x[iv,i]], [y[iv,i,:]] and
    [T[iv,i,:]].  The two-dimensional arrays are stored flattened in
    row-major order, the order of [ravel()] and of [compressed()]. *)
Record point : Type := Point {
  p_vel : Qc;
  p_x : Qc;
  p_y : num * num;
  p_T : num * num;
}.

(** the flattened points of a detector output *)
Definition channel_points (vel : Qc) (c : channel) : list point :=
  zip_with (fun x yT => Point vel x yT.1 yT.2)
           c.(x_surf) (zip c.(y_surf) c.(Tb_surf)).

Definition cube_points (velocity : list Qc) (chans : list channel) : list point :=
  concat (zip_with channel_points velocity chans).

(** a numpy masked array: data and mask side by side *)
Record marray : Type := MArray {
  ma_data : list num;
  ma_mask : list bool;
}.

(** [np.mean] of a masked array: the mean of the unmasked entries, or
    the constant [masked] (here [None]) when there is none *)
Definition ma_mean (a : marray) : option num :=
  match compressed a.(ma_data) a.(ma_mask) with
  | [] => None
  | vals => Some (nmean vals)
  end.

Definition ma_neg (a : marray) : marray :=
  MArray (map nneg a.(ma_data)) a.(ma_mask).

(** The scalar geometry of a run: [np.sin(np.radians(inc))],
    [np.cos(np.radians(inc))], the stellar position, the systemic
    velocity and [cube.pixelscale]. *)
Record geometry : Type := Geometry {
  sin_i : Qc;
  cos_i : Qc;
  x_star : Qc;
  y_star : Qc;
  v_syst : Qc;
  pixelscale : Qc;
}.

Definition with_y_star (g : geometry) (ys : Qc) : geometry :=
  Geometry g.(sin_i) g.(cos_i) g.(x_star) ys g.(v_syst) g.(pixelscale).

(** What the programs take from outside the repository: [np.sqrt] on a
    non-negative rational, [np.hypot] on two rationals and the cube's
    [_Jybeam_to_Tb]. *)
Record externals : Type := Externals {
  sqrt_ : Qc -> Qc;
  hypot_ : Qc -> Qc -> Qc;
  Jybeam_to_Tb : num -> num;
}.

Definition nsqrt (E : externals) (a : num) : num :=
  match a with
  | Fin q => if bool_decide (q < 0)%Qc then NaN else Fin (E.(sqrt_) q)
  | PInf => PInf
  | NInf | NaN => NaN
  end.

(** [np.hypot]: an infinite argument wins over a nan *)
Definition nhypot (E : externals) (a b : num) : num :=
  if isinf a || isinf b then PInf
  else match a, b with
       | Fin x, Fin y => Fin (E.(hypot_) x y)
       | _, _ => NaN
       end.

(** [(cube.velocity[:,np.newaxis] - v_syst) * r / ((x - x_star) * np.sin(inc_rad))] *)
Definition velocity_of (g : geometry) (p : point) (r : num) : num :=
  (Fin (p.(p_vel) - g.(v_syst))%Qc * r
   / Fin ((p.(p_x) - g.(x_star)) * g.(sin_i))%Qc)%num.

(** [np.abs(cube.velocity - v_syst) < w] *)
Definition near_systemic (g : geometry) (w : Qc) (p : point) : bool :=
  bool_decide (qabs (p.(p_vel) - g.(v_syst)) < w)%Qc.

(** ** [measure_mol_surface] of src/measure_height.py *)
Module Script.

Definition y_c (p : point) : num := ((p.(p_y).2 + p.(p_y).1) / Fin (qz 2))%num.

(** [h = (y_c - y_star) / np.sin(inc_rad)] *)
Definition h_raw (g : geometry) (p : point) : num :=
  ((y_c p - Fin g.(y_star)) / Fin g.(sin_i))%num.

(** [len(np.where(h.ravel()<0)[0]) > 0.995*len(h.ravel())] *)
Definition flipped (g : geometry) (pts : list point) : bool :=
  let h := map (h_raw g) pts in
  bool_decide
    (qfrac 995 1000 * qn (length h)
     < qn (length (np_where (map (fun a => (a <? Fin 0%Qc)%num) h))))%Qc.

Definition h_px (g : geometry) (flip : bool) (p : point) : num :=
  if flip then (- h_raw g p)%num else h_raw g p.

Definition r_px (E : externals) (g : geometry) (flip : bool) (p : point) : num :=
  let dy := if flip then (y_c p - p.(p_y).1)%num else (p.(p_y).2 - y_c p)%num in
  nsqrt E (Fin ((p.(p_x) - g.(x_star)) * (p.(p_x) - g.(x_star)))%Qc
           + (dy / Fin g.(cos_i)) * (dy / Fin g.(cos_i)))%num.

Definition v_of (E : externals) (g : geometry) (flip : bool) (p : point) : num :=
  velocity_of g p (r_px E g flip p).

(** [r *= cube.pixelscale] and, when given, [r *= distance] *)
Definition to_length (g : geometry) (distance : option Qc) (a : num) : num :=
  let a := (a * Fin g.(pixelscale))%num in
  match distance with
  | Some d => (a * Fin d)%num
  | None => a
  end.

Definition r_of (E : externals) (g : geometry) (distance : option Qc)
    (flip : bool) (p : point) : num :=
  to_length g distance (r_px E g flip p).
Definition h_of (g : geometry) (distance : option Qc) (flip : bool) (p : point) : num :=
  to_length g distance (h_px g flip p).

(** [mask1 = (h<0) | np.isinf(v) | np.isnan(v) | (r>400)] *)
Definition mask1 (E : externals) (g : geometry) (distance : option Qc)
    (flip : bool) (p : point) : bool :=
  (h_of g distance flip p <? Fin 0%Qc)%num
  || isinf (v_of E g flip p) || isnan (v_of E g flip p)
  || (r_of E g distance flip p >? Fin (qz 400))%num.

(** [mask2 = mask1 | (np.abs(cube.velocity - v_syst) < 0.4)[:,np.newaxis]] *)
Definition mask2 (E : externals) (g : geometry) (distance : option Qc)
    (flip : bool) (p : point) : bool :=
  mask1 E g distance flip p || near_systemic g (qfrac 4 10) p.

(** [np.mean(T[:,:,:], axis=2)] *)
Definition B_of (p : point) : num := ((p.(p_T).1 + p.(p_T).2) / Fin (qz 2))%num.

Definition measure_mol_surface (E : externals) (g : geometry)
    (pts : list point) (distance : option Qc)
    : list num * list num * list num * list num :=
  let flip := flipped g pts in
  let r := map (r_of E g distance flip) pts in
  let h := map (h_of g distance flip) pts in
  let v := map (v_of E g flip) pts in
  let mask2 := map (mask2 E g distance flip) pts in
  let r := compressed r mask2 in
  let h := compressed h mask2 in
  let v := compressed v mask2 in
  let B := compressed (map B_of pts) mask2 in
  let v := if (nmean v <? Fin 0%Qc)%num then map nneg v else v in
  let mask3 := map (fun a => (a <? Fin 0%Qc)%num) v in
  let r := compressed r mask3 in
  let h := compressed h mask3 in
  let v := compressed v mask3 in
  let B := compressed B mask3 in
  let Tb := map E.(Jybeam_to_Tb) B in
  (r, h, v, Tb).

End Script.

(** ** [Surface._compute_surface] of src/CO_layers/measure_height.py *)
Module Class.

Definition y_f (g : geometry) (p : point) : num := (p.(p_y).2 - Fin g.(y_star))%num.
Definition y_n (g : geometry) (p : point) : num := (p.(p_y).1 - Fin g.(y_star))%num.
Definition y_c (g : geometry) (p : point) : num :=
  (Fin (qfrac 1 2) * (y_f g p + y_n g p))%num.

(** [x = self.x_sky - self.x_star] *)
Definition x_of (g : geometry) (p : point) : num := Fin (p.(p_x) - g.(x_star))%Qc.
(** [y = (y_f - y_c) / np.cos(inc_rad)] *)
Definition y_of (g : geometry) (p : point) : num :=
  ((y_f g p - y_c g p) / Fin g.(cos_i))%num.

Definition r_px (E : externals) (g : geometry) (p : point) : num :=
  nhypot E (x_of g p) (y_of g p).
Definition h_px (g : geometry) (p : point) : num := (y_c g p / Fin g.(sin_i))%num.
Definition v_of (E : externals) (g : geometry) (p : point) : num :=
  velocity_of g p (r_px E g p).

Definition r_of (E : externals) (g : geometry) (p : point) : num :=
  (r_px E g p * Fin g.(pixelscale))%num.
Definition h_of (g : geometry) (p : point) : num :=
  (h_px g p * Fin g.(pixelscale))%num.

(** [mask = (h<0) | np.isinf(v) | np.isnan(v)], then
    [mask | (np.abs(self.cube.velocity - self.v_syst) < 1.5)[:,np.newaxis]] *)
Definition mask_of (E : externals) (g : geometry) (p : point) : bool :=
  (h_of g p <? Fin 0%Qc)%num || isinf (v_of E g p) || isnan (v_of E g p)
  || near_systemic g (qfrac 3 2) p.

(** the attributes [x], [y], [r], [h], [v] set by the method *)
Record surface : Type := Surface {
  s_x : list num;
  s_y : list num;
  s_r : marray;
  s_h : marray;
  s_v : marray;
}.

Definition _compute_surface (E : externals) (g : geometry) (pts : list point)
    : surface :=
  let mask := map (mask_of E g) pts in
  let r := MArray (map (r_of E g) pts) mask in
  let h := MArray (map (h_of g) pts) mask in
  let v := MArray (map (v_of E g) pts) mask in
  let v := match ma_mean v with
           | Some m => if (m <? Fin 0%Qc)%num then ma_neg v else v
           | None => v
           end in
  Surface (map (x_of g) pts) (map (y_of g) pts) r h v.

End Class.

(** ** [measure_mol_surface], lines 22-37, in binary64

    The radius and the velocity before masking, in the arithmetic that
    the program runs in: [+], [-], [*], [/] and [np.sqrt] of IEEE
    binary64, rounded to nearest.  numpy computes [a**2] as the product
    [a*a].  [sin_i] and [cos_i] are the values of [np.sin(inc_rad)] and
    [np.cos(inc_rad)]. *)
Module ScriptBinary64.

Record entry : Type := Entry {
  e_vel : float;             (* [cube.velocity[iv]] *)
  e_x : float;               (* [x[iv,i]] *)
  e_y : float * float;       (* [y[iv,i,:]] *)
}.

Record geometry : Type := Geometry {
  sin_i : float;
  cos_i : float;
  x_star : float;
  y_star : float;
  v_syst : float;
}.

Definition with_y_star (g : geometry) (ys : float) : geometry :=
  Geometry g.(sin_i) g.(cos_i) g.(x_star) ys g.(v_syst).

(** the float of a length *)
Definition of_nat (n : nat) : float := PrimFloat.of_uint63 (Uint63.of_Z (Z.of_nat n)).

(** [y_c = (y_a + y_b)/2.] *)
Definition y_c (p : entry) : float := ((p.(e_y).2 + p.(e_y).1) / 2)%float.

(** [h = (y_c - y_star) / np.sin(inc_rad)] *)
Definition h_raw (g : geometry) (p : entry) : float :=
  ((y_c p - g.(y_star)) / g.(sin_i))%float.

(** [len(np.where(h.ravel()<0)[0]) > 0.995*len(h.ravel())]; the double
    next to 0.995 is [0x1.fd70a3d70a3d7p-1] *)
Definition flipped (g : geometry) (pts : list entry) : bool :=
  let h := map (h_raw g) pts in
  PrimFloat.ltb
    (0x1.fd70a3d70a3d7p-1 * of_nat (length h))%float
    (of_nat (length (filter (fun a => PrimFloat.ltb a 0%float = true) h))).

(** [np.sqrt((x - x_star)**2 + ((y_c - y_b)/np.cos(inc_rad))**2)] when
    the heights are flipped, with [y_a - y_c] when they are not *)
Definition r_px (g : geometry) (flip : bool) (p : entry) : float :=
  let dy := if flip then (y_c p - p.(e_y).1)%float else (p.(e_y).2 - y_c p)%float in
  PrimFloat.sqrt ((p.(e_x) - g.(x_star)) * (p.(e_x) - g.(x_star))
                  + (dy / g.(cos_i)) * (dy / g.(cos_i)))%float.

(** [(cube.velocity[:,np.newaxis] - v_syst) * r / ((x - x_star) * np.sin(inc_rad))] *)
Definition v_of (g : geometry) (flip : bool) (p : entry) : float :=
  ((p.(e_vel) - g.(v_syst)) * r_px g flip p
   / ((p.(e_x) - g.(x_star)) * g.(sin_i)))%float.

(** the arrays [r] and [v] before [r *= cube.pixelscale] and the masks *)
Definition radius (g : geometry) (pts : list entry) : list float :=
  map (r_px g (flipped g pts)) pts.
Definition velocity (g : geometry) (pts : list entry) : list float :=
  map (v_of g (flipped g pts)) pts.

End ScriptBinary64.

(* ===================================================================== *)
(** * Predicates used in the statements                                   *)
(* ===================================================================== *)

(** order of the pairs sorted by [argsort] *)
Definition key_le (p q : Qc * nat) : Prop := (p.1 <= q.1)%Qc.

(** row [a] of the profile [y] is at least as high as row [b] *)
Definition higher (y : list Qc) (a b : nat) : Prop := (at_q y b <= at_q y a)%Qc.

(** the qualifying candidates, strongest first: the value of [i_max]
    when [search_maxima] reaches its suppression block *)
Definition ranked (y : list Qc) (threshold : option Qc) : list nat :=
  PeakSearch.sort_by_height y
    (PeakSearch.apply_threshold y threshold (PeakSearch.candidates y)).

(** A candidate as the specification words it: an interior row where the
    first difference goes from non-negative to negative. *)
Definition spec_candidate (y : list Qc) (i : nat) : Prop :=
  (0 < i)%nat ∧ (S i < length y)%nat ∧
  (0 <= at_q y i - at_q y (i - 1))%Qc ∧ (at_q y (S i) - at_q y i < 0)%Qc.



(** The disambiguation by stellar position as the specification words
    it: the two strongest candidates [s0], [s1]; when both lie on one
    side of the star, the first of the weaker candidates on the other
    side replaces a member of the pair, and the column is discarded when
    there is none; otherwise the pair is sorted. *)
Definition spec_disambiguate (y_star : Qc) (j_max : list nat)
    : option (bool * (nat * nat)) :=
  match j_max with
  | s0 :: s1 :: weaker =>
      Some
        (if bool_decide (qn s0 < y_star)%Qc && bool_decide (qn s1 < y_star)%Qc then
           match List.find (fun c => bool_decide (y_star < qn c)%Qc) weaker with
           | Some r => (true, (s0, r))
           | None => (false, (s0, s1))
           end
         else if bool_decide (y_star < qn s0)%Qc && bool_decide (y_star < qn s1)%Qc then
           match List.find (fun c => bool_decide (qn c < y_star)%Qc) weaker with
           | Some r => (true, (r, s1))
           | None => (false, (s0, s1))
           end
         else (true, sort2 (s0, s1)))
  | _ => None
  end.

(** [np.mean(j_surf[i,:])] *)
Definition pair_mean (p : nat * nat) : Qc := ((qn p.1 + qn p.2) / qz 2)%Qc.

(** The points behind the four sequences returned by
    [measure_mol_surface]: those left by [mask2], whether their
    velocities are negated, the velocity returned for a point, and the
    points left by [mask3]. *)
Definition script_kept (E : externals) (g : geometry) (d : option Qc)
    (pts : list point) : list point :=
  filter (fun p => Script.mask2 E g d (Script.flipped g pts) p = false) pts.

Definition script_negated (E : externals) (g : geometry) (d : option Qc)
    (pts : list point) : bool :=
  (nmean (map (Script.v_of E g (Script.flipped g pts)) (script_kept E g d pts))
   <? Fin 0%Qc)%num.

Definition script_v_out (E : externals) (g : geometry) (d : option Qc)
    (pts : list point) (p : point) : num :=
  let v := Script.v_of E g (Script.flipped g pts) p in
  if script_negated E g d pts then (- v)%num else v.

Definition script_returned (E : externals) (g : geometry) (d : option Qc)
    (pts : list point) : list point :=
  filter (fun p => (script_v_out E g d pts p <? Fin 0%Qc)%num = false)
         (script_kept E g d pts).

(** The same for [_compute_surface]: whether the velocities are negated,
    and the velocity stored for a point. *)
Definition class_negated (E : externals) (g : geometry) (pts : list point) : bool :=
  match ma_mean (MArray (map (Class.v_of E g) pts) (map (Class.mask_of E g) pts)) with
  | Some m => (m <? Fin 0%Qc)%num
  | None => false
  end.

Definition class_v_out (E : externals) (g : geometry) (pts : list point)
    (p : point) : num :=
  if class_negated E g pts then (- Class.v_of E g p)%num else Class.v_of E g p.

(** A concrete run used in the examples below: inclination with
    [sin = 3/5], [cos = 4/5], the star at [(0, 5)], zero systemic
    velocity, unit pixel scale. *)
Definition example_externals : externals :=
  Externals (fun q => q) (fun x y => (x * x + y * y)%Qc) (fun a => a).
Definition example_geometry : geometry :=
  Geometry (qfrac 3 5) (qfrac 4 5) 0%Qc (qz 5) 0%Qc (qz 1).
Definition point_below_star : point :=
  Point (qz 10) (qz 3) (Fin 0%Qc, Fin 0%Qc) (Fin 0%Qc, Fin 0%Qc).
Definition point_above_star : point :=
  Point (qz 10) (qz 3) (Fin (qz 4), Fin (qz 8)) (Fin (qz 1), Fin (qz 1)).
Definition point_counter_rotating : point :=
  Point (qz (-10)) (qz 3) (Fin (qz 4), Fin (qz 8)) (Fin (qz 1), Fin (qz 1)).

(** The arrays [x] and [y] of two channels and four columns as a
    detector fills them, as doubles: channel 0, at velocity 1.5, has one
    entry, for column 3, with the positions 3.0 and the double next to
    6.8; the rest of its rows and the rows of channel 1, at velocity
    -1.5, are zero.  The geometry has the doubles next to 0.6 and 0.8
    for [sin] and [cos], the star in column 0 and at row 4 or 100. *)
Definition binary64_entries : list ScriptBinary64.entry :=
  (ScriptBinary64.Entry 0x1.8p+0 3 (3, 0x1.b333333333333p+2)
   :: replicate 3 (ScriptBinary64.Entry 0x1.8p+0 0 (0, 0))
   ++ replicate 4 (ScriptBinary64.Entry (-0x1.8p+0) 0 (0, 0)))%float.
Definition binary64_geometry (y_star : float) : ScriptBinary64.geometry :=
  ScriptBinary64.Geometry 0x1.3333333333333p-1 0x1.999999999999ap-1 0 y_star 0.

(** both cross-axis positions of a detector entry are finite numbers *)
Definition finite_y (p : point) : Prop :=
  isfinite p.(p_y).1 = true ∧ isfinite p.(p_y).2 = true.

(** a column as the scan leaves it: untouched, or holding two refined
    rows with finite positions and the stored values of finite peaks *)
Definition column_refined (store : num → num) (c : column) : Prop :=
  c = column_init
  ∨ ∃ ins pr y0 y1 f0 f1,
      c = Column ins pr (Fin y0, Fin y1) (store (Fin f0), store (Fin f1)).

(** a detector entry in the column of the star of [example_geometry] *)
Definition point_at_star : point :=
  Point (qz 10) 0%Qc (Fin (qz 4), Fin (qz 8)) (Fin (qz 1), Fin (qz 1)).

(** the columns of a channel image after the scan of each column *)
Definition scanned_script (nx : nat) (thr dx y_star : Qc) (im : list (list Qc))
    : res (list column) :=
  res_map (fun i => scan_column_script thr dx y_star (image_column im i)) (seq 0 nx).
Definition scanned_class (Jy : num → num) (nx : nat) (thr dx : Qc)
    (y_star : option Qc) (im : list (list Qc)) : res (list column) :=
  res_map (fun i => scan_column_class Jy thr dx y_star (image_column im i)) (seq 0 nx).

(** no column of the image has two maxima that pass the threshold *)
Definition quiet (nx : nat) (thr dx : Qc) (im : list (list Qc)) : Prop :=
  ∀ i, (i < nx)%nat →
       (length (PeakSearch.search_maxima (image_column im i) (Some thr) dx) < 2)%nat.

(** the same for a threshold [sigma*std] that need not be finite *)
Definition quiet_at (nx : nat) (threshold : num) (dx : Qc) (im : list (list Qc)) : Prop :=
  ∀ i, (i < nx)%nat →
       (length (search_maxima_at (image_column im i) threshold dx) < 2)%nat.

(** "insufficient signal" in the words of the specification: no column
    in the surface, or fewer than three columns left by the first fit *)
Definition insufficient_signal (lstsq : list Qc → list num → res (Qc * Qc))
    (cols : list column) : Prop :=
  existsb id (map in_surface cols) = false
  ∨ ∃ tmp, first_pass lstsq cols = Ok tmp ∧ (count_true tmp < 3)%nat.

(** a solver that gives up on every degenerate problem *)
Definition lstsq_gives_up : list Qc → list num → res (Qc * Qc) :=
  fun _ _ => Raise LinAlgError.

(** A channel of 19 rows and 3 columns: columns 0 and 1 peak at rows 2
    and 6, column 2 at rows 3 and 17; the peaks have the values 9 and 10. *)
Definition example_channel : list (list Qc) :=
  [ [qz 0; qz 0; qz 0];
    [qz 0; qz 0; qz 0];
    [qz 9; qz 9; qz 0];
    [qz 0; qz 0; qz 9];
    [qz 0; qz 0; qz 0];
    [qz 0; qz 0; qz 0];
    [qz 10; qz 10; qz 0];
    [qz 0; qz 0; qz 0];
    [qz 0; qz 0; qz 0];
    [qz 0; qz 0; qz 0];
    [qz 0; qz 0; qz 0];
    [qz 0; qz 0; qz 0];
    [qz 0; qz 0; qz 0];
    [qz 0; qz 0; qz 0];
    [qz 0; qz 0; qz 0];
    [qz 0; qz 0; qz 0];
    [qz 0; qz 0; qz 0];
    [qz 0; qz 0; qz 10];
    [qz 0; qz 0; qz 0] ].

(** a channel of 5 rows and 3 columns with a single maximum per column *)
Definition single_peak_channel : list (list Qc) :=
  [ [qz 0; qz 0; qz 0];
    [qz 0; qz 5; qz 0];
    [qz 5; qz 0; qz 0];
    [qz 0; qz 0; qz 5];
    [qz 0; qz 0; qz 0] ].

(** A channel of 20 rows and 3 columns without any maximum: ten rows of
    0 above ten rows of 2.  Its standard deviation is 1. *)
Definition noise_channel : list (list Qc) :=
  replicate 10 [qz 0; qz 0; qz 0] ++ replicate 10 [qz 2; qz 2; qz 2].

(** A channel of 20 rows and 3 columns: columns 0 and 2 peak at rows 2
    and 4, column 1 at rows 8 and 10. *)
Definition outlier_channel : list (list Qc) :=
  [ [qz 0; qz 0; qz 0];
    [qz 0; qz 0; qz 0];
    [qz 9; qz 0; qz 9];
    [qz 0; qz 0; qz 0];
    [qz 10; qz 0; qz 10];
    [qz 0; qz 0; qz 0];
    [qz 0; qz 0; qz 0];
    [qz 0; qz 0; qz 0];
    [qz 0; qz 9; qz 0];
    [qz 0; qz 0; qz 0];
    [qz 0; qz 10; qz 0] ] ++ replicate 9 [qz 0; qz 0; qz 0].

(** an image of finite pixels as it is read from the file *)
Definition as_read (im : list (list Qc)) : list (list num) := map (map Fin) im.

(** The library functions on the cubes of the examples: the channel of
    index 1 is [noise_channel], no rotation is asked for, and the pixels
    are doubles. *)
Definition example_library : library :=
  Library (fun _ => Fin (qz 1)) (fun im _ => im) (qz ((2 ^ 53 - 1) * 2 ^ 971)).

(** cubes of channels of 20 rows and 3 columns: [example_channel] with
    one more row of zeros, [noise_channel] and [single_peak_channel]
    filled up with rows of zeros; [outlier_channel] and [noise_channel] *)
Definition example_cube : list (list (list num)) :=
  [as_read (example_channel ++ [[qz 0; qz 0; qz 0]]); as_read noise_channel;
   as_read (single_peak_channel ++ replicate 15 [qz 0; qz 0; qz 0])].
Definition outlier_cube : list (list (list num)) :=
  [as_read outlier_channel; as_read noise_channel].

(** what the scan of a column leaves when the column is kept: two rows
    [a < b] with refined positions more than a pixel apart *)
Definition column_kept (c : column) (a b : nat) (y0 y1 : Qc) : Prop :=
  c.(j_surf) = (a, b) ∧ (a < b)%nat
  ∧ c.(j_surf_exact) = (Fin y0, Fin y1) ∧ (y0 + 1 < y1)%Qc.

(** column 0 of [example_channel] as the two scans leave it *)
Definition example_column : column :=
  match scan_column_script (qz 1) (qz 1) (qz 4) (image_column example_channel 0) with
  | Ok c => c
  | Raise _ => column_init
  end.

(** the result of cleaning a channel: a final mask and the rows filled
    from it *)
Definition saved_as (nx : nat) (cols : list column) (mask : list bool)
    (ch : channel) : Prop :=
  length mask = nx
  ∧ (∀ i, mask !! i = Some true →
          ∃ c, cols !! i = Some c ∧ c.(in_surface) = true)
  ∧ ch = Channel (count_true mask)
           (fill_row 0%Qc nx (map qn (np_where mask)))
           (fill_row zero2 nx (select mask (map j_surf_exact cols)))
           (fill_row zero2 nx (select mask (map T_surf cols))).

(** [example_channel] as [detect_surface] saves it (star at row 4) *)
Definition example_saved : channel :=
  match detect_channel_script lstsq_gives_up 3 (qz 1) (qz 1) (qz 4) example_channel with
  | Ok ch => ch
  | Raise _ => channel_init 3
  end.

(** the scanned columns of [outlier_channel] and of a channel whose
    first two columns are those of [example_channel] *)
Definition outlier_columns : list column :=
  match scanned_class id 3 (qz 1) (qz 1) None outlier_channel with
  | Ok cols => cols
  | Raise _ => []
  end.

(** the first two columns of [example_channel] beside an empty third one *)
Definition two_column_channel : list (list Qc) :=
  map (fun row => take 2 row ++ [0%Qc]) example_channel.

Definition two_columns : list column :=
  match scanned_class id 3 (qz 1) (qz 1) None two_column_channel with
  | Ok cols => cols
  | Raise _ => []
  end.

(** an entry of the zero-filled tail of a channel's rows, in a channel
    of velocity 10 *)
Definition point_padding : point :=
  Point (qz 10) 0%Qc (Fin 0%Qc, Fin 0%Qc) (Fin 0%Qc, Fin 0%Qc).

(* ===================================================================== *)
(** * The result container: [class Surface(dict)] of src/measure_height.py *)
(* ===================================================================== *)

(** A Python [dict] with string keys keeps its items in insertion order
    and holds every key once; it is modelled as an association list.
    A character of a key is one [ascii] (code points below 256), so that
    [len] is [String.length] and the order of [sorted] on keys is
    [String.ltb]. *)
Module SurfaceDict.

Inductive error : Type :=
  | KeyError (key : string)
  | AttributeError (name : string).

Inductive outcome (A : Type) : Type :=
  | Return (a : A)
  | Raised (e : error).
Arguments Return {A} a.
Arguments Raised {A} e.

Section Dict.

(** the values stored, and Python's [repr] on them *)
Variable V : Type.
Variable repr : V -> string.

Definition dict : Type := list (string * V).

(** [self[name]]: [None] stands for the [KeyError] of a missing key *)
Fixpoint getitem (d : dict) (k : string) : option V :=
  match d with
  | [] => None
  | (k', v) :: d' => if decide (k' = k) then Some v else getitem d' k
  end.

(** [dict.__setitem__]: a key that is present keeps its place, a new key
    goes to the end *)
Fixpoint setitem (d : dict) (k : string) (v : V) : dict :=
  match d with
  | [] => [(k, v)]
  | (k', v') :: d' =>
      if decide (k' = k) then (k', v) :: d' else (k', v') :: setitem d' k v
  end.

(** [dict.__delitem__]: [None] stands for the [KeyError] of a missing key *)
Fixpoint delitem (d : dict) (k : string) : option dict :=
  match d with
  | [] => None
  | (k', v') :: d' =>
      if decide (k' = k) then Some d'
      else match delitem d' k with
           | Some d'' => Some ((k', v') :: d'')
           | None => None
           end
  end.

(** [list(self.keys())] *)
Definition keys (d : dict) : list string := d.*1.

(** [try: return self[name]; except KeyError: raise AttributeError(name)] *)
Definition __getattr__ (d : dict) (name : string) : outcome V :=
  match getitem d name with
  | Some v => Return v
  | None => Raised (AttributeError name)
  end.

(** [__setattr__ = dict.__setitem__] *)
Definition __setattr__ (d : dict) (name : string) (v : V) : dict :=
  setitem d name v.

(** [__delattr__ = dict.__delitem__] *)
Definition __delattr__ (d : dict) (name : string) : outcome dict :=
  match delitem d name with
  | Some d' => Return d'
  | None => Raised (KeyError name)
  end.

Definition __dir__ (d : dict) : list string := keys d.

Fixpoint spaces (n : nat) : string :=
  match n with
  | O => ""
  | S n' => String (Ascii.ascii_of_nat 32) (spaces n')
  end.

(** [k.rjust(m)]: padded with spaces on the left up to the width [m];
    a string that is already that long is returned as it is *)
Definition rjust (k : string) (m : nat) : string :=
  spaces (m - String.length k) +:+ k.

(** [sorted(self.items())]: the keys of a dict differ, so the key
    decides the order of the pairs; an item goes before the first item
    with a larger key *)
Fixpoint insert_item (x : string * V) (l : dict) : dict :=
  match l with
  | [] => [x]
  | y :: l' => if String.ltb x.1 y.1 then x :: y :: l' else y :: insert_item x l'
  end.

Definition sorted_items (d : dict) : dict :=
  foldl (fun acc x => insert_item x acc) [] d.

(** [max(map(len, list(self.keys())))] of a dict that is not empty *)
Definition widest (ks : list string) : nat :=
  foldr (fun k m => Nat.max (String.length k) m) 0%nat ks.

Definition newline : string := String (Ascii.ascii_of_nat 10) "".

(** [k.rjust(m) + ': ' + repr(v)] *)
Definition line (m : nat) (kv : string * V) : string :=
  rjust kv.1 m +:+ ": " +:+ repr kv.2.

(** [__repr__]; [self.__class__.__name__] is taken for the class itself *)
Definition __repr__ (d : dict) : string :=
  match keys d with
  | [] => "Surface()"
  | _ =>
      let m := (widest (keys d) + 1)%nat in
      String.concat newline (map (line m) (sorted_items d))
  end.

(** two items in ascending key order *)
Definition key_leb (a b : string * V) : Prop := String.leb a.1 b.1 = true.

End Dict.

End SurfaceDict.

(** a container with three attributes set in the order [n], [x], [PA];
    the values are kept as the text that [repr] shows for them *)
Definition example_surface : SurfaceDict.dict string :=
  SurfaceDict.__setattr__ string
    (SurfaceDict.__setattr__ string (SurfaceDict.__setattr__ string [] "n" "3") "x" "7")
    "PA" "45".

(** the second entry saved for [example_channel], in a channel of
    velocity 10 *)
Definition example_detection : point :=
  default point_padding (channel_points (qz 10) example_saved !! 1%nat).

(** the columns of a channel as the scan leaves them: a kept column
    holds finite positions more than one pixel apart *)
Definition scanned_ok (cols : list column) : Prop :=
  ∀ j c, cols !! j = Some c → c.(in_surface) = true →
         ∃ y0 y1, c.(j_surf_exact) = (Fin y0, Fin y1) ∧ (y0 + 1 < y1)%Qc.

(* ===================================================================== *)
(** * Properties                                                          *)
(* ===================================================================== *)

(** Linear arithmetic on [Qc]: move the goal to [Q] and call [lra]. *)
Ltac qc2q :=
  repeat match goal with
  | H : @eq Qc _ _ |- _ => apply (f_equal this) in H
  | |- @eq Qc _ _ => apply Qc_is_canon
  | |- ~ @eq Qc _ _ => let H := fresh in intros H; apply (f_equal this) in H; revert H
  end;
  unfold Qcle, Qclt, Qcminus, Qcplus, Qcopp, Qcmult, Q2Qc in *;
  cbn [this] in *;
  rewrite ?Qred_correct in *.

(** Linear arithmetic on [Qc] with numerals and division by numerals. *)
Ltac qc_lra :=
  unfold qz, qfrac, Qc_of_Z, Qcdiv, Qcinv in *; qc2q;
  unfold inject_Z in *; cbn [Qinv Qnum Qden] in *; lra.

(** Field equations on [Qc] whose constants are numerals: move to [Q]. *)
Ltac to_Q :=
  apply Qc_is_canon;
  unfold Refine.a0, Refine.a1, Refine.a2, qz, qfrac, Qc_of_Z,
         Qcdiv, Qcinv, Qcminus, Qcplus, Qcopp, Qcmult, Q2Qc;
  cbn [this]; rewrite ?Qred_correct.

(** ** Array helpers *)

Lemma where_from_spec (m : list bool) (k i : nat) :
  i ∈ where_from k m ↔ ∃ j, i = (k + j)%nat ∧ m !! j = Some true.
Proof.
  revert k. induction m as [|b m IH]; intros k; simpl.
  - split; [intros H; inversion H | intros (j & _ & H); done].
  - destruct b.
    + rewrite elem_of_cons, IH. split.
      * intros [->|(j & -> & H)]; [exists 0%nat | exists (S j)]; split; auto; lia.
      * intros ([|j] & -> & H); [left; lia | right; exists j; split; auto; lia].
    + rewrite IH. split.
      * intros (j & -> & H). exists (S j). split; auto; lia.
      * intros ([|j] & -> & H); [done | exists j; split; auto; lia].
Qed.

Lemma np_where_spec (m : list bool) (i : nat) :
  i ∈ np_where m ↔ m !! i = Some true.
Proof.
  unfold np_where. rewrite where_from_spec. split.
  - intros (j & -> & H). done.
  - intros H. exists i. done.
Qed.

Section PeakSearchFacts.
Import PeakSearch.

Lemma first_diff_lookup (y : list Qc) (k : nat) :
  first_diff y !! k =
    if bool_decide (S k < length y)%nat
    then Some (at_q y (S k) - at_q y k)%Qc else None.
Proof.
  unfold first_diff, at_q. rewrite lookup_zip_with, lookup_drop. simpl.
  case_bool_decide as Hk.
  - destruct (lookup_lt_is_Some_2 y (S k) Hk) as [a Ha].
    destruct (lookup_lt_is_Some_2 y k ltac:(lia)) as [b Hb].
    rewrite Ha. simpl. rewrite lookup_take_lt by lia. rewrite Hb. done.
  - rewrite (lookup_ge_None_2 y (S k)) by lia. done.
Qed.

Lemma first_diff_length (y : list Qc) : length (first_diff y) = (length y - 1)%nat.
Proof.
  unfold first_diff. rewrite length_zip_with, length_drop, length_take. lia.
Qed.

Lemma Qc_pos_diff (a b : Qc) : (0 < a - b)%Qc ↔ (b < a)%Qc.
Proof. rewrite (Qclt_minus_iff b a). done. Qed.

Lemma Qc_neg_diff (a b : Qc) : (a - b < 0)%Qc ↔ (a < b)%Qc.
Proof.
  rewrite (Qclt_minus_iff (a - b) 0), (Qclt_minus_iff a b).
  replace (0 + - (a - b))%Qc with (b + - a)%Qc by ring. done.
Qed.

Lemma peak_mask_lookup_true (y : list Qc) (i : nat) :
  peak_mask y !! i = Some true ↔
  (0 < i)%nat ∧ (S i < length y)%nat ∧
  (at_q y (i - 1) < at_q y i)%Qc ∧ (at_q y (S i) < at_q y i)%Qc.
Proof.
  unfold peak_mask. rewrite lookup_zip_with, !list_lookup_fmap.
  destruct i as [|k]; simpl.
  - split; [|lia].
    destruct ((first_diff y ++ [0%Qc]) !! 0%nat); simpl; done.
  - rewrite first_diff_lookup. replace (k - 0)%nat with k by lia.
    case_bool_decide as Hk; simpl.
    + destruct (decide (S (S k) < length y)%nat) as [Hk2|Hk2].
      * assert (S k < length (first_diff y))%nat as HH by (rewrite first_diff_length; lia).
        rewrite (lookup_app_l (first_diff y)) by exact HH.
        rewrite first_diff_lookup.
        rewrite (bool_decide_eq_true_2 (S (S k) < length y)%nat) by lia. simpl.
        split.
        -- intros [= H]. apply andb_true_iff in H as [H1 H2].
           apply bool_decide_eq_true in H1, H2.
           apply (proj1 (Qc_pos_diff _ _)) in H1. apply (proj1 (Qc_neg_diff _ _)) in H2.
           split; [lia|]. split; [lia|]. split; assumption.
        -- intros (_ & _ & H1 & H2). f_equal. apply andb_true_iff.
           split; apply bool_decide_eq_true; [apply Qc_pos_diff|apply Qc_neg_diff]; done.
      * rewrite (lookup_app_r (first_diff y)) by (rewrite first_diff_length; lia).
        rewrite first_diff_length.
        replace (S k - (length y - 1))%nat with 0%nat by lia. simpl.
        rewrite andb_false_r. split; [done | lia].
    + split; [done | lia].
Qed.

Lemma candidates_spec (y : list Qc) (i : nat) :
  i ∈ candidates y ↔
  (0 < i)%nat ∧ (S i < length y)%nat ∧
  (at_q y (i - 1) < at_q y i)%Qc ∧ (at_q y (S i) < at_q y i)%Qc.
Proof. unfold candidates. rewrite np_where_spec. apply peak_mask_lookup_true. Qed.

Lemma within_sym (dx : Qc) (c p : nat) : within dx c p = within dx p c.
Proof.
  unfold within. apply eq_true_iff_eq. rewrite !andb_true_iff, !bool_decide_eq_true.
  generalize (qn c) (qn p). intros a b. qc2q. lra.
Qed.

Section Suppress.
Variable cs : list nat.
Variable dx : Qc.

Local Abbreviation near := (PeakSearch.near cs dx).

Record flags_inv (i : nat) (F : list bool) : Prop := {
  inv_len : length F = length cs;
  inv_flagged : ∀ k, F !! k = Some true →
      ∃ a, (a < i)%nat ∧ (a < k)%nat ∧ F !! a = Some false ∧ near a k = true;
  inv_kept : ∀ a k, (a < i)%nat → (k < length cs)%nat → k ≠ a →
      F !! a = Some false → near a k = true → F !! k = Some true;
}.

Lemma flags_inv_init : flags_inv 0 (replicate (length cs) false).
Proof.
  split.
  - apply length_replicate.
  - intros k H. apply lookup_replicate in H as [H _]. done.
  - intros a k H. lia.
Qed.

Lemma step_lookup (F : list bool) (i k : nat) :
  length F = length cs → (i < length cs)%nat → F !! i = Some false →
  flag_step cs dx F i !! k =
    if decide (k = i) then Some false
    else (λ b, b || near i k) <$> F !! k.
Proof.
  intros HL Hi HFi. unfold flag_step. rewrite HFi. simpl.
  destruct (decide (k = i)) as [->|Hne].
  - apply list_lookup_insert_eq. rewrite length_zip_with, length_map. lia.
  - rewrite list_lookup_insert_ne by done.
    rewrite lookup_zip_with, list_lookup_fmap.
    destruct (F !! k) as [b|] eqn:Hk; simpl; [|done].
    assert (k < length cs)%nat as Hk' by (rewrite <- HL; eapply lookup_lt_Some; eauto).
    destruct (lookup_lt_is_Some_2 cs k Hk') as [c Hc].
    rewrite Hc. simpl. unfold near, at_n. rewrite Hc. done.
Qed.

Lemma flags_inv_step (i : nat) (F : list bool) :
  (i < length cs)%nat → flags_inv i F → flags_inv (S i) (flag_step cs dx F i).
Proof.
  intros Hi [HL HA HB].
  destruct (lookup_lt_is_Some_2 F i ltac:(lia)) as [[|] HFi].
  - (* already flagged: the turn does nothing *)
    unfold flag_step. rewrite HFi. simpl. split; [done| |].
    + intros k Hk. destruct (HA k Hk) as (a & ? & ? & ? & ?). exists a. repeat split; auto; lia.
    + intros a k Ha Hk Hne Hfa Hn. destruct (decide (a = i)) as [->|]; [congruence|].
      apply (HB a k); auto; lia.
  - pose proof (step_lookup F i) as SL.
    split.
    + unfold flag_step. rewrite HFi. simpl.
      rewrite length_insert, length_zip_with, length_map. lia.
    + intros k. rewrite (SL k HL Hi HFi). destruct (decide (k = i)) as [->|Hne]; [done|].
      destruct (F !! k) as [b|] eqn:Hk; simpl; [|done]. intros [= Hb].
      assert (k < length cs)%nat as Hk' by (rewrite <- HL; eapply lookup_lt_Some; eauto).
      destruct b.
      * destruct (HA k Hk) as (a & Hai & Hak & Hfa & Hn).
        exists a. split; [lia|]. split; [done|]. split; [|done].
        rewrite (SL a HL Hi HFi). destruct (decide (a = i)); [lia|].
        rewrite Hfa. simpl. f_equal.
        destruct (near i a) eqn:Hia; [|done].
        assert (F !! i = Some true); [|congruence].
        apply (HB a i); auto; try lia. unfold near in *. rewrite within_sym. done.
      * simpl in Hb. exists i. split; [lia|]. split.
        -- destruct (decide (i < k)%nat); [done|].
           assert (F !! i = Some true); [|congruence].
           apply (HB k i); auto; try lia. unfold near in *. rewrite within_sym. done.
        -- split; [|done]. rewrite (SL i HL Hi HFi). rewrite decide_True; done.
    + intros a k Ha Hk Hne. rewrite (SL a HL Hi HFi), (SL k HL Hi HFi).
      destruct (decide (a = i)) as [->|Hai].
      * intros _ Hn. rewrite decide_False by done.
        destruct (lookup_lt_is_Some_2 F k ltac:(lia)) as [b Hb]. rewrite Hb. simpl.
        rewrite Hn. rewrite orb_true_r. done.
      * destruct (F !! a) as [b|] eqn:Hfa; simpl; [|done]. intros [= Hb] Hn.
        apply orb_false_iff in Hb as [-> Hia].
        assert (F !! k = Some true) as Hfk by (apply (HB a k); auto; lia).
        destruct (decide (k = i)) as [->|]; [congruence|].
        rewrite Hfk. done.
Qed.

Lemma flags_inv_run (len s : nat) (F : list bool) :
  (s + len ≤ length cs)%nat → flags_inv s F →
  flags_inv (s + len) (foldl (flag_step cs dx) F (seq s len)).
Proof.
  revert s F. induction len as [|len IH]; intros s F Hle HI; simpl.
  - replace (s + 0)%nat with s by lia. done.
  - replace (s + S len)%nat with (S s + len)%nat by lia.
    apply IH; [lia|]. apply flags_inv_step; [lia|done].
Qed.

Lemma final_flags_inv : flags_inv (length cs) (final_flags cs dx).
Proof.
  unfold final_flags. apply (flags_inv_run (length cs) 0); [lia|]. apply flags_inv_init.
Qed.

End Suppress.

End PeakSearchFacts.

Section SelectFacts.
Context {A : Type}.
Implicit Types (m : list bool) (a : list A).

Lemma select_lookup m a (x : A) :
  x ∈ select m a ↔ ∃ k, m !! k = Some true ∧ a !! k = Some x.
Proof.
  revert a. induction m as [|b m IH]; intros [|y a]; simpl.
  - split; [intros H; inversion H | intros (k & H & _); done].
  - split; [intros H; inversion H | intros (k & H & _); done].
  - split; [intros H; inversion H | intros (k & _ & H); done].
  - destruct b.
    + rewrite elem_of_cons, IH. split.
      * intros [->|(k & H1 & H2)]; [exists 0%nat | exists (S k)]; done.
      * intros ([|k] & H1 & H2); simpl in *; [left; congruence | right; eauto].
    + rewrite IH. split.
      * intros (k & H1 & H2). exists (S k). done.
      * intros ([|k] & H1 & H2); simpl in *; [done | eauto].
Qed.

Lemma select_sublist m a : select m a `sublist_of` a.
Proof.
  revert a. induction m as [|b m IH]; intros [|y a]; simpl;
    try apply sublist_nil_l.
  destruct b; [apply sublist_skip | apply sublist_cons]; apply IH.
Qed.

Lemma select_map (f : A → bool) a :
  select (map f a) a = filter (λ x, f x = true) a.
Proof.
  induction a as [|y a IH]; simpl; [done|].
  rewrite filter_cons. destruct (f y) eqn:Hf.
  - rewrite decide_True by done. f_equal. done.
  - rewrite decide_False by congruence. done.
Qed.

Lemma select_all_true a : select (replicate (length a) true) a = a.
Proof. induction a; simpl; f_equal; done. Qed.

End SelectFacts.

Lemma compressed_map {A B} (f : A → B) (g : A → bool) (l : list A) :
  compressed (map f l) (map g l) = map f (filter (λ x, g x = false) l).
Proof.
  unfold compressed. induction l as [|y l IH]; simpl; [done|].
  rewrite filter_cons. destruct (g y) eqn:Hg; simpl; [done|]. f_equal. done.
Qed.

(** ** Sorting by height *)

Section SortFacts.
Import PeakSearch.

Lemma insert_key_perm (p : Qc * nat) (l : list (Qc * nat)) : insert_key p l ≡ₚ p :: l.
Proof.
  induction l as [|q l IH]; simpl; [done|].
  case_bool_decide; [|done]. rewrite IH. apply Permutation_swap.
Qed.

Lemma insert_key_sorted (p : Qc * nat) (l : list (Qc * nat)) :
  StronglySorted key_le l → StronglySorted key_le (insert_key p l).
Proof.
  induction 1 as [|q l Hs IH Hq]; simpl.
  - repeat constructor.
  - case_bool_decide as Hle.
    + constructor; [done|]. rewrite insert_key_perm. constructor; done.
    + assert (key_le p q) as Hpq
        by (unfold key_le; apply Qclt_le_weak, Qclt_nge; done).
      constructor; [constructor; done|]. constructor; [done|].
      eapply Forall_impl; [exact Hq|]. intros r Hr. unfold key_le in *.
      eapply Qcle_trans; done.
Qed.

Lemma sort_keys_from (acc l : list (Qc * nat)) :
  StronglySorted key_le acc →
  foldl (λ acc p, insert_key p acc) acc l ≡ₚ acc ++ l
  ∧ StronglySorted key_le (foldl (λ acc p, insert_key p acc) acc l).
Proof.
  revert acc. induction l as [|p l IH]; intros acc Hacc; simpl.
  - rewrite app_nil_r. done.
  - destruct (IH (insert_key p acc) (insert_key_sorted p acc Hacc)) as [HP HS].
    split; [|done]. rewrite HP, insert_key_perm.
    rewrite <- Permutation_middle. done.
Qed.

Lemma sort_keys_perm (l : list (Qc * nat)) : sort_keys l ≡ₚ l.
Proof. apply (sort_keys_from [] l). constructor. Qed.

Lemma sort_keys_sorted (l : list (Qc * nat)) : StronglySorted key_le (sort_keys l).
Proof. apply (sort_keys_from [] l). constructor. Qed.

Lemma StronglySorted_reverse {A} (R : relation A) (l : list A) :
  StronglySorted R l → StronglySorted (flip R) (reverse l).
Proof.
  induction 1 as [|x l Hs IH Hx]; [constructor|].
  rewrite reverse_cons. apply StronglySorted_app. split; [|split].
  - intros a b Ha Hb. apply list_elem_of_singleton in Hb as ->.
    rewrite elem_of_reverse in Ha. unfold flip.
    rewrite Forall_forall in Hx. auto.
  - done.
  - repeat constructor.
Qed.

Lemma StronglySorted_sublist {A} (R : relation A) (l k : list A) :
  k `sublist_of` l → StronglySorted R l → StronglySorted R k.
Proof.
  induction 1 as [|x k l Hsub IH|x k l Hsub IH]; intros Hs.
  - done.
  - apply StronglySorted_inv in Hs as [Hs Hx]. constructor; [auto|].
    rewrite Forall_forall in *. intros z Hz. apply Hx. eapply elem_of_sublist; done.
  - apply StronglySorted_inv in Hs as [Hs Hx]. auto.
Qed.

(** the pairs handed to the sort carry the heights of the candidates *)
Lemma keyed_pairs (y : list Qc) (cs cs' : list nat) (s : nat) :
  (∀ k x, cs' !! k = Some x → cs !! (s + k)%nat = Some x) →
  let pairs := zip (map (at_q y) cs') (seq s (length cs')) in
  map (λ p, at_n cs p.2) pairs = cs'
  ∧ Forall (λ p, p.1 = at_q y (at_n cs p.2)) pairs.
Proof.
  revert s. induction cs' as [|c cs' IH]; intros s H; simpl; [done|].
  assert (at_n cs s = c) as Hc.
  { unfold at_n. rewrite <- (Nat.add_0_r s) at 1. rewrite (H 0%nat c); done. }
  destruct (IH (S s)) as [IH1 IH2].
  { intros k x Hk. replace (S s + k)%nat with (s + S k)%nat by lia. apply H. done. }
  split.
  - rewrite Hc. f_equal. done.
  - constructor; [simpl; rewrite Hc; done | done].
Qed.

Lemma sort_by_height_alt (y : list Qc) (cs : list nat) :
  ∃ sorted : list (Qc * nat),
    sort_by_height y cs = reverse (map (λ p, at_n cs p.2) sorted)
    ∧ StronglySorted key_le sorted
    ∧ Forall (λ p, p.1 = at_q y (at_n cs p.2)) sorted
    ∧ map (λ p, at_n cs p.2) sorted ≡ₚ cs.
Proof.
  destruct (keyed_pairs y cs cs 0) as [Hmap Hkeys]; [done|].
  set (pairs := zip (map (at_q y) cs) (seq 0 (length cs))) in *.
  exists (sort_keys pairs). split; [|split; [|split]].
  - unfold sort_by_height, argsort. rewrite length_map. fold pairs.
    rewrite <- list_fmap_compose. done.
  - apply sort_keys_sorted.
  - rewrite sort_keys_perm. done.
  - rewrite sort_keys_perm, Hmap. done.
Qed.

Lemma sort_by_height_perm (y : list Qc) (cs : list nat) : sort_by_height y cs ≡ₚ cs.
Proof.
  destruct (sort_by_height_alt y cs) as (sorted & -> & _ & _ & HP).
  rewrite reverse_Permutation. done.
Qed.

Lemma sort_by_height_sorted (y : list Qc) (cs : list nat) :
  StronglySorted (higher y) (sort_by_height y cs).
Proof.
  destruct (sort_by_height_alt y cs) as (sorted & -> & HS & HK & _).
  apply (StronglySorted_reverse (flip (higher y))).
  induction HS as [|p l Hs IH Hp]; simpl; [constructor|].
  apply Forall_cons in HK as [Hk HK]. constructor; [auto|].
  rewrite Forall_fmap. rewrite Forall_forall in *. intros q Hq. simpl.
  unfold flip, higher. rewrite <- Hk, <- (HK q Hq). apply Hp. done.
Qed.

End SortFacts.

(** ** Peak search: the claims *)

Section PeakSearchTheorems.
Import PeakSearch.

Lemma qn_S (a : nat) : qn (S a) = (qn a + 1)%Qc.
Proof.
  unfold qn, Qc_of_Z. apply Qc_is_canon. cbn [this Qcplus Q2Qc].
  rewrite Qred_correct, Nat2Z.inj_succ. unfold Z.succ.
  rewrite inject_Z_plus. reflexivity.
Qed.

Lemma qn_le (a b : nat) : (a ≤ b)%nat → (qn a <= qn b)%Qc.
Proof.
  intros H. unfold qn, Qc_of_Z, Qcle. cbn [this].
  rewrite <- Zle_Qle. lia.
Qed.

Lemma qn_gap (a b : nat) (dx : Qc) :
  (dx <= 1)%Qc → (S a < b)%nat → (qn a + dx < qn b)%Qc.
Proof.
  intros Hdx Hab. pose proof (qn_le (S (S a)) b Hab) as H.
  rewrite !qn_S in H. revert H Hdx. generalize (qn a) (qn b). intros u v H Hdx.
  qc2q. lra.
Qed.

Lemma where_from_ge (m : list bool) (k i : nat) : i ∈ where_from k m → (k ≤ i)%nat.
Proof. rewrite where_from_spec. intros (j & -> & _). lia. Qed.

Lemma where_from_NoDup (m : list bool) (k : nat) : NoDup (where_from k m).
Proof.
  revert k. induction m as [|b m IH]; intros k; simpl; [constructor|].
  destruct b; [|apply IH]. constructor; [|apply IH].
  intros H. apply where_from_ge in H. lia.
Qed.

Lemma candidates_NoDup (y : list Qc) : NoDup (candidates y).
Proof. apply where_from_NoDup. Qed.

Lemma apply_threshold_sublist (y : list Qc) (t : option Qc) (cs : list nat) :
  apply_threshold y t cs `sublist_of` cs.
Proof.
  unfold apply_threshold. destruct t; [|done].
  destruct (truthy _); [apply select_sublist | done].
Qed.

Lemma suppress_sublist (cs : list nat) (dx : Qc) : suppress cs dx `sublist_of` cs.
Proof.
  unfold suppress. destruct cs; [done|].
  case_bool_decide; [apply select_sublist | done].
Qed.

(** candidates are never adjacent rows *)
Lemma candidates_apart (y : list Qc) (a b : nat) :
  a ∈ candidates y → b ∈ candidates y → (a < b)%nat → (S a < b)%nat.
Proof.
  rewrite !candidates_spec. intros (_ & _ & _ & Ha) (_ & _ & Hb & _) Hlt.
  destruct (decide (b = S a)) as [->|]; [|lia].
  replace (S a - 1)%nat with a in Hb by lia.
  exfalso. apply (Qclt_not_le _ _ Ha). apply Qclt_le_weak. done.
Qed.

Lemma within_false (dx : Qc) (c p : nat) :
  within dx c p = false ↔ (qn c + dx < qn p)%Qc ∨ (qn p + dx < qn c)%Qc.
Proof.
  unfold within. rewrite andb_false_iff, !bool_decide_eq_false.
  generalize (qn c) (qn p). intros a b. rewrite <- !Qclt_nge. qc2q.
  split; intros [H|H]; [right|left|right|left]; lra.
Qed.

Lemma suppress_active (cs : list nat) (dx : Qc) :
  (1 < dx)%Qc → suppress cs dx = select (map negb (final_flags cs dx)) cs.
Proof.
  intros H. unfold suppress. destruct cs; [done|].
  rewrite bool_decide_eq_true_2; done.
Qed.

Lemma suppress_inactive (cs : list nat) (dx : Qc) :
  (dx <= 1)%Qc → suppress cs dx = cs.
Proof.
  intros H. unfold suppress. destruct cs; [done|].
  rewrite bool_decide_eq_false_2; [done|]. apply Qcle_not_lt. done.
Qed.

Lemma suppress_elem (cs : list nat) (dx : Qc) (c : nat) :
  (1 < dx)%Qc →
  c ∈ suppress cs dx ↔ ∃ k, final_flags cs dx !! k = Some false ∧ cs !! k = Some c.
Proof.
  intros H. rewrite suppress_active, select_lookup by done.
  split; intros (k & Hk & Hc); exists k; (split; [|done]);
    rewrite list_lookup_fmap in *; destruct (final_flags cs dx !! k) as [[|]|]; done.
Qed.

Lemma at_n_lookup (cs : list nat) (k c : nat) : cs !! k = Some c → at_n cs k = c.
Proof. unfold at_n. intros ->. done. Qed.

(** greedy suppression keeps pairwise separated entries *)
Lemma suppress_separated (cs : list nat) (dx : Qc) (a b : nat) :
  (1 < dx)%Qc → a ∈ suppress cs dx → b ∈ suppress cs dx → a ≠ b →
  within dx a b = false.
Proof.
  intros Hdx Ha Hb Hne.
  apply suppress_elem in Ha as (ka & Hfa & Hca); [|done].
  apply suppress_elem in Hb as (kb & Hfb & Hcb); [|done].
  destruct (within dx a b) eqn:Hw; [|done].
  destruct (final_flags_inv cs dx) as [HL _ HB].
  assert (final_flags cs dx !! kb = Some true); [|congruence].
  apply (HB ka kb).
  - eapply lookup_lt_Some; done.
  - eapply lookup_lt_Some; done.
  - intros ->. congruence.
  - done.
  - unfold near. rewrite (at_n_lookup _ _ _ Hca), (at_n_lookup _ _ _ Hcb). done.
Qed.

(** the strongest entry is never suppressed *)
Lemma suppress_head (cs : list nat) (dx : Qc) : head (suppress cs dx) = head cs.
Proof.
  destruct (decide (1 < dx)%Qc) as [Hdx|Hdx];
    [|rewrite suppress_inactive; [done | apply Qcnot_lt_le; done]].
  rewrite suppress_active by done.
  destruct (final_flags_inv cs dx) as [HL HA _].
  destruct cs as [|c cs]; [done|].
  destruct (final_flags (c :: cs) dx) as [|f F] eqn:HF; [done|].
  destruct f; [|done].
  destruct (HA 0%nat) as (a & _ & Ha & _); [done | lia].
Qed.

(** an entry is dropped exactly when a kept stronger entry is within [dx] *)
Lemma suppress_greedy (cs : list nat) (dx : Qc) (k c : nat) :
  (1 < dx)%Qc → NoDup cs → cs !! k = Some c →
  c ∈ suppress cs dx ↔
  ∀ a s, (a < k)%nat → cs !! a = Some s → s ∈ suppress cs dx → within dx s c = false.
Proof.
  intros Hdx Hnd Hc. destruct (final_flags_inv cs dx) as [HL HA HB]. split.
  - intros Hin a s Hlt Hs Hsin. apply suppress_separated with (cs := cs); auto.
    intros ->. assert (a = k); [|lia]. eapply NoDup_lookup; done.
  - intros Hfree. apply suppress_elem; [done|]. exists k. split; [|done].
    destruct (lookup_lt_is_Some_2 (final_flags cs dx) k) as [[|] Hf]; [| |done].
    { rewrite HL. eapply lookup_lt_Some; done. }
    destruct (HA k Hf) as (a & _ & Hak & Hfa & Hn).
    destruct (lookup_lt_is_Some_2 cs a) as [s Hs].
    { rewrite <- HL. eapply lookup_lt_Some; done. }
    assert (within dx s c = false) as Hw.
    { apply (Hfree a s); auto. apply suppress_elem; [done|]. eauto. }
    unfold near in Hn. rewrite (at_n_lookup _ _ _ Hs), (at_n_lookup _ _ _ Hc) in Hn.
    congruence.
Qed.

Lemma ranked_candidates (y : list Qc) (t : option Qc) (c : nat) :
  c ∈ ranked y t → c ∈ candidates y.
Proof.
  unfold ranked. rewrite sort_by_height_perm. intros H.
  eapply elem_of_sublist; [exact H|]. apply apply_threshold_sublist.
Qed.

Lemma ranked_NoDup (y : list Qc) (t : option Qc) : NoDup (ranked y t).
Proof.
  unfold ranked. rewrite sort_by_height_perm.
  eapply sublist_NoDup; [apply candidates_NoDup | apply apply_threshold_sublist].
Qed.

(** C3.  The list returned by [search_maxima] is sorted by non-increasing
    profile value and holds no index twice; any two returned indices
    differ by more than [dx]; the strongest qualifying candidate heads
    the result although it lies within its own suppression radius, and
    with [dx > 1] a candidate is returned exactly when no returned
    stronger candidate lies within [dx] of it; with [dx <= 1] nothing is
    suppressed. *)
Theorem search_maxima_ordered_separated
    (y : list Qc) (threshold : option Qc) (dx : Qc) :
  let res := search_maxima y threshold dx in
  let cand := ranked y threshold in
  StronglySorted (higher y) res
  ∧ NoDup res
  ∧ (∀ a b, a ∈ res → b ∈ res → a ≠ b →
       (qn a + dx < qn b)%Qc ∨ (qn b + dx < qn a)%Qc)
  ∧ head res = head cand
  ∧ (∀ k c, (1 < dx)%Qc → cand !! k = Some c →
       (c ∈ res ↔
        ∀ a s, (a < k)%nat → cand !! a = Some s → s ∈ res → within dx s c = false))
  ∧ ((dx <= 1)%Qc → res = cand).
Proof.
  intros res cand.
  assert (res = suppress cand dx) as Hres by done.
  assert (res `sublist_of` cand) as Hsub by (rewrite Hres; apply suppress_sublist).
  split; [|split; [|split; [|split; [|split]]]].
  - eapply StronglySorted_sublist; [exact Hsub|]. apply sort_by_height_sorted.
  - eapply sublist_NoDup; [apply ranked_NoDup | exact Hsub].
  - intros a b Ha Hb Hne. destruct (decide (1 < dx)%Qc) as [Hdx|Hdx].
    + apply within_false. rewrite Hres in Ha, Hb.
      eapply suppress_separated; done.
    + apply Qcnot_lt_le in Hdx.
      assert (a ∈ candidates y) as Hca
        by (eapply ranked_candidates, elem_of_sublist; done).
      assert (b ∈ candidates y) as Hcb
        by (eapply ranked_candidates, elem_of_sublist; done).
      destruct (decide (a < b)%nat).
      * left. apply qn_gap; [done|]. eapply candidates_apart; done.
      * right. apply qn_gap; [done|]. eapply candidates_apart; [done..|lia].
  - rewrite Hres. apply suppress_head.
  - intros k c Hdx Hc. rewrite Hres. apply suppress_greedy; [done| |done].
    apply ranked_NoDup.
  - intros Hdx. rewrite Hres. apply suppress_inactive. done.
Qed.

Lemma search_maxima_ordered_separated_witness :
  let y := map qz [0; 1; 5; 1; 0; 2; 9; 2; 0; 3; 0]%Z in
  (qz 1 <= 1)%Qc ∧ search_maxima y (Some (qz 1)) (qz 1) = ranked y (Some (qz 1)).
Proof.
  intros y. split; [by vm_compute|].
  destruct (search_maxima_ordered_separated y (Some (qz 1)) (qz 1))
    as (_ & _ & _ & _ & _ & H).
  apply H. by vm_compute.
Defined.

(** C4 (amended).  The candidates of [search_maxima] are exactly the
    interior rows where the first difference goes from strictly positive
    to strictly negative; the first and the last row are never
    candidates, and neither is the falling end of a flat plateau. *)
Theorem candidates_strict_peaks (y : list Qc) (i : nat) :
  i ∈ candidates y ↔
  (0 < i)%nat ∧ (S i < length y)%nat ∧
  (0 < at_q y i - at_q y (i - 1))%Qc ∧ (at_q y (S i) - at_q y i < 0)%Qc.
Proof. rewrite candidates_spec, Qc_pos_diff, Qc_neg_diff. done. Qed.

Lemma candidates_strict_peaks_witness :
  2%nat ∈ candidates (map qz [0; 1; 5; 1; 0]%Z).
Proof.
  apply candidates_strict_peaks. simpl.
  split; [lia|]. split; [lia|]. split; by vm_compute.
Defined.

(** C4 as stated fails: on the profile [0, 1, 1, 0] row 2 ends a plateau
    (difference 0 before, -1 after) and is not a candidate. *)
Lemma plateau_end_not_candidate :
  ¬ (∀ (y : list Qc) (i : nat), i ∈ candidates y ↔ spec_candidate y i).
Proof.
  intros H. specialize (H (map qz [0; 1; 1; 0]%Z) 2%nat).
  assert (spec_candidate (map qz [0; 1; 1; 0]%Z) 2) as Hs.
  { unfold spec_candidate. simpl. split; [lia|]. split; [lia|].
    split; by vm_compute. }
  apply H in Hs. vm_compute in Hs. inversion Hs.
Qed.

Lemma search_maxima_empty (threshold : option Qc) (dx : Qc) :
  search_maxima [] threshold dx = [].
Proof.
  unfold search_maxima. replace (candidates []) with (@nil nat) by done.
  unfold apply_threshold. destruct threshold as [t|]; [destruct (truthy _)|]; done.
Qed.

Lemma search_maxima_all_excluded (y : list Qc) (t dx : Qc) :
  t ≠ 0%Qc → (∀ c, c ∈ candidates y → ¬ (t < at_q y c)%Qc) →
  search_maxima y (Some t) dx = [].
Proof.
  intros Ht Hex. unfold search_maxima, apply_threshold, truthy.
  rewrite bool_decide_eq_false_2 by done. simpl.
  rewrite <- list_fmap_compose, select_map.
  replace (filter _ (candidates y)) with (@nil nat); [done|].
  symmetry. induction (candidates y) as [|c cs IH]; [done|].
  rewrite filter_cons, decide_False.
  - apply IH. intros c' Hc'. apply Hex. by right.
  - simpl. rewrite bool_decide_eq_false_2; [done|]. apply Hex. by left.
Qed.

(** C5.  An empty profile gives an empty list, and so does a non-zero
    threshold that no candidate exceeds (the two lemmas above).  A
    threshold of [0.0] is dropped by the truth test [if threshold:]: on
    the profile [-3, -1, -3] the only candidate is row 1, its value -1
    does not exceed the threshold 0, and [search_maxima] returns it. *)
Theorem search_maxima_zero_threshold_ignored :
  let y := map qz [-3; -1; -3]%Z in
  candidates y = [1%nat]
  ∧ bool_decide (0 < at_q y 1)%Qc = false
  ∧ search_maxima y (Some 0%Qc) 0%Qc = [1%nat].
Proof. by vm_compute. Qed.

End PeakSearchTheorems.

(** ** Sub-pixel refinement *)

Section RefineTheorems.
Import Refine.

Lemma py_index_nat (col : list Qc) (k : nat) :
  (k < length col)%nat → py_index col (Z.of_nat k) = Ok (at_q col k).
Proof.
  intros Hk. unfold py_index, at_q.
  destruct (Z.ltb_spec (Z.of_nat k) 0) as [?|_]; [lia|].
  destruct (Z.ltb_spec (Z.of_nat k) 0) as [?|_]; [lia|].
  rewrite Nat2Z.id. destruct (lookup_lt_is_Some_2 col k Hk) as [v ->]. done.
Qed.

Lemma refine_interior (col : list Qc) (j : nat) :
  (0 < j)%nat → (S j < length col)%nat →
  refine col j =
    Ok (y_max j (at_q col (j - 1)) (at_q col j) (at_q col (S j)),
        f_peak (at_q col (j - 1)) (at_q col j) (at_q col (S j))).
Proof.
  intros H0 H1. unfold refine.
  rewrite py_index_nat by lia. simpl.
  replace (Z.of_nat j - 1)%Z with (Z.of_nat (j - 1)) by lia.
  rewrite py_index_nat by lia. simpl.
  replace (Z.of_nat j + 1)%Z with (Z.of_nat (S j)) by lia.
  rewrite py_index_nat by lia. done.
Qed.





(** C6 as stated fails: on the profile [-(x-5)^2] the true peak value is
    0 and the refinement of row 5 returns [f* = 1/12]. *)


End RefineTheorems.

(** ** Disambiguation by stellar position *)

Lemma head_select_find {A} (f : A → bool) (l : list A) :
  head (select (map f l) l) = List.find f l.
Proof. induction l as [|x l IH]; simpl; [done|]. destruct (f x); done. Qed.

Lemma select_case {A} (f : A → bool) (l : list A) :
  match select (map f l) l with
  | r :: _ => List.find f l = Some r
  | [] => List.find f l = None
  end.
Proof. rewrite <- head_select_find. destruct (select _ _); done. Qed.

Lemma above_skip (ys : Qc) (s0 s1 : nat) (rest : list nat) :
  (qn s0 < ys)%Qc → (qn s1 < ys)%Qc →
  above ys (s0 :: s1 :: rest) = above ys rest.
Proof.
  intros H0 H1. unfold above. simpl.
  rewrite !bool_decide_eq_false_2; [done|..]; apply Qcle_not_lt, Qclt_le_weak; done.
Qed.

Lemma below_skip (ys : Qc) (s0 s1 : nat) (rest : list nat) :
  (ys < qn s0)%Qc → (ys < qn s1)%Qc →
  below ys (s0 :: s1 :: rest) = below ys rest.
Proof.
  intros H0 H1. unfold below. simpl.
  rewrite !bool_decide_eq_false_2; [done|..]; apply Qcle_not_lt, Qclt_le_weak; done.
Qed.

Lemma select_pair_script_refines (ys : Qc) (j_max : list nat) :
  select_pair_script ys j_max = spec_disambiguate ys j_max.
Proof.
  destruct j_max as [|s0 [|s1 rest]]; [done..|].
  unfold select_pair_script, spec_disambiguate. f_equal.
  destruct (bool_decide (qn s0 < ys)%Qc) eqn:B0;
  destruct (bool_decide (qn s1 < ys)%Qc) eqn:B1; simpl.
  - apply bool_decide_eq_true in B0, B1. rewrite above_skip by done.
    pose proof (select_case (λ c, bool_decide (ys < qn c)%Qc) rest) as H.
    unfold above. destruct (select _ rest); rewrite H; done.
  - destruct (bool_decide (ys < qn s0)%Qc) eqn:A0; [|done].
    apply bool_decide_eq_true in B0, A0.
    exfalso. apply (Qclt_not_le _ _ B0), Qclt_le_weak. done.
  - destruct (bool_decide (ys < qn s0)%Qc) eqn:A0;
    destruct (bool_decide (ys < qn s1)%Qc) eqn:A1; simpl; try done.
    apply bool_decide_eq_true in B1, A1.
    exfalso. apply (Qclt_not_le _ _ B1), Qclt_le_weak. done.
  - destruct (bool_decide (ys < qn s0)%Qc) eqn:A0;
    destruct (bool_decide (ys < qn s1)%Qc) eqn:A1; simpl; try done.
    apply bool_decide_eq_true in A0, A1. rewrite below_skip by done.
    pose proof (select_case (λ c, bool_decide (qn c < ys)%Qc) rest) as H.
    unfold below. destruct (select _ rest); rewrite H; done.
Qed.

Lemma sort2_cases (a b : nat) :
  (sort2 (a, b) = (a, b) ∧ (a ≤ b)%nat) ∨ (sort2 (a, b) = (b, a) ∧ (b < a)%nat).
Proof.
  unfold sort2. simpl. case_bool_decide; [right | left]; split; auto; lia.
Qed.

Lemma mean_above (ys : Qc) (a b : nat) :
  (ys < qn a)%Qc → (ys < qn b)%Qc → ¬ (pair_mean (a, b) < ys)%Qc.
Proof.
  unfold pair_mean. simpl. generalize (qn a) (qn b). intros u v. qc_lra.
Qed.

Lemma select_pair_class_above (ys : Qc) (s0 s1 : nat) (rest : list nat) :
  (ys < qn s0)%Qc → (ys < qn s1)%Qc →
  select_pair_class (Some ys) (s0 :: s1 :: rest) = Some (true, sort2 (s0, s1)).
Proof.
  intros H0 H1. unfold select_pair_class. f_equal.
  assert (¬ (qn (sort2 (s0, s1)).2 < ys)%Qc ∧ ¬ (pair_mean (sort2 (s0, s1)) < ys)%Qc)
    as [Hhi Hmean].
  { destruct (sort2_cases s0 s1) as [[-> _]|[-> _]]; simpl; split;
      try (apply Qcle_not_lt, Qclt_le_weak; done); apply mean_above; done. }
  rewrite (bool_decide_eq_false_2 _ Hhi).
  unfold pair_mean in Hmean. rewrite (bool_decide_eq_false_2 _ Hmean). done.
Qed.

Lemma select_pair_class_below (ys : Qc) (s0 s1 : nat) (rest : list nat) :
  (qn s0 < ys)%Qc → (qn s1 < ys)%Qc →
  select_pair_class (Some ys) (s0 :: s1 :: rest) =
    Some match List.find (fun c => bool_decide (ys < qn c)%Qc) rest with
         | Some r => (negb (bool_decide (pair_mean (s0, r) < ys)%Qc), (s0, r))
         | None => (false, sort2 (s0, s1))
         end.
Proof.
  intros H0 H1. unfold select_pair_class. f_equal.
  assert (qn (sort2 (s0, s1)).2 < ys)%Qc as Hhi
    by (destruct (sort2_cases s0 s1) as [[-> _]|[-> _]]; done).
  rewrite (bool_decide_eq_true_2 _ Hhi), above_skip by done.
  pose proof (select_case (λ c, bool_decide (ys < qn c)%Qc) rest) as H.
  unfold above. destruct (select _ rest); rewrite H; unfold pair_mean; cbn [fst snd].
  - destruct (bool_decide _); done.
  - destruct (bool_decide _); done.
Qed.

Lemma select_pair_class_midpoint (ys : Qc) (j_max : list nat) (pr : nat * nat) :
  select_pair_class (Some ys) j_max = Some (true, pr) → ¬ (pair_mean pr < ys)%Qc.
Proof.
  destruct j_max as [|s0 [|s1 rest]]; [done..|].
  unfold select_pair_class. intros [= H]. revert H.
  destruct (if bool_decide _ then _ else _) as [ins pr'].
  unfold pair_mean. case_bool_decide as Hm; intros H; inversion H; subst; done.
Qed.

(** A pair of [Surface._detect_surface] that does not lie below the star
    (it holds the star between its rows, touches it or lies above it) is
    the sorted pair of the two strongest maxima: no other candidate is
    looked for, and the column is kept exactly when the midpoint of the
    pair is not below the star. *)
Lemma select_pair_class_not_below (ys : Qc) (s0 s1 : nat) (rest : list nat) :
  ¬ ((qn s0 < ys)%Qc ∧ (qn s1 < ys)%Qc) →
  select_pair_class (Some ys) (s0 :: s1 :: rest)
  = Some (negb (bool_decide (pair_mean (sort2 (s0, s1)) < ys)%Qc), sort2 (s0, s1)).
Proof.
  intros H. unfold select_pair_class. f_equal.
  assert (¬ (qn (sort2 (s0, s1)).2 < ys)%Qc) as Hhi.
  { intros Hlt. apply H.
    destruct (sort2_cases s0 s1) as [[Hs Hle]|[Hs Hle]]; rewrite Hs in Hlt;
      cbn [snd] in Hlt; split; try done.
    - apply (Qcle_lt_trans _ (qn s1)); [apply qn_le; done | done].
    - apply (Qcle_lt_trans _ (qn s0)); [apply qn_le; lia | done]. }
  rewrite (bool_decide_eq_false_2 _ Hhi). unfold pair_mean.
  destruct (bool_decide _); done.
Qed.

(** C9 (amended).  With [star_row] supplied, [detect_surface] of
    src/measure_height.py follows the rule as specified: two strongest
    peaks on one side of the star make it look for the strongest
    candidate on the other side, which replaces a member of the pair,
    and the column is discarded when there is none; a pair that does
    not lie on one side is sorted.  [Surface._detect_surface] sorts the
    pair first and searches a replacement only for a pair below the
    star (keeping the strongest candidate and the replacement); a pair
    above the star is kept as it is; every pair that does not lie below
    the star, so also one that holds the star between its rows or
    touches it, is the sorted pair, without a search for a replacement;
    and a column is kept exactly when the midpoint of its pair does not
    lie below the star. *)
Theorem star_disambiguation (ys : Qc) (s0 s1 : nat) (rest : list nat) :
  let j_max := s0 :: s1 :: rest in
  select_pair_script ys j_max = spec_disambiguate ys j_max
  ∧ ((ys < qn s0)%Qc → (ys < qn s1)%Qc →
     select_pair_class (Some ys) j_max = Some (true, sort2 (s0, s1)))
  ∧ (¬ ((qn s0 < ys)%Qc ∧ (qn s1 < ys)%Qc) →
     select_pair_class (Some ys) j_max
     = Some (negb (bool_decide (pair_mean (sort2 (s0, s1)) < ys)%Qc), sort2 (s0, s1)))
  ∧ ((qn s0 < ys)%Qc → (qn s1 < ys)%Qc →
     select_pair_class (Some ys) j_max =
       Some match List.find (fun c => bool_decide (ys < qn c)%Qc) rest with
            | Some r => (negb (bool_decide (pair_mean (s0, r) < ys)%Qc), (s0, r))
            | None => (false, sort2 (s0, s1))
            end)
  ∧ (∀ pr, select_pair_class (Some ys) j_max = Some (true, pr) →
           ¬ (pair_mean pr < ys)%Qc).
Proof.
  intros j_max. split; [apply select_pair_script_refines|].
  split; [apply select_pair_class_above|].
  split; [apply select_pair_class_not_below|].
  split; [apply select_pair_class_below|].
  intros pr. apply select_pair_class_midpoint.
Qed.

Lemma star_disambiguation_witness :
  select_pair_class (Some (qz 8)) [16; 12]%nat = Some (true, (12, 16)%nat)
  ∧ select_pair_class (Some (qz 8)) [12; 4; 2]%nat = Some (true, (4, 12)%nat)
  ∧ select_pair_class (Some (qz 8)) [10; 4; 14]%nat = Some (false, (4, 10)%nat).
Proof.
  split; [|split].
  - apply (proj1 (proj2 (star_disambiguation (qz 8) 16 12 []))); by vm_compute.
  - apply (proj1 (proj2 (proj2 (star_disambiguation (qz 8) 12 4 [2%nat])))).
    vm_compute. intros [H _]. discriminate H.
  - apply (proj1 (proj2 (proj2 (star_disambiguation (qz 8) 10 4 [14%nat])))).
    vm_compute. intros [H _]. discriminate H.
Defined.

(** C9 as stated fails for [Surface._detect_surface]: with the star at
    row 8 and the only candidates at rows 16 and 12, both above the
    star with nothing below, the column stays in the surface. *)
Lemma class_keeps_pair_above_star :
  ¬ (∀ (ys : Qc) (j_max : list nat),
       fst <$> select_pair_class (Some ys) j_max = fst <$> spec_disambiguate ys j_max).
Proof.
  intros H. specialize (H (qz 8) [16; 12]%nat). vm_compute in H. discriminate H.
Qed.

(** ** Every refined row is a strict local maximum *)

Section ScanFacts.
Import PeakSearch Refine.
Variable Jybeam_to_Tb : num → num.

Lemma a2_negative (f_minus f_max f_plus : Qc) :
  (f_minus < f_max)%Qc → (f_plus < f_max)%Qc → (a2 f_minus f_max f_plus < 0)%Qc.
Proof. unfold a2. qc_lra. Qed.

Lemma refine_candidate (col : list Qc) (j : nat) :
  j ∈ candidates col →
  (a2 (at_q col (j - 1)) (at_q col j) (at_q col (S j)) < 0)%Qc
  ∧ ∃ yv fv, refine col j = Ok (Fin yv, Fin fv).
Proof.
  intros (H0 & H1 & Hm & Hp)%candidates_spec.
  pose proof (a2_negative _ _ _ Hm Hp) as Ha. split; [done|].
  rewrite refine_interior by done. unfold y_max, f_peak. cbn [ndiv].
  rewrite bool_decide_eq_false_2; [cbn [nsub nadd nneg]; eauto|].
  intros E. rewrite E in Ha. revert Ha. by vm_compute.
Qed.

Lemma search_maxima_candidates (col : list Qc) (t : option Qc) (dx : Qc) (c : nat) :
  c ∈ search_maxima col t dx → c ∈ candidates col.
Proof.
  intros H. apply (ranked_candidates col t).
  eapply elem_of_sublist; [exact H | apply suppress_sublist].
Qed.

Lemma above_elem (ys : Qc) (l : list nat) (r : nat) (l' : list nat) :
  above ys l = r :: l' → r ∈ l.
Proof.
  intros H. eapply elem_of_sublist; [|apply select_sublist].
  unfold above in H. rewrite H. by left.
Qed.

Lemma below_elem (ys : Qc) (l : list nat) (r : nat) (l' : list nat) :
  below ys l = r :: l' → r ∈ l.
Proof.
  intros H. eapply elem_of_sublist; [|apply select_sublist].
  unfold below in H. rewrite H. by left.
Qed.

Lemma sort2_members (a b : nat) (l : list nat) :
  a ∈ l → b ∈ l → (sort2 (a, b)).1 ∈ l ∧ (sort2 (a, b)).2 ∈ l.
Proof. intros. destruct (sort2_cases a b) as [[-> _]|[-> _]]; done. Qed.

Lemma select_pair_script_members (ys : Qc) (j_max : list nat) sel :
  select_pair_script ys j_max = Some sel → sel.2.1 ∈ j_max ∧ sel.2.2 ∈ j_max.
Proof.
  destruct j_max as [|s0 [|s1 rest]]; [done..|].
  assert (s0 ∈ s0 :: s1 :: rest) as I0 by (by left).
  assert (s1 ∈ s0 :: s1 :: rest) as I1 by (right; by left).
  unfold select_pair_script. intros [= <-].
  destruct (_ && _).
  { destruct (above _ _) eqn:E; simpl; [done|]. split; [done|]. eapply above_elem; done. }
  destruct (_ && _).
  { destruct (below _ _) eqn:E; simpl; [done|]. split; [|done]. eapply below_elem; done. }
  simpl. apply sort2_members; done.
Qed.

Lemma select_pair_class_members (ys : option Qc) (j_max : list nat) sel :
  select_pair_class ys j_max = Some sel → sel.2.1 ∈ j_max ∧ sel.2.2 ∈ j_max.
Proof.
  destruct j_max as [|s0 [|s1 rest]]; [done..|].
  assert (s0 ∈ s0 :: s1 :: rest) as I0 by (by left).
  assert (s1 ∈ s0 :: s1 :: rest) as I1 by (right; by left).
  pose proof (sort2_members s0 s1 _ I0 I1) as Hs.
  unfold select_pair_class. intros [= <-]. destruct ys as [ys|]; [|done].
  destruct (bool_decide (qn _ < ys)%Qc).
  - destruct (above _ _) eqn:E; cbv beta iota.
    + destruct (bool_decide _); done.
    + assert (n ∈ s0 :: s1 :: rest) by (eapply above_elem; done).
      destruct (bool_decide _); done.
  - destruct (bool_decide _); done.
Qed.

Lemma refine_pair_finite (store : num → num) (col : list Qc) sel :
  sel.2.1 ∈ candidates col → sel.2.2 ∈ candidates col →
  ∃ y0 y1 f0 f1,
    refine_pair store col sel =
      Ok (Column sel.1 sel.2 (Fin y0, Fin y1) (store (Fin f0), store (Fin f1))).
Proof.
  intros (_ & y0 & f0 & E0)%refine_candidate (_ & y1 & f1 & E1)%refine_candidate.
  exists y0, y1, f0, f1. unfold refine_pair. rewrite E0. simpl. rewrite E1. done.
Qed.

End ScanFacts.

(** ** Deprojection: what an unmasked point looks like *)

Section NumFacts.

Lemma scale_inf_not_fin (x : Qc) (s : bool) (q : Qc) : scale_inf x s ≠ Fin q.
Proof. unfold scale_inf, inf_of. repeat case_bool_decide; destruct s; done. Qed.

Lemma nadd_fin (a b : num) (q : Qc) :
  (a + b)%num = Fin q → ∃ x y, a = Fin x ∧ b = Fin y ∧ q = (x + y)%Qc.
Proof. destruct a, b; simpl; intros [= <-] || done; eauto. Qed.

Lemma nneg_fin (a : num) (q : Qc) : (- a)%num = Fin q → ∃ x, a = Fin x ∧ q = (- x)%Qc.
Proof. destruct a; simpl; intros [= <-] || done; eauto. Qed.

Lemma nsub_fin (a b : num) (q : Qc) :
  (a - b)%num = Fin q → ∃ x y, a = Fin x ∧ b = Fin y ∧ q = (x - y)%Qc.
Proof.
  unfold nsub. intros (x & y' & -> & (y & -> & ->)%nneg_fin & ->)%nadd_fin. eauto.
Qed.

Lemma nmul_fin (a b : num) (q : Qc) :
  (a * b)%num = Fin q → ∃ x y, a = Fin x ∧ b = Fin y ∧ q = (x * y)%Qc.
Proof.
  destruct a as [x| | |], b as [y| | |]; simpl; try done;
    try (intros Hs; exfalso; exact (scale_inf_not_fin _ _ _ Hs)).
  intros [= <-]. eauto.
Qed.

Lemma ndiv_fin (a : num) (y q : Qc) :
  (a / Fin y)%num = Fin q → ∃ x, a = Fin x ∧ y ≠ 0%Qc ∧ q = (x / y)%Qc.
Proof.
  destruct a; simpl; try done.
  - case_bool_decide; [intros Hs; exfalso; exact (scale_inf_not_fin _ _ _ Hs)|].
    intros [= <-]. eauto.
  - unfold inf_of. case_bool_decide; done.
  - unfold inf_of. case_bool_decide; done.
Qed.

Lemma finite_cases (a : num) : isinf a = false → isnan a = false → ∃ q, a = Fin q.
Proof. destruct a; simpl; try done. eauto. Qed.

Lemma nlt_zero_false (q : Qc) : (Fin q <? Fin 0%Qc)%num = false → (0 <= q)%Qc.
Proof. simpl. intros H%bool_decide_eq_false. apply Qcnot_lt_le. done. Qed.

Lemma nsqrt_fin (E : externals) (a : num) (q : Qc) :
  nsqrt E a = Fin q → ∃ x, a = Fin x.
Proof. destruct a; simpl; try done. eauto. Qed.

Lemma nhypot_fin (E : externals) (a b : num) (q : Qc) :
  nhypot E a b = Fin q → ∃ x y, a = Fin x ∧ b = Fin y.
Proof.
  unfold nhypot. destruct (isinf a || isinf b); [done|].
  destruct a as [x| | |], b as [y| | |]; try done. eauto.
Qed.

Lemma Qc_mult_nonzero (a b : Qc) : (a * b)%Qc ≠ 0%Qc → a ≠ 0%Qc ∧ b ≠ 0%Qc.
Proof. intros H. split; intros ->; apply H; ring. Qed.

End NumFacts.

Section ScriptFacts.
Variables (E : externals) (g : geometry) (distance : option Qc).

Lemma to_length_fin (q : Qc) : ∃ q', Script.to_length g distance (Fin q) = Fin q'.
Proof. unfold Script.to_length. destruct distance; simpl; eauto. Qed.

Lemma script_unmasked (flip : bool) (p : point) :
  Script.mask2 E g distance flip p = false →
  ∃ a b hq vq rq,
    p.(p_y) = (Fin a, Fin b)
    ∧ Script.h_of g distance flip p = Fin hq ∧ (0 <= hq)%Qc
    ∧ Script.v_of E g flip p = Fin vq
    ∧ Script.r_of E g distance flip p = Fin rq ∧ (rq <= qz 400)%Qc
    ∧ p.(p_x) ≠ g.(x_star) ∧ g.(sin_i) ≠ 0%Qc
    ∧ near_systemic g (qfrac 4 10) p = false.
Proof.
  unfold Script.mask2, Script.mask1. rewrite !orb_false_iff.
  intros ((((Hh & Hinf) & Hnan) & Hr) & Hsys).
  destruct (finite_cases _ Hinf Hnan) as [vq Hv].
  pose proof Hv as Hv'. unfold Script.v_of, velocity_of in Hv'.
  apply ndiv_fin in Hv' as (x & Hx & Hden & _).
  apply nmul_fin in Hx as (dv & r & _ & Hrpx & _).
  apply Qc_mult_nonzero in Hden as [Hxs Hsin].
  pose proof Hrpx as Hr'. unfold Script.r_px in Hr'.
  apply nsqrt_fin in Hr' as (s & Hs).
  apply nadd_fin in Hs as (_ & s2 & _ & Hs2 & _).
  apply nmul_fin in Hs2 as (e & _ & He & _ & _).
  apply ndiv_fin in He as (dy & Hdy & Hcos & _).
  assert (∃ a b, p_y p = (Fin a, Fin b)) as (a & b & Hy).
  { destruct (p_y p) as [ya yb] eqn:Ey. unfold Script.y_c in Hdy. rewrite Ey in Hdy.
    simpl in Hdy. destruct flip.
    - apply nsub_fin in Hdy as (yc & a & Hyc & -> & _).
      apply ndiv_fin in Hyc as (sm & Hsm & _ & _).
      apply nadd_fin in Hsm as (b & a' & -> & _ & _). eauto.
    - apply nsub_fin in Hdy as (b & yc & -> & Hyc & _).
      apply ndiv_fin in Hyc as (sm & Hsm & _ & _).
      apply nadd_fin in Hsm as (b' & a & _ & -> & _). eauto. }
  assert (∃ hp, Script.h_px g flip p = Fin hp) as (hp & Hhp).
  { unfold Script.h_px, Script.h_raw, Script.y_c. rewrite Hy. simpl.
    rewrite (bool_decide_eq_false_2 (g.(sin_i) = 0%Qc)) by done.
    destruct flip; simpl; eauto. }
  destruct (to_length_fin hp) as (hq & Hhq).
  destruct (to_length_fin r) as (rq & Hrq).
  exists a, b, hq, vq, rq.
  unfold Script.h_of, Script.r_of in *. rewrite Hhp, Hhq in *. rewrite Hrpx, Hrq in *.
  repeat split; try done.
  - apply nlt_zero_false. done.
  - unfold ngt in Hr. simpl in Hr. apply bool_decide_eq_false in Hr.
    apply Qcnot_lt_le. done.
  - intros Hx0. apply Hxs. rewrite Hx0. ring.
Qed.

End ScriptFacts.


Section ClassFacts.
Variables (E : externals) (g : geometry).

Lemma class_unmasked (p : point) :
  Class.mask_of E g p = false →
  ∃ a b hq vq rq,
    p.(p_y) = (Fin a, Fin b)
    ∧ Class.h_of g p = Fin hq ∧ (0 <= hq)%Qc
    ∧ Class.v_of E g p = Fin vq
    ∧ Class.r_of E g p = Fin rq
    ∧ p.(p_x) ≠ g.(x_star) ∧ g.(sin_i) ≠ 0%Qc
    ∧ near_systemic g (qfrac 3 2) p = false.
Proof.
  unfold Class.mask_of. rewrite !orb_false_iff.
  intros (((Hh & Hinf) & Hnan) & Hsys).
  destruct (finite_cases _ Hinf Hnan) as [vq Hv].
  pose proof Hv as Hv'. unfold Class.v_of, velocity_of in Hv'.
  apply ndiv_fin in Hv' as (x & Hx & Hden & _).
  apply nmul_fin in Hx as (dv & r & _ & Hrpx & _).
  apply Qc_mult_nonzero in Hden as [Hxs Hsin].
  pose proof Hrpx as Hr'. unfold Class.r_px in Hr'.
  apply nhypot_fin in Hr' as (_ & yo & _ & Hyo).
  unfold Class.y_of in Hyo.
  apply ndiv_fin in Hyo as (dy & Hdy & Hcos & _).
  apply nsub_fin in Hdy as (yf & yc & Hyf & Hyc & _).
  pose proof Hyc as Hyc'. unfold Class.y_c in Hyc'.
  apply nmul_fin in Hyc' as (_ & sm & _ & Hsm & _).
  apply nadd_fin in Hsm as (_ & yn & _ & Hyn & _).
  unfold Class.y_f in Hyf. apply nsub_fin in Hyf as (b & _ & Hb & _ & _).
  unfold Class.y_n in Hyn. apply nsub_fin in Hyn as (a & _ & Ha & _ & _).
  assert (∃ hq, Class.h_of g p = Fin hq) as (hq & Hhq).
  { unfold Class.h_of, Class.h_px. rewrite Hyc. simpl.
    rewrite (bool_decide_eq_false_2 (g.(sin_i) = 0%Qc)) by done. simpl. eauto. }
  exists a, b, hq, vq, (r * g.(pixelscale))%Qc.
  split; [destruct (p_y p); simpl in *; congruence|].
  split; [done|]. split; [rewrite Hhq in Hh; apply nlt_zero_false; done|].
  split; [done|]. split; [unfold Class.r_of; rewrite Hrpx; done|].
  split; [|done]. intros Hx0. apply Hxs. rewrite Hx0. ring.
Qed.

End ClassFacts.

(** ** Deprojection: the returned sequences *)

Section ScriptStructure.
Variables (E : externals) (g : geometry) (d : option Qc) (pts : list point).

Local Abbreviation flip := (Script.flipped g pts).
Local Abbreviation ret := (script_returned E g d pts).

Lemma measure_mol_surface_points :
  Script.measure_mol_surface E g pts d =
    (map (Script.r_of E g d flip) ret,
     map (Script.h_of g d flip) ret,
     map (script_v_out E g d pts) ret,
     map (fun p => E.(Jybeam_to_Tb) (Script.B_of p)) ret).
Proof.
  unfold Script.measure_mol_surface. cbv zeta.
  rewrite !compressed_map. fold (script_kept E g d pts).
  fold (script_negated E g d pts).
  assert ((if script_negated E g d pts
           then map nneg (map (Script.v_of E g flip) (script_kept E g d pts))
           else map (Script.v_of E g flip) (script_kept E g d pts))
          = map (script_v_out E g d pts) (script_kept E g d pts)) as ->.
  { unfold script_v_out. destruct (script_negated E g d pts); [|done].
    rewrite <- list_fmap_compose. done. }
  rewrite <- (list_fmap_compose (script_v_out E g d pts)).
  rewrite !compressed_map. fold ret.
  rewrite <- list_fmap_compose. done.
Qed.

Lemma script_returned_kept (p : point) :
  p ∈ ret → Script.mask2 E g d flip p = false
            ∧ (script_v_out E g d pts p <? Fin 0%Qc)%num = false.
Proof.
  unfold script_returned, script_kept. rewrite !list_elem_of_filter. tauto.
Qed.

Lemma script_returned_sublist : ret `sublist_of` pts.
Proof.
  unfold script_returned, script_kept.
  etransitivity; apply sublist_filter.
Qed.

Lemma script_returned_iff (p : point) :
  p ∈ ret ↔ p ∈ pts ∧ Script.mask2 E g d flip p = false
            ∧ (script_v_out E g d pts p <? Fin 0%Qc)%num = false.
Proof.
  unfold script_returned, script_kept. rewrite !list_elem_of_filter. tauto.
Qed.

End ScriptStructure.

Section DeprojectorTheorems.
Variables (E : externals) (g : geometry).

Lemma compute_surface_arrays (pts : list point) :
  Class._compute_surface E g pts =
    Class.Surface (map (Class.x_of g) pts) (map (Class.y_of g) pts)
      (MArray (map (Class.r_of E g) pts) (map (Class.mask_of E g) pts))
      (MArray (map (Class.h_of g) pts) (map (Class.mask_of E g) pts))
      (MArray (map (class_v_out E g pts) pts) (map (Class.mask_of E g) pts)).
Proof.
  unfold Class._compute_surface. cbv zeta. f_equal.
  unfold class_v_out, class_negated.
  destruct (ma_mean _) as [m|]; [destruct (m <? Fin 0%Qc)%num|];
    unfold ma_neg; simpl; f_equal; rewrite <- ?list_fmap_compose; done.
Qed.

(** C1 (amended).  The four sequences returned by [measure_mol_surface]
    are parallel, with one entry for each input point that passes the
    masks and no entry for any other point; every returned tuple has
    [h >= 0], a finite [v], and a channel outside the systemic-velocity
    window.  [_compute_surface] keeps every point in place in the masked
    arrays [r], [h], [v] and flags the invalid ones in the mask; every
    unmasked entry has [h >= 0], a finite [v], and a channel outside the
    window. *)
Theorem returned_points_valid (d : option Qc) (pts : list point) :
  let flip := Script.flipped g pts in
  let ret := script_returned E g d pts in
  let s := Class._compute_surface E g pts in
  Script.measure_mol_surface E g pts d =
    (map (Script.r_of E g d flip) ret, map (Script.h_of g d flip) ret,
     map (script_v_out E g d pts) ret,
     map (fun p => E.(Jybeam_to_Tb) (Script.B_of p)) ret)
  ∧ (∀ p, p ∈ ret ↔
          p ∈ pts ∧ Script.mask2 E g d flip p = false
          ∧ (script_v_out E g d pts p <? Fin 0%Qc)%num = false)
  ∧ (∀ p, p ∈ ret →
          ∃ hq vq, Script.h_of g d flip p = Fin hq ∧ (0 <= hq)%Qc
                   ∧ script_v_out E g d pts p = Fin vq
                   ∧ near_systemic g (qfrac 4 10) p = false)
  ∧ s.(Class.s_r) = MArray (map (Class.r_of E g) pts) (map (Class.mask_of E g) pts)
  ∧ s.(Class.s_h) = MArray (map (Class.h_of g) pts) (map (Class.mask_of E g) pts)
  ∧ s.(Class.s_v) = MArray (map (class_v_out E g pts) pts) (map (Class.mask_of E g) pts)
  ∧ (∀ p, p ∈ pts → Class.mask_of E g p = false →
          ∃ hq vq, Class.h_of g p = Fin hq ∧ (0 <= hq)%Qc
                   ∧ class_v_out E g pts p = Fin vq
                   ∧ near_systemic g (qfrac 3 2) p = false).
Proof.
  intros flip ret s.
  split; [apply measure_mol_surface_points|].
  split; [apply script_returned_iff|].
  split.
  { intros p (Hm & Hv)%script_returned_kept.
    destruct (script_unmasked E g d _ p Hm)
      as (a & b & hq & vq & rq & _ & Hh & Hh0 & Hvq & _ & _ & _ & _ & Hsys).
    exists hq. unfold script_v_out in *. rewrite Hvq in *.
    destruct (script_negated E g d pts); simpl; eauto 10. }
  subst s. rewrite compute_surface_arrays. simpl.
  split; [done|]. split; [done|]. split; [done|].
  intros p _ Hm.
  destruct (class_unmasked E g p Hm)
    as (a & b & hq & vq & rq & _ & Hh & Hh0 & Hvq & _ & _ & _ & Hsys).
  exists hq. unfold class_v_out. rewrite Hvq.
  destruct (class_negated E g pts); simpl; eauto 10.
Qed.

End DeprojectorTheorems.

Lemma returned_points_valid_witness :
  ∃ hq vq,
    Class.h_of example_geometry point_above_star = Fin hq ∧ (0 <= hq)%Qc
    ∧ class_v_out example_externals example_geometry [point_above_star]
        point_above_star = Fin vq
    ∧ near_systemic example_geometry (qfrac 3 2) point_above_star = false.
Proof.
  apply (returned_points_valid example_externals example_geometry None
           [point_above_star]).
  - by left.
  - by vm_compute.
Defined.

(** C1 as stated fails for [_compute_surface]: a point below the star
    ([h < 0]) stays in the array [h], flagged by the mask. *)
Lemma class_keeps_masked_points :
  ¬ (∀ (E : externals) (g : geometry) (pts : list point),
       Forall (fun h => (h <? Fin 0%Qc)%num = false)
              (ma_data (Class.s_h (Class._compute_surface E g pts)))).
Proof.
  intros H.
  specialize (H example_externals example_geometry [point_below_star]).
  apply Forall_inv in H. vm_compute in H. discriminate H.
Qed.

(** ** Deprojection: the sign of the velocities *)

Section MeanFacts.

Lemma nsum_fin (qs : list Qc) : nsum (map Fin qs) = Fin (qsum qs).
Proof.
  induction qs as [|q qs IH]; [done|].
  change (nsum (map Fin (q :: qs))) with (Fin q + nsum (map Fin qs))%num.
  rewrite IH. done.
Qed.

Lemma qsum_nonneg (qs : list Qc) : Forall (fun q => (0 <= q)%Qc) qs → (0 <= qsum qs)%Qc.
Proof.
  induction 1 as [|q qs Hq _ IH]; simpl; [by vm_compute|].
  revert Hq IH. generalize (qsum qs). intros s. qc_lra.
Qed.

Lemma qsum_opp (qs : list Qc) : qsum (map Qcopp qs) = (- qsum qs)%Qc.
Proof. induction qs as [|q qs IH]; simpl; [by apply Qc_is_canon|]. rewrite IH. ring. Qed.

Lemma qn_pos (n : nat) : (0 < n)%nat → (0 < qn n)%Qc.
Proof.
  intros H. unfold qn, Qc_of_Z, Qclt. cbn [this].
  change (this 0%Qc) with (inject_Z 0). rewrite <- Zlt_Qlt. lia.
Qed.

Lemma Qc_div_sign (s n : Qc) :
  (0 < n)%Qc →
  ((0 <= s)%Qc → (0 <= s / n)%Qc)
  ∧ ((s / n < 0)%Qc → (0 <= - s / n)%Qc)
  ∧ (¬ (s / n < 0)%Qc → (0 <= s / n)%Qc).
Proof.
  intros Hn. assert (n ≠ 0%Qc) as Hn0 by (intros ->; revert Hn; by vm_compute).
  assert (0 < / n)%Qc as Hi.
  { change (0 < Qred (/ this n))%Q. rewrite Qred_correct.
    apply Qinv_lt_0_compat. exact Hn. }
  unfold Qcdiv. revert Hi. generalize (/ n)%Qc. intros i Hi.
  split; [|split].
  - intros Hs. change (0 <= Qred (this s * this i))%Q.
    rewrite Qred_correct. apply Qmult_le_0_compat; [exact Hs|].
    apply Qlt_le_weak. exact Hi.
  - intros H. replace (- s * i)%Qc with (- (s * i))%Qc by ring.
    revert H. generalize (s * i)%Qc. intros t. qc_lra.
  - intros H. apply Qcnot_lt_le. done.
Qed.

Lemma nmean_fin (qs : list Qc) :
  qs ≠ [] → nmean (map Fin qs) = Fin (qsum qs / qn (length qs))%Qc.
Proof.
  intros Hne. unfold nmean. rewrite nsum_fin, length_map. simpl.
  rewrite bool_decide_eq_false_2; [done|].
  intros H0. assert (0 < qn (length qs))%Qc as Hp.
  { apply qn_pos. destruct qs; [done|simpl; lia]. }
  rewrite H0 in Hp. revert Hp. by vm_compute.
Qed.

Lemma nmean_nonneg (qs : list Qc) :
  qs ≠ [] → Forall (fun q => (0 <= q)%Qc) qs →
  ∃ m, nmean (map Fin qs) = Fin m ∧ (0 <= m)%Qc.
Proof.
  intros Hne Hq. rewrite nmean_fin by done. eexists. split; [done|].
  destruct (Qc_div_sign (qsum qs) (qn (length qs))) as (H1 & _ & _).
  - apply qn_pos. destruct qs; [done|simpl; lia].
  - apply H1, qsum_nonneg, Hq.
Qed.

Lemma all_fin {A} (f : A → num) (l : list A) :
  (∀ x, x ∈ l → ∃ q, f x = Fin q) → ∃ qs, map f l = map Fin qs.
Proof.
  induction l as [|x l IH]; intros H; [by exists []|].
  destruct (H x) as [q Hq]; [by left|].
  destruct IH as [qs Hqs]; [intros y Hy; apply H; by right|].
  exists (q :: qs). simpl. rewrite Hq, Hqs. done.
Qed.

Lemma all_fin_nonneg {A} (f : A → num) (l : list A) :
  (∀ x, x ∈ l → ∃ q, f x = Fin q ∧ (0 <= q)%Qc) →
  ∃ qs, map f l = map Fin qs ∧ Forall (fun q => (0 <= q)%Qc) qs.
Proof.
  induction l as [|x l IH]; intros H; [by exists []|].
  destruct (H x) as (q & Hq & Hq0); [by left|].
  destruct IH as (qs & Hqs & Hall); [intros y Hy; apply H; by right|].
  exists (q :: qs). simpl. rewrite Hq, Hqs. split; [done|]. constructor; done.
Qed.

End MeanFacts.

Section MeanVelocity.
Variables (E : externals) (g : geometry).

Lemma script_velocities_nonneg (d : option Qc) (pts : list point) :
  ∃ qs, map (script_v_out E g d pts) (script_returned E g d pts) = map Fin qs
        ∧ Forall (fun q => (0 <= q)%Qc) qs.
Proof.
  apply all_fin_nonneg. intros p (Hm & Hv)%script_returned_kept.
  destruct (script_unmasked E g d _ p Hm)
    as (a & b & hq & vq & rq & _ & _ & _ & Hvq & _).
  unfold script_v_out in *. rewrite Hvq in *.
  destruct (script_negated E g d pts); simpl in *;
    eexists; (split; [done|]); apply nlt_zero_false; done.
Qed.

Lemma class_velocities_fin (pts : list point) :
  ∃ qs, map (Class.v_of E g) (filter (fun p => Class.mask_of E g p = false) pts)
        = map Fin qs.
Proof.
  apply all_fin. intros p (Hm & _)%list_elem_of_filter.
  destruct (class_unmasked E g p Hm) as (a & b & hq & vq & rq & _ & _ & _ & Hvq & _).
  eauto.
Qed.

Lemma map_fin_nil (qs : list Qc) : map Fin qs = [] → qs = [].
Proof. destruct qs; done. Qed.

Lemma map_if {A} (b : bool) (f : A → num) (l : list A) :
  map (λ p, if b then (- f p)%num else f p) l
  = if b then map nneg (map f l) else map f l.
Proof. destruct b; [|done]. rewrite <- list_fmap_compose. done. Qed.

Lemma ma_mean_alt (vals : list num) :
  match vals with [] => None | n :: l => Some (nmean (n :: l)) end
  = if decide (vals = []) then None else Some (nmean vals).
Proof. destruct vals; done. Qed.

Lemma mean_sign_fix (qs : list Qc) :
  qs ≠ [] →
  let vals := if (nmean (map Fin qs) <? Fin 0%Qc)%num
              then map nneg (map Fin qs) else map Fin qs in
  vals ≠ [] ∧ ∃ q, nmean vals = Fin q ∧ (0 <= q)%Qc.
Proof.
  intros Hne. rewrite nmean_fin by done.
  assert (0 < qn (length qs))%Qc as Hn by (apply qn_pos; destruct qs; [done|simpl; lia]).
  destruct (Qc_div_sign (qsum qs) _ Hn) as (_ & Hneg & Hpos).
  simpl. case_bool_decide as Hlt.
  - rewrite <- list_fmap_compose.
    change (nneg ∘ Fin) with (Fin ∘ Qcopp). rewrite list_fmap_compose.
    split; [destruct qs; done|].
    rewrite nmean_fin by (destruct qs; done).
    eexists. split; [done|]. rewrite qsum_opp, length_map. apply Hneg. done.
  - split; [destruct qs; done|]. rewrite nmean_fin by done.
    eexists. split; [done|]. apply Hpos. done.
Qed.

(** C2.  The velocities returned by [measure_mol_surface] are those of
    the points left by the masks, all negated when the mean over the
    points left by [mask2] is negative, the still-negative ones being
    dropped; when the returned sequence is not empty its mean is
    non-negative.  [_compute_surface] negates all velocities when the
    mean of the unmasked ones is negative, and the mean of the unmasked
    velocities it stores, when there is one, is non-negative. *)
Theorem mean_velocity_nonnegative (d : option Qc) (pts : list point) :
  let v := (Script.measure_mol_surface E g pts d).1.2 in
  let s := Class._compute_surface E g pts in
  v = map (script_v_out E g d pts) (script_returned E g d pts)
  ∧ (v ≠ [] → ∃ m, nmean v = Fin m ∧ (0 <= m)%Qc)
  ∧ s.(Class.s_v) = MArray (map (class_v_out E g pts) pts) (map (Class.mask_of E g) pts)
  ∧ (∀ m, ma_mean s.(Class.s_v) = Some m → ∃ q, m = Fin q ∧ (0 <= q)%Qc).
Proof.
  intros v s. subst v s.
  rewrite measure_mol_surface_points, compute_surface_arrays. simpl.
  split; [done|]. split.
  { destruct (script_velocities_nonneg d pts) as (qs & -> & Hqs).
    intros Hne. apply nmean_nonneg; [|done]. intros ->. done. }
  split; [done|].
  intros m. unfold ma_mean. simpl. rewrite compressed_map.
  unfold class_v_out, class_negated, ma_mean. simpl. rewrite compressed_map.
  destruct (class_velocities_fin pts) as (qs & Hqs).
  set (U := filter (λ p, Class.mask_of E g p = false) pts) in *.
  rewrite map_if, Hqs, !ma_mean_alt.
  destruct (decide (map Fin qs = [])) as [Hnil|Hne].
  { rewrite Hnil. simpl. done. }
  assert (qs ≠ []) as Hq by (intros ->; done).
  destruct (mean_sign_fix qs Hq) as (Hv & q & Hmean & Hq0).
  cbv zeta in Hv, Hmean. rewrite decide_False by done.
  intros [= <-]. eauto.
Qed.

End MeanVelocity.

Lemma mean_velocity_nonnegative_witness :
  ∃ m, nmean (Script.measure_mol_surface example_externals example_geometry
                [point_counter_rotating] None).1.2 = Fin m
       ∧ (0 <= m)%Qc.
Proof.
  apply (mean_velocity_nonnegative example_externals example_geometry None
           [point_counter_rotating]).
  by vm_compute.
Defined.

(** ** Deprojection: the role of [y_star] *)

Section YStar.
Variables (E : externals) (g : geometry) (ys' : Qc).

Lemma class_y_of_independent (p : point) :
  Class.y_of (with_y_star g ys') p = Class.y_of g p.
Proof.
  unfold Class.y_of, Class.y_c, Class.y_f, Class.y_n. simpl.
  destruct (p_y p) as [[a| | |] [b| | |]]; simpl; try reflexivity.
  replace (b + - ys' + - (qfrac 1 2 * (b + - ys' + (a + - ys'))))%Qc
    with (b + - y_star g + - (qfrac 1 2 * (b + - y_star g + (a + - y_star g))))%Qc;
    [done|]. to_Q. ring.
Qed.

Lemma class_r_px_independent (p : point) :
  Class.r_px E (with_y_star g ys') p = Class.r_px E g p.
Proof. unfold Class.r_px. rewrite class_y_of_independent. done. Qed.

Lemma script_r_px_flip (p : point) :
  finite_y p → Script.r_px E g true p = Script.r_px E g false p.
Proof.
  intros [H1 H2]. unfold Script.r_px, Script.y_c.
  destruct (p_y p) as [[a| | |] [b| | |]]; try done. simpl.
  replace ((b + a) / qz 2 + - a)%Qc with (b + - ((b + a) / qz 2))%Qc; [done|].
  to_Q. field.
Qed.

Lemma script_r_px_any_flip (f f' : bool) (p : point) :
  finite_y p → Script.r_px E g f p = Script.r_px E g f' p.
Proof.
  intros H. destruct f, f'; auto using script_r_px_flip, eq_sym.
Qed.

(** C10 (amended).  As functions of exact numbers, the radius and the
    rotation velocity computed before masking do not change when
    [y_star] changes: in [_compute_surface] for every detector entry, in
    [measure_mol_surface] for every detector output with finite
    positions (there [y_star] can switch the global flip of the heights,
    which leaves the radius unchanged because [y_c - y_b = y_a - y_c]).
    This is about the formulas, without rounding.  In binary64 the
    radius and the velocity of [measure_mol_surface] are the same for
    two values of [y_star] that decide the flip in the same way. *)
Theorem radius_velocity_independent_of_y_star :
  (∀ p, Class.r_px E (with_y_star g ys') p = Class.r_px E g p
        ∧ Class.r_of E (with_y_star g ys') p = Class.r_of E g p
        ∧ Class.v_of E (with_y_star g ys') p = Class.v_of E g p)
  ∧ (∀ d pts, Forall finite_y pts →
       let flip := Script.flipped g pts in
       let flip' := Script.flipped (with_y_star g ys') pts in
       map (Script.r_px E (with_y_star g ys') flip') pts = map (Script.r_px E g flip) pts
       ∧ map (Script.r_of E (with_y_star g ys') d flip') pts
         = map (Script.r_of E g d flip) pts
       ∧ map (Script.v_of E (with_y_star g ys') flip') pts
         = map (Script.v_of E g flip) pts)
  ∧ (∀ (b : ScriptBinary64.geometry) (ys2 : float) (pts : list ScriptBinary64.entry),
       ScriptBinary64.flipped (ScriptBinary64.with_y_star b ys2) pts
       = ScriptBinary64.flipped b pts →
       ScriptBinary64.radius (ScriptBinary64.with_y_star b ys2) pts
       = ScriptBinary64.radius b pts
       ∧ ScriptBinary64.velocity (ScriptBinary64.with_y_star b ys2) pts
         = ScriptBinary64.velocity b pts).
Proof.
  split; [|split].
  - intros p. unfold Class.r_of, Class.v_of, velocity_of.
    rewrite class_r_px_independent. done.
  - intros d pts Hfin flip flip'.
    assert (∀ p, p ∈ pts →
                 Script.r_px E (with_y_star g ys') flip' p = Script.r_px E g flip p) as Hr.
    { intros p Hp. rewrite Forall_forall in Hfin.
      change (Script.r_px E (with_y_star g ys') flip' p) with (Script.r_px E g flip' p).
      apply script_r_px_any_flip. auto. }
    split; [|split]; apply list_fmap_ext; intros i p Hp%list_elem_of_lookup_2;
      unfold Script.r_of, Script.v_of, velocity_of, Script.to_length;
      rewrite (Hr p Hp); done.
  - intros b ys2 pts Hflip.
    unfold ScriptBinary64.radius, ScriptBinary64.velocity. rewrite Hflip. done.
Qed.

End YStar.

Lemma radius_velocity_independent_of_y_star_witness :
  map (Script.v_of example_externals (with_y_star example_geometry (qz 20))
         (Script.flipped (with_y_star example_geometry (qz 20)) [point_above_star]))
      [point_above_star]
  = map (Script.v_of example_externals example_geometry
           (Script.flipped example_geometry [point_above_star]))
        [point_above_star].
Proof.
  apply (radius_velocity_independent_of_y_star example_externals example_geometry
           (qz 20)); [exact None|].
  constructor; [|constructor]. split; reflexivity.
Defined.

(** C10 as stated fails in the arithmetic of the program.  With the
    star at row 4 the heights of [binary64_entries] are not flipped and
    [measure_mol_surface] takes the radius from [y_a - y_c]; with the
    star at row 100 they are flipped and it takes the radius from
    [y_c - y_b].  The two differences are equal as real numbers and
    differ after rounding: the radius and the velocity of the first
    entry change in their last digits. *)
Lemma radius_changes_with_y_star_binary64 :
  ScriptBinary64.flipped (binary64_geometry 4) binary64_entries = false
  ∧ ScriptBinary64.flipped (binary64_geometry 100) binary64_entries = true
  ∧ ScriptBinary64.radius (binary64_geometry 4) binary64_entries
    = (0x1.e9c46d3a42032p+1 :: replicate 7 0)%float
  ∧ ScriptBinary64.radius (binary64_geometry 100) binary64_entries
    = (0x1.e9c46d3a42034p+1 :: replicate 7 0)%float
  ∧ ScriptBinary64.radius (binary64_geometry 100) binary64_entries
    ≠ ScriptBinary64.radius (binary64_geometry 4) binary64_entries
  ∧ ScriptBinary64.velocity (binary64_geometry 100) binary64_entries
    ≠ ScriptBinary64.velocity (binary64_geometry 4) binary64_entries.
Proof.
  split; [vm_compute; reflexivity|]. split; [vm_compute; reflexivity|].
  split; [vm_compute; reflexivity|]. split; [vm_compute; reflexivity|].
  split; intros H.
  - apply (f_equal (fun l => match l with
                             | a :: _ => PrimFloat.eqb a 0x1.e9c46d3a42032p+1
                             | [] => false
                             end)) in H.
    vm_compute in H. discriminate H.
  - apply (f_equal (fun l => match l with
                             | a :: _ => PrimFloat.eqb a 0x1.9823b05b3702bp+1
                             | [] => false
                             end)) in H.
    vm_compute in H. discriminate H.
Qed.

(** The height, and with it the global flip of [measure_mol_surface],
    does depend on [y_star]. *)
Lemma height_depends_on_y_star :
  Class.h_of (with_y_star example_geometry (qz 20)) point_above_star
  ≠ Class.h_of example_geometry point_above_star
  ∧ Script.flipped (with_y_star example_geometry (qz 20)) [point_above_star]
    ≠ Script.flipped example_geometry [point_above_star].
Proof. split; by vm_compute. Qed.

(** ** Degenerate detections *)

Section FailClosed.
Import PeakSearch Refine.

Lemma scan_column_script_refined (thr dx ys : Qc) (col : list Qc) :
  ∃ c, scan_column_script thr dx ys col = Ok c ∧ column_refined id c.
Proof.
  unfold scan_column_script.
  destruct (select_pair_script _ _) as [sel|] eqn:Hsel;
    [|exists column_init; split; [done | by left]].
  apply select_pair_script_members in Hsel as [H1 H2].
  apply search_maxima_candidates in H1, H2.
  destruct (refine_pair_finite id col sel H1 H2) as (y0 & y1 & f0 & f1 & ->).
  eexists. split; [done|]. right. eauto 10.
Qed.

Lemma scan_column_class_refined (Jy : num → num) (thr dx : Qc) (ys : option Qc)
    (col : list Qc) :
  ∃ c, scan_column_class Jy thr dx ys col = Ok c ∧ column_refined Jy c.
Proof.
  unfold scan_column_class.
  destruct (select_pair_class _ _) as [sel|] eqn:Hsel;
    [|exists column_init; split; [done | by left]].
  apply select_pair_class_members in Hsel as [H1 H2].
  apply search_maxima_candidates in H1, H2.
  destruct (refine_pair_finite Jy col sel H1 H2) as (y0 & y1 & f0 & f1 & ->).
  eexists. split; [done|]. right. eauto 10.
Qed.

Lemma degenerate_quadratic_not_finite (j : nat) (f_minus f_max f_plus : Qc) :
  a2 f_minus f_max f_plus = 0%Qc →
  isfinite (y_max j f_minus f_max f_plus) = false
  ∧ isfinite (f_peak f_minus f_max f_plus) = false.
Proof.
  intros H. unfold y_max, f_peak. rewrite H. cbn [ndiv].
  rewrite (bool_decide_eq_true_2 (0 = 0)%Qc) by done.
  split; match goal with |- context [scale_inf ?x ?s] =>
    unfold scale_inf, inf_of; repeat case_bool_decide; done end.
Qed.

Lemma finite_y_fin (p : point) (a b : Qc) : p_y p = (Fin a, Fin b) → finite_y p.
Proof. intros H. unfold finite_y. rewrite H. done. Qed.

(** C7.  No detection has a degenerate quadratic: every row returned by
    [search_maxima] has [a2 < 0], so both column scans return without an
    error and store finite positions and the values of finite peaks.  A
    quadratic with [a2 = 0] would give a position and a peak value that
    are not finite, and the deprojection masks every point whose
    positions are not finite and every point in the column of the star
    (zero x-offset), in both variants; no such point is among those
    returned by [measure_mol_surface]. *)
Theorem degenerate_points_fail_closed :
  (∀ (thr dx : Qc) (col : list Qc) (j : nat),
     j ∈ search_maxima col (Some thr) dx →
     (a2 (at_q col (j - 1)) (at_q col j) (at_q col (S j)) < 0)%Qc)
  ∧ (∀ (thr dx ys : Qc) (col : list Qc),
       ∃ c, scan_column_script thr dx ys col = Ok c ∧ column_refined id c)
  ∧ (∀ (Jy : num → num) (thr dx : Qc) (ys : option Qc) (col : list Qc),
       ∃ c, scan_column_class Jy thr dx ys col = Ok c ∧ column_refined Jy c)
  ∧ (∀ (j : nat) (f_minus f_max f_plus : Qc),
       a2 f_minus f_max f_plus = 0%Qc →
       isfinite (y_max j f_minus f_max f_plus) = false
       ∧ isfinite (f_peak f_minus f_max f_plus) = false)
  ∧ (∀ (E : externals) (g : geometry) (d : option Qc) (flip : bool) (p : point),
       p.(p_x) = g.(x_star) ∨ ¬ finite_y p →
       Script.mask2 E g d flip p = true ∧ Class.mask_of E g p = true)
  ∧ (∀ (E : externals) (g : geometry) (d : option Qc) (pts : list point) (p : point),
       p ∈ script_returned E g d pts → p.(p_x) ≠ g.(x_star) ∧ finite_y p).
Proof.
  split; [|split; [|split; [|split; [|split]]]].
  - intros thr dx col j Hj%search_maxima_candidates. apply refine_candidate. done.
  - apply scan_column_script_refined.
  - apply scan_column_class_refined.
  - apply degenerate_quadratic_not_finite.
  - intros E g d flip p Hp. split.
    + destruct (Script.mask2 E g d flip p) eqn:Hm; [done|]. exfalso.
      destruct (script_unmasked E g d flip p Hm)
        as (a & b & hq & vq & rq & Hy & _ & _ & _ & _ & _ & Hx & _).
      destruct Hp as [Hp|Hp]; [done|]. apply Hp. eapply finite_y_fin. done.
    + destruct (Class.mask_of E g p) eqn:Hm; [done|]. exfalso.
      destruct (class_unmasked E g p Hm)
        as (a & b & hq & vq & rq & Hy & _ & _ & _ & _ & Hx & _).
      destruct Hp as [Hp|Hp]; [done|]. apply Hp. eapply finite_y_fin. done.
  - intros E g d pts p (Hm & _)%script_returned_kept.
    destruct (script_unmasked E g d _ p Hm)
      as (a & b & hq & vq & rq & Hy & _ & _ & _ & _ & _ & Hx & _).
    split; [done|]. eapply finite_y_fin. done.
Qed.

End FailClosed.

Lemma degenerate_points_fail_closed_witness :
  Script.mask2 example_externals example_geometry None false point_at_star = true
  ∧ Class.mask_of example_externals example_geometry point_at_star = true.
Proof.
  apply (proj1 (proj2 (proj2 (proj2 (proj2 degenerate_points_fail_closed))))).
  left. reflexivity.
Defined.

(** ** Channels without a detection *)

Lemma res_map_const {A B} (f : A → res B) (l : list A) (b : B) :
  (∀ a, a ∈ l → f a = Ok b) → res_map f l = Ok (replicate (length l) b).
Proof.
  induction l as [|a l IH]; intros H; [done|]. simpl.
  rewrite (H a) by left. simpl. rewrite IH; [done|].
  intros a' Ha'. apply H. by right.
Qed.

Lemma res_map_app {A B} (f : A → res B) (l1 l2 : list A) :
  res_map f (l1 ++ l2)
  = do r1 <- res_map f l1; do r2 <- res_map f l2; Ok (r1 ++ r2).
Proof.
  induction l1 as [|a l1 IH]; simpl.
  - by destruct (res_map f l2).
  - destruct (f a) as [b|e]; [|done]. simpl. rewrite IH.
    destruct (res_map f l1) as [r1|e]; [|done]. simpl.
    by destruct (res_map f l2).
Qed.

Lemma select_none {A} (mask : list bool) (a : list A) :
  count_true mask = 0%nat → select mask a = [].
Proof.
  revert a. induction mask as [|b mask IH]; intros a H; [by destruct a|].
  destruct a as [|x a]; [done|].
  destruct b; [done|]. simpl. apply IH. exact H.
Qed.

Lemma no_column_in_surface (nx : nat) :
  existsb id (map in_surface (replicate nx column_init)) = false.
Proof. induction nx as [|nx IH]; [done|]. exact IH. Qed.

Lemma exists_count (mask : list bool) :
  existsb id mask = false → count_true mask = 0%nat.
Proof.
  induction mask as [|b mask IH]; [done|].
  destruct b; [done|]. exact IH.
Qed.

Section Channels.
Import PeakSearch.
Variable lstsq_degenerate : list Qc → list num → res (Qc * Qc).
Variable Jybeam_to_Tb : num → num.
Variable np : library.

Lemma scan_column_script_few (thr dx ys : Qc) (col : list Qc) :
  (length (search_maxima col (Some thr) dx) < 2)%nat →
  scan_column_script thr dx ys col = Ok column_init.
Proof.
  unfold scan_column_script.
  destruct (search_maxima col (Some thr) dx) as [|a [|b l]]; simpl; [done..|lia].
Qed.

Lemma scan_column_class_few (thr dx : Qc) (ys : option Qc) (col : list Qc) :
  (length (search_maxima col (Some thr) dx) < 2)%nat →
  scan_column_class Jybeam_to_Tb thr dx ys col = Ok column_init.
Proof.
  unfold scan_column_class.
  destruct (search_maxima col (Some thr) dx) as [|a [|b l]]; simpl; [done..|lia].
Qed.

Lemma quiet_scanned (nx : nat) (thr dx ys : Qc) (yso : option Qc)
    (im : list (list Qc)) :
  quiet nx thr dx im →
  scanned_script nx thr dx ys im = Ok (replicate nx column_init)
  ∧ scanned_class Jybeam_to_Tb nx thr dx yso im = Ok (replicate nx column_init).
Proof.
  intros Hq. unfold scanned_script, scanned_class.
  split.
  - rewrite (res_map_const _ _ column_init); [by rewrite length_seq|].
    intros i [_ Hi]%elem_of_seq. apply scan_column_script_few, Hq. lia.
  - rewrite (res_map_const _ _ column_init); [by rewrite length_seq|].
    intros i [_ Hi]%elem_of_seq. apply scan_column_class_few, Hq. lia.
Qed.

Lemma quiet_channel (nx : nat) (thr dx ys : Qc) (yso : option Qc)
    (im : list (list Qc)) :
  quiet nx thr dx im →
  detect_channel_script lstsq_degenerate nx thr dx ys im = Ok (channel_init nx)
  ∧ detect_channel_class lstsq_degenerate Jybeam_to_Tb nx thr dx yso im
    = Ok (channel_init nx).
Proof.
  intros Hq. destruct (quiet_scanned nx thr dx ys yso im Hq) as [Hs Hc].
  split.
  - change (detect_channel_script lstsq_degenerate nx thr dx ys im)
      with (do cols <- scanned_script nx thr dx ys im;
            clean_script lstsq_degenerate nx cols).
    rewrite Hs. simpl. unfold clean_script.
    by rewrite no_column_in_surface.
  - change (detect_channel_class lstsq_degenerate Jybeam_to_Tb nx thr dx yso im)
      with (do cols <- scanned_class Jybeam_to_Tb nx thr dx yso im;
            clean_class lstsq_degenerate nx cols).
    rewrite Hc. simpl. unfold clean_class.
    by rewrite no_column_in_surface.
Qed.

Lemma res_map_ext {A B} (f g : A → res B) (l : list A) :
  (∀ a, a ∈ l → f a = g a) → res_map f l = res_map g l.
Proof.
  induction l as [|a l IH]; intros H; [done|]. simpl.
  rewrite (H a) by left. rewrite IH; [done|]. intros a' Ha'. apply H. by right.
Qed.

Lemma res_map_fmap {A B C} (g : A → B) (f : B → res C) (l : list A) :
  res_map f (map g l) = res_map (fun a => f (g a)) l.
Proof. induction l as [|a l IH]; [done|]. simpl. by rewrite IH. Qed.

(** With a number for [sigma], a finite [sigma*std] and a number for
    [y_star], a turn of the loops is the body given above. *)
Lemma scan_script_finite (s dx ys thr : Qc) (std : num) (col : list Qc) :
  (Fin s * std)%num = Fin thr →
  scan_script (Some s) std dx (Some ys) col = scan_column_script thr dx ys col.
Proof. intros H. unfold scan_script, threshold_of. cbn [res_bind]. rewrite H. done. Qed.

Lemma scan_class_finite (s dx thr : Qc) (yso : option Qc) (std : num) (col : list Qc) :
  (Fin s * std)%num = Fin thr →
  scan_class Jybeam_to_Tb (Some s) std dx yso col
  = scan_column_class Jybeam_to_Tb thr dx yso col.
Proof. intros H. unfold scan_class, threshold_of. cbn [res_bind]. rewrite H. done. Qed.

Lemma channel_script_finite (nx : nat) (s dx ys thr : Qc) (std : num)
    (im : list (list Qc)) :
  (Fin s * std)%num = Fin thr →
  channel_script lstsq_degenerate nx (Some s) std dx (Some ys) im
  = detect_channel_script lstsq_degenerate nx thr dx ys im.
Proof.
  intros H. unfold channel_script, detect_channel_script.
  rewrite (res_map_ext _ (fun i => scan_column_script thr dx ys (image_column im i)));
    [done|].
  intros i _. by apply scan_script_finite.
Qed.

Lemma channel_class_finite (nx : nat) (s dx thr : Qc) (yso : option Qc) (std : num)
    (im : list (list Qc)) :
  (Fin s * std)%num = Fin thr →
  channel_class lstsq_degenerate Jybeam_to_Tb nx (Some s) std dx yso im
  = detect_channel_class lstsq_degenerate Jybeam_to_Tb nx thr dx yso im.
Proof.
  intros H. unfold channel_class, detect_channel_class.
  rewrite (res_map_ext _ (fun i => scan_column_class Jybeam_to_Tb thr dx yso
                                     (image_column im i))); [done|].
  intros i _. by apply scan_class_finite.
Qed.

Lemma scan_script_few (s dx : Qc) (std : num) (y_star : option Qc) (col : list Qc) :
  (length (search_maxima_at col (Fin s * std) dx) < 2)%nat →
  scan_script (Some s) std dx y_star col = Ok column_init.
Proof.
  unfold scan_script, threshold_of. cbn [res_bind].
  destruct (search_maxima_at col (Fin s * std) dx) as [|a [|b l]], y_star;
    simpl; first [done | lia].
Qed.

Lemma scan_class_few (s dx : Qc) (std : num) (y_star : option Qc) (col : list Qc) :
  (length (search_maxima_at col (Fin s * std) dx) < 2)%nat →
  scan_class Jybeam_to_Tb (Some s) std dx y_star col = Ok column_init.
Proof.
  unfold scan_class, threshold_of. cbn [res_bind].
  destruct (search_maxima_at col (Fin s * std) dx) as [|a [|b l]];
    simpl; first [done | lia].
Qed.

Lemma quiet_at_channel (nx : nat) (s dx : Qc) (std : num) (y_star : option Qc)
    (im : list (list Qc)) :
  quiet_at nx (Fin s * std) dx im →
  channel_script lstsq_degenerate nx (Some s) std dx y_star im = Ok (channel_init nx)
  ∧ channel_class lstsq_degenerate Jybeam_to_Tb nx (Some s) std dx y_star im
    = Ok (channel_init nx).
Proof.
  intros Hq. unfold channel_script, channel_class. split.
  - rewrite (res_map_const _ _ column_init).
    + rewrite length_seq. simpl. unfold clean_script.
      by rewrite no_column_in_surface.
    + intros i [_ Hi]%elem_of_seq. apply scan_script_few, Hq. lia.
  - rewrite (res_map_const _ _ column_init).
    + rewrite length_seq. simpl. unfold clean_class.
      by rewrite no_column_in_surface.
    + intros i [_ Hi]%elem_of_seq. apply scan_class_few, Hq. lia.
Qed.

(** A cube without a channel of index 1 is not processed: the noise
    estimate raises before the first channel is looked at. *)
Lemma short_cube_raises (image : list (list (list num))) (nx : nat) (dx : Qc)
    (PA sigma y_star : option Qc) :
  (length image < 2)%nat →
  detect_surface lstsq_degenerate np image nx dx PA sigma y_star = Raise IndexError
  ∧ _detect_surface lstsq_degenerate Jybeam_to_Tb np image nx dx PA sigma y_star
    = Raise IndexError.
Proof.
  intros H. unfold detect_surface, _detect_surface.
  rewrite (lookup_ge_None_2 image 1) by lia. done.
Qed.

(** C8 (amended).  A channel in which no column has two maxima that pass
    the threshold yields a zero count and rows of zeros, in both
    variants; it raises nothing, and in a cube that has a channel of
    index 1 for the noise estimate the loop over the channels goes on:
    the run over a cube that holds such a channel is the loop over the
    channels before it and the loop over the channels after it, with the
    empty entry between their results. *)
Theorem quiet_channel_no_detection (nx : nat) (threshold : num) (dx : Qc)
    (im : list (list Qc)) :
  quiet_at nx threshold dx im →
  (∀ thr ys yso, threshold = Fin thr →
     detect_channel_script lstsq_degenerate nx thr dx ys im = Ok (channel_init nx)
     ∧ detect_channel_class lstsq_degenerate Jybeam_to_Tb nx thr dx yso im
       = Ok (channel_init nx))
  ∧ (n_surf (channel_init nx) = 0%nat
     ∧ x_surf (channel_init nx) = replicate nx 0%Qc
     ∧ y_surf (channel_init nx) = replicate nx zero2
     ∧ Tb_surf (channel_init nx) = replicate nx zero2)
  ∧ (∀ before raw after noise PA s y_star,
       rotated np PA raw = im →
       (before ++ raw :: after) !! 1%nat = Some noise →
       (Fin s * np.(nanstd) noise)%num = threshold →
       detect_surface lstsq_degenerate np (before ++ raw :: after) nx dx PA (Some s) y_star
       = (do r1 <- channels_script lstsq_degenerate np nx (Some s) (np.(nanstd) noise)
                     dx PA y_star before;
          do r2 <- channels_script lstsq_degenerate np nx (Some s) (np.(nanstd) noise)
                     dx PA y_star after;
          Ok (r1 ++ channel_init nx :: r2))
       ∧ _detect_surface lstsq_degenerate Jybeam_to_Tb np (before ++ raw :: after) nx dx
           PA (Some s) y_star
         = (do r1 <- channels_class lstsq_degenerate Jybeam_to_Tb np nx (Some s)
                       (np.(nanstd) noise) dx PA y_star before;
            do r2 <- channels_class lstsq_degenerate Jybeam_to_Tb np nx (Some s)
                       (np.(nanstd) noise) dx PA y_star after;
            Ok (r1 ++ channel_init nx :: r2))).
Proof.
  intros Hq. split; [|split; [done|]].
  - intros thr ys yso ->. by apply quiet_channel.
  - intros before raw after noise PA s y_star Him Hnoise Hthr.
    rewrite <- Hthr, <- Him in Hq.
    destruct (quiet_at_channel nx s dx (np.(nanstd) noise) y_star _ Hq) as [Hs Hc].
    unfold detect_surface, _detect_surface. rewrite Hnoise.
    unfold channels_script, channels_class. rewrite !res_map_app. simpl.
    rewrite Hs, Hc. simpl. split.
    + destruct (res_map _ before) as [r1|e]; [|done]. simpl.
      by destruct (res_map _ after).
    + destruct (res_map _ before) as [r1|e]; [|done]. simpl.
      by destruct (res_map _ after).
Qed.

(** A cube of at least two channels in which every channel is quiet
    gives a zero count in every channel, in both variants. *)
Lemma quiet_cube_no_detection (nx : nat) (dx s : Qc) (PA y_star : option Qc)
    (image : list (list (list num))) (noise : list (list num)) :
  image !! 1%nat = Some noise →
  Forall (fun raw => quiet_at nx (Fin s * np.(nanstd) noise) dx (rotated np PA raw)) image →
  detect_surface lstsq_degenerate np image nx dx PA (Some s) y_star
  = Ok (replicate (length image) (channel_init nx))
  ∧ _detect_surface lstsq_degenerate Jybeam_to_Tb np image nx dx PA (Some s) y_star
    = Ok (replicate (length image) (channel_init nx)).
Proof.
  intros Hn Hq. rewrite Forall_forall in Hq.
  unfold detect_surface, _detect_surface. rewrite Hn.
  split; apply res_map_const; intros raw Hraw;
    apply (quiet_at_channel nx s dx (np.(nanstd) noise) y_star _ (Hq raw Hraw)).
Qed.

(** In [Surface._detect_surface] one or two columns in the surface are
    saved as they are: no line is fitted ([len(x1) > 2] fails). *)
Lemma class_few_columns_saved (nx : nat) (cols : list column) :
  (count_true (map in_surface cols) ≤ 2)%nat →
  ∃ ch, clean_class lstsq_degenerate nx cols = Ok ch
        ∧ n_surf ch = count_true (map in_surface cols).
Proof.
  intros H. unfold clean_class.
  destruct (existsb id (map in_surface cols)) eqn:He.
  - rewrite bool_decide_eq_false_2 by lia. simpl.
    eexists. split; [done|]. unfold save. by case_bool_decide.
  - exists (channel_init nx). split; [done|]. by rewrite exists_count.
Qed.

(** When the first fit leaves no column, the second [np.polyfit] is
    called on empty arrays and raises. *)
Lemma empty_survivors_raise (nx : nat) (cols : list column) (tmp : list bool) :
  existsb id (map in_surface cols) = true →
  first_pass lstsq_degenerate cols = Ok tmp →
  count_true tmp = 0%nat →
  clean_script lstsq_degenerate nx cols = Raise TypeError
  ∧ ((2 < count_true (map in_surface cols))%nat →
     clean_class lstsq_degenerate nx cols = Raise TypeError).
Proof.
  intros He Hf Hn.
  assert (two_pass lstsq_degenerate cols = Raise TypeError) as Ht.
  { unfold two_pass. rewrite Hf. simpl. unfold fit_columns.
    by rewrite (select_none tmp (arange (length cols)) Hn). }
  unfold clean_script, clean_class. rewrite He, Ht. split; [done|].
  intros H. by rewrite bool_decide_eq_true_2.
Qed.

End Channels.

Lemma quiet_channel_no_detection_witness :
  detect_surface lstsq_gives_up example_library example_cube 3 (qz 1) None
    (Some (qz 1)) (Some (qz 4))
  = (do r1 <- channels_script lstsq_gives_up example_library 3 (Some (qz 1)) (Fin (qz 1))
                (qz 1) None (Some (qz 4)) (take 2 example_cube);
     do r2 <- channels_script lstsq_gives_up example_library 3 (Some (qz 1)) (Fin (qz 1))
                (qz 1) None (Some (qz 4)) [];
     Ok (r1 ++ channel_init 3 :: r2))
  ∧ _detect_surface lstsq_gives_up id example_library example_cube 3 (qz 1) None
      (Some (qz 1)) (Some (qz 4))
    = (do r1 <- channels_class lstsq_gives_up id example_library 3 (Some (qz 1))
                  (Fin (qz 1)) (qz 1) None (Some (qz 4)) (take 2 example_cube);
       do r2 <- channels_class lstsq_gives_up id example_library 3 (Some (qz 1))
                  (Fin (qz 1)) (qz 1) None (Some (qz 4)) [];
       Ok (r1 ++ channel_init 3 :: r2)).
Proof.
  assert (quiet_at 3 (Fin (qz 1) * Fin (qz 1))%num (qz 1)
            (single_peak_channel ++ replicate 15 [qz 0; qz 0; qz 0])) as Hq.
  { intros i Hi. destruct i as [|[|[|i]]]; [vm_compute; lia..|lia]. }
  apply (proj2 (proj2 (quiet_channel_no_detection lstsq_gives_up id example_library
                         3 _ (qz 1) _ Hq))
           (take 2 example_cube)
           (as_read (single_peak_channel ++ replicate 15 [qz 0; qz 0; qz 0]))
           [] (as_read noise_channel) None (qz 1) (Some (qz 4))).
  - vm_compute. reflexivity.
  - reflexivity.
  - reflexivity.
Defined.

(** C8 as stated fails in both variants: in [example_channel] the first
    fit leaves two of the three columns, and the channel is saved with
    a count of 2. *)
Lemma two_survivors_are_saved :
  ¬ (∀ lstsq nx thr dx ys im cols,
       scanned_script nx thr dx ys im = Ok cols →
       insufficient_signal lstsq cols →
       ∃ ch, detect_channel_script lstsq nx thr dx ys im = Ok ch
             ∧ n_surf ch = 0%nat)
  ∧ ¬ (∀ lstsq Jy nx thr dx yso im cols,
         scanned_class Jy nx thr dx yso im = Ok cols →
         insufficient_signal lstsq cols →
         ∃ ch, detect_channel_class lstsq Jy nx thr dx yso im = Ok ch
               ∧ n_surf ch = 0%nat).
Proof.
  split; intros H.
  - edestruct (H lstsq_gives_up 3%nat (qz 1) (qz 1) (qz 4) example_channel)
      as (ch & Hch & Hn).
    + vm_compute. reflexivity.
    + right. eexists. split; [vm_compute; reflexivity|]. vm_compute. lia.
    + vm_compute in Hch. injection Hch as <-. discriminate Hn.
  - edestruct (H lstsq_gives_up id 3%nat (qz 1) (qz 1) (Some (qz 4)) example_channel)
      as (ch & Hch & Hn).
    + vm_compute. reflexivity.
    + right. eexists. split; [vm_compute; reflexivity|]. vm_compute. lia.
    + vm_compute in Hch. injection Hch as <-. discriminate Hn.
Qed.

(** A cube of one quiet channel is not processed at all: both detectors
    raise [IndexError] at the noise estimate. *)
Lemma one_channel_cube_raises :
  detect_surface lstsq_gives_up example_library [as_read noise_channel] 3 (qz 1) None
    (Some (qz 1)) (Some (qz 4)) = Raise IndexError
  ∧ _detect_surface lstsq_gives_up id example_library [as_read noise_channel] 3 (qz 1)
      None (Some (qz 1)) (Some (qz 4)) = Raise IndexError.
Proof. apply short_cube_raises. simpl. lia. Qed.

(** In [outlier_cube] the first fit of channel 0 leaves no column: the
    run of [Surface._detect_surface] stops with the exception of
    [np.polyfit]. *)
Lemma no_survivor_aborts_run :
  _detect_surface lstsq_gives_up id example_library outlier_cube 3 (qz 1) None
    (Some (qz 1)) None = Raise TypeError.
Proof. vm_compute. reflexivity. Qed.

(** ** Peak search: membership *)

Section PeakSearchMore.
Import PeakSearch.

Lemma apply_threshold_elem (y : list Qc) (t : Qc) (cs : list nat) (i : nat) :
  t ≠ 0%Qc →
  i ∈ apply_threshold y (Some t) cs ↔ i ∈ cs ∧ (t < at_q y i)%Qc.
Proof.
  intros Ht. unfold apply_threshold, truthy.
  rewrite bool_decide_eq_false_2 by done. simpl.
  rewrite <- list_fmap_compose, select_map, list_elem_of_filter. simpl.
  rewrite bool_decide_eq_true. tauto.
Qed.

Lemma apply_threshold_off (y : list Qc) (t : option Qc) (cs : list nat) :
  truthy t = false → apply_threshold y t cs = cs.
Proof.
  unfold apply_threshold. destruct t as [t|]; [|done]. intros ->. done.
Qed.

Lemma ranked_elem (y : list Qc) (t : Qc) (i : nat) :
  t ≠ 0%Qc → i ∈ ranked y (Some t) ↔ i ∈ candidates y ∧ (t < at_q y i)%Qc.
Proof.
  intros Ht. unfold ranked. rewrite sort_by_height_perm.
  apply apply_threshold_elem. done.
Qed.

Lemma search_maxima_ranked (y : list Qc) (t : option Qc) (dx : Qc) (i : nat) :
  i ∈ search_maxima y t dx → i ∈ ranked y t.
Proof.
  intros H. eapply elem_of_sublist; [exact H | apply suppress_sublist].
Qed.

Lemma search_maxima_NoDup (y : list Qc) (t : option Qc) (dx : Qc) :
  NoDup (search_maxima y t dx).
Proof.
  eapply sublist_NoDup; [apply (ranked_NoDup y t) | apply suppress_sublist].
Qed.

(** X1.  With a threshold other than zero, every index returned by
    [search_maxima] is an interior row, strictly higher than both of its
    neighbours and strictly above the threshold; with [dx <= 1] every
    such row is returned. *)
Theorem search_maxima_members (y : list Qc) (t dx : Qc) (i : nat) :
  t ≠ 0%Qc →
  (i ∈ search_maxima y (Some t) dx →
     (0 < i)%nat ∧ (S i < length y)%nat
     ∧ (at_q y (i - 1) < at_q y i)%Qc ∧ (at_q y (S i) < at_q y i)%Qc
     ∧ (t < at_q y i)%Qc)
  ∧ ((dx <= 1)%Qc →
     (0 < i)%nat → (S i < length y)%nat →
     (at_q y (i - 1) < at_q y i)%Qc → (at_q y (S i) < at_q y i)%Qc →
     (t < at_q y i)%Qc →
     i ∈ search_maxima y (Some t) dx).
Proof.
  intros Ht. split.
  - intros H%search_maxima_ranked. apply ranked_elem in H as [Hc Hi]; [|done].
    apply candidates_spec in Hc. tauto.
  - intros Hdx H0 H1 Hm Hp Hi.
    change (search_maxima y (Some t) dx) with (suppress (ranked y (Some t)) dx).
    rewrite suppress_inactive by done.
    apply ranked_elem; [done|]. split; [|done].
    apply candidates_spec. tauto.
Qed.

Lemma candidates_nil_search (y : list Qc) (t : option Qc) (dx : Qc) :
  candidates y = [] → search_maxima y t dx = [].
Proof.
  intros H. unfold search_maxima. rewrite H.
  assert (apply_threshold y t [] = []) as ->.
  { unfold apply_threshold. destruct t; [destruct (truthy _)|]; done. }
  done.
Qed.

Lemma no_candidates (y : list Qc) :
  (∀ i, i ∈ candidates y → False) → candidates y = [].
Proof.
  intros H. destruct (candidates y) as [|c cs]; [done|].
  exfalso. apply (H c). by left.
Qed.

(** X2.  A profile that never falls, a profile that never rises and a
    profile of fewer than three rows have no maximum: [search_maxima]
    returns the empty array, whatever the threshold and [dx]. *)
Theorem search_maxima_monotone (y : list Qc) (t : option Qc) (dx : Qc) :
  (∀ i, (S i < length y)%nat → (at_q y i <= at_q y (S i))%Qc)
  ∨ (∀ i, (S i < length y)%nat → (at_q y (S i) <= at_q y i)%Qc)
  ∨ (length y < 3)%nat →
  search_maxima y t dx = [].
Proof.
  intros H. apply candidates_nil_search, no_candidates.
  intros i (H0 & H1 & Hm & Hp)%candidates_spec.
  destruct H as [H|[H|H]].
  - apply (Qclt_not_le _ _ Hp). apply H. done.
  - apply (Qclt_not_le _ _ Hm).
    replace i with (S (i - 1)) at 1 by lia. apply H. lia.
  - lia.
Qed.

End PeakSearchMore.

Lemma search_maxima_members_witness :
  2%nat ∈ PeakSearch.search_maxima (map qz [0; 1; 5; 1; 0]%Z) (Some (qz 2)) (qz 1).
Proof.
  apply (search_maxima_members (map qz [0; 1; 5; 1; 0]%Z) (qz 2) (qz 1) 2);
    [by vm_compute | by vm_compute | lia | simpl; lia | by vm_compute..].
Defined.

Lemma search_maxima_monotone_witness :
  PeakSearch.search_maxima (map qz [0; 1; 1; 4; 7]%Z) (Some (qz 2)) (qz 3) = [].
Proof.
  apply search_maxima_monotone. left. intros i Hi. simpl in Hi.
  destruct i as [|[|[|[|i]]]]; [by vm_compute..|lia].
Defined.

(** ** Sub-pixel refinement: bounds *)

Section RefineBounds.
Import PeakSearch Refine.

Lemma refine_near_row (col : list Qc) (j : nat) :
  j ∈ candidates col →
  ∃ yv fv, refine col j = Ok (Fin yv, Fin fv)
           ∧ (qn j - qfrac 1 2 < yv)%Qc ∧ (yv < qn j + qfrac 1 2)%Qc
           ∧ (at_q col j < fv)%Qc.
Proof.
  intros (H0 & H1 & Hm & Hp)%candidates_spec.
  pose proof (a2_negative _ _ _ Hm Hp) as Ha.
  assert (a2 (at_q col (j - 1)) (at_q col j) (at_q col (S j)) ≠ 0%Qc) as Hne
    by (intros E; rewrite E in Ha; revert Ha; by vm_compute).
  rewrite refine_interior by done. unfold y_max, f_peak.
  cbn [ndiv]. rewrite (bool_decide_eq_false_2 _ Hne). cbn [nsub nadd nneg].
  eexists _, _. split; [reflexivity|].
  revert Hm Hp Ha. unfold a0, a1, a2.
  generalize (at_q col (j - 1)) (at_q col j) (at_q col (S j)) (qn j).
  intros fm f fp n Hm Hp Ha.
  set (A := (qfrac 1 2 * (fp + fm - qz 2 * f))%Qc) in *.
  assert (∃ r, (A * r = 1)%Qc ∧ (r < 0)%Qc ∧ ∀ x, (x / A = x * r)%Qc) as (r & Hr & Hr0 & Hdiv).
  { exists (/ A)%Qc. split; [|split; [|done]].
    - apply Qcmult_inv_r. intros E. rewrite E in Ha. revert Ha. by vm_compute.
    - destruct (Qclt_le_dec (/ A) 0) as [|Hge]; [done|]. exfalso.
      assert (A * / A = 1)%Qc as H1'
        by (apply Qcmult_inv_r; intros E; rewrite E in Ha; revert Ha; by vm_compute).
      assert (A * / A <= 0)%Qc; [|rewrite H1' in *; by vm_compute in H].
      revert Hge Ha. generalize (/ A)%Qc. intros s Hs Ha. qc2q. nra. }
  rewrite !Hdiv. subst A.
  revert Hr Hr0. clear Hdiv. revert Hm Hp Ha.
  unfold qz, qfrac, Qc_of_Z, Qcdiv, Qcinv. intros Hm Hp Ha Hr Hr0. qc2q.
  unfold inject_Z in *. cbn [Qinv Qnum Qden] in *.
  apply Qred_eq_iff in Hr. rewrite ?Qred_correct in Hr.
  assert (0 < (f - fm) * - r)%Q as P1
    by (apply Qmult_lt_0_compat; lra).
  assert (0 < (f - fp) * - r)%Q as P2
    by (apply Qmult_lt_0_compat; lra).
  assert (0 <= ((fp - fm) * (fp - fm)) * - r)%Q as P3.
  { apply Qmult_le_0_compat; [|lra].
    destruct (Qlt_le_dec (fp - fm) 0).
    - assert ((fp - fm) * (fp - fm) == (- (fp - fm)) * (- (fp - fm)))%Q as -> by ring.
      apply Qmult_le_0_compat; lra.
    - apply Qmult_le_0_compat; lra. }
  split; [|split]; lra.
Qed.

End RefineBounds.

(** ** The pair of rows kept for a column *)

Section PairFacts.
Import PeakSearch Refine.

(** order facts between rows and rational bounds *)
Ltac qn_names :=
  repeat lazymatch goal with
  | H : context [qn ?a] |- _ =>
      let q := fresh "q" in set (q := qn a) in *; clearbody q
  | |- context [qn ?a] =>
      let q := fresh "q" in set (q := qn a) in *; clearbody q
  end.
Ltac qn_order := qn_names; qc2q; lra.

Lemma qn_lt_inv (a b : nat) : (qn a < qn b)%Qc → (a < b)%nat.
Proof.
  intros H. destruct (decide (a < b)%nat) as [|Hn]; [done|]. exfalso.
  apply (Qclt_not_le _ _ H). apply qn_le. lia.
Qed.

Lemma above_spec (ys : Qc) (l : list nat) (r : nat) :
  r ∈ above ys l ↔ r ∈ l ∧ (ys < qn r)%Qc.
Proof.
  unfold above. rewrite select_map, list_elem_of_filter. simpl.
  rewrite bool_decide_eq_true. tauto.
Qed.

Lemma below_spec (ys : Qc) (l : list nat) (r : nat) :
  r ∈ below ys l ↔ r ∈ l ∧ (qn r < ys)%Qc.
Proof.
  unfold below. rewrite select_map, list_elem_of_filter. simpl.
  rewrite bool_decide_eq_true. tauto.
Qed.

Lemma sort2_ordered (a b : nat) :
  a ≠ b → ((sort2 (a, b)).1 < (sort2 (a, b)).2)%nat.
Proof. intros H. unfold sort2. simpl. case_bool_decide; simpl; lia. Qed.

Lemma sort2_straddle (ys : Qc) (s0 s1 a b : nat) :
  s0 ≠ s1 → sort2 (s0, s1) = (a, b) →
  bool_decide (qn s0 < ys)%Qc && bool_decide (qn s1 < ys)%Qc = false →
  bool_decide (ys < qn s0)%Qc && bool_decide (ys < qn s1)%Qc = false →
  (a < b)%nat ∧ (qn a <= ys)%Qc ∧ (ys <= qn b)%Qc.
Proof.
  intros Hne Hs Hb Ha.
  pose proof (sort2_ordered s0 s1 Hne) as Ho. rewrite Hs in Ho. simpl in Ho.
  split; [done|].
  assert (qn a <= qn b)%Qc as Hab by (apply qn_le; lia).
  apply andb_false_iff in Hb, Ha.
  rewrite !bool_decide_eq_false in Hb, Ha.
  destruct (sort2_cases s0 s1) as [[E _]|[E _]]; rewrite E in Hs;
    injection Hs as <- <-;
    destruct Hb as [Hb|Hb], Ha as [Ha|Ha];
    apply Qcnot_lt_le in Hb, Ha; split; qn_order.
Qed.

Lemma select_pair_script_kept (ys : Qc) (j_max : list nat) (a b : nat) :
  NoDup j_max →
  select_pair_script ys j_max = Some (true, (a, b)) →
  (a < b)%nat ∧ (qn a <= ys)%Qc ∧ (ys <= qn b)%Qc.
Proof.
  intros Hnd. destruct j_max as [|s0 [|s1 rest]]; [done..|].
  assert (s0 ≠ s1) as Hne.
  { apply NoDup_cons in Hnd as [Hn _]. intros ->. apply Hn. by left. }
  unfold select_pair_script. intros [= H]. revert H.
  destruct (bool_decide (qn s0 < ys)%Qc && bool_decide (qn s1 < ys)%Qc) eqn:Hb.
  { apply andb_true_iff in Hb as [B0 _]. apply bool_decide_eq_true in B0.
    destruct (above ys _) as [|r l] eqn:E; [done|]. intros [= <- <-].
    assert (r ∈ above ys (s0 :: s1 :: rest)) as Hr by (rewrite E; by left).
    apply above_spec in Hr as [_ Hr].
    split; [apply qn_lt_inv; qn_order|]. split; apply Qclt_le_weak; done. }
  destruct (bool_decide (ys < qn s0)%Qc && bool_decide (ys < qn s1)%Qc) eqn:Ha.
  { apply andb_true_iff in Ha as [_ C1]. apply bool_decide_eq_true in C1.
    destruct (below ys _) as [|r l] eqn:E; [done|]. intros [= <- <-].
    assert (r ∈ below ys (s0 :: s1 :: rest)) as Hr by (rewrite E; by left).
    apply below_spec in Hr as [_ Hr].
    split; [apply qn_lt_inv; qn_order|]. split; apply Qclt_le_weak; done. }
  intros [= H]. eapply sort2_straddle; done.
Qed.

(** the pair of [Surface._detect_surface] is always in increasing order *)
Lemma select_pair_class_ordered (ys : option Qc) (j_max : list nat)
    (ins : bool) (a b : nat) :
  NoDup j_max →
  select_pair_class ys j_max = Some (ins, (a, b)) → (a < b)%nat.
Proof.
  intros Hnd. destruct j_max as [|s0 [|s1 rest]]; [done..|].
  assert (s0 ≠ s1) as Hne.
  { apply NoDup_cons in Hnd as [Hn _]. intros ->. apply Hn. by left. }
  pose proof (sort2_ordered s0 s1 Hne) as Ho.
  unfold select_pair_class. cbv zeta. intros [= H]. revert H.
  destruct ys as [ys|]; [|intros H; injection H; intros Hs _; rewrite Hs in Ho; done].
  destruct (bool_decide (qn (sort2 (s0, s1)).2 < ys)%Qc) eqn:Hb.
  - apply bool_decide_eq_true in Hb.
    destruct (above ys _) as [|r l] eqn:E.
    + destruct (bool_decide _); intros H; injection H; intros Hs _; rewrite Hs in Ho; done.
    + assert (r ∈ above ys (s0 :: s1 :: rest)) as Hr by (rewrite E; by left).
      apply above_spec in Hr as [_ Hr].
      assert (qn s0 <= qn (sort2 (s0, s1)).2)%Qc as H0.
      { apply qn_le. destruct (sort2_cases s0 s1) as [[-> ?]|[-> ?]]; simpl; lia. }
      destruct (bool_decide _); intros [= _ <- <-]; apply qn_lt_inv; qn_order.
  - apply bool_decide_eq_false in Hb. cbv beta iota.
    case_bool_decide; intros Hp; injection Hp; intros Hs _; rewrite Hs in Ho; done.
Qed.

End PairFacts.

(** ** The columns kept by the scan *)

Section ScanKept.
Import PeakSearch Refine.

Lemma refine_pair_apart (store : num → num) (col : list Qc) (ins : bool) (a b : nat) :
  a ∈ candidates col → b ∈ candidates col → (a < b)%nat →
  ∃ y0 y1 f0 f1,
    refine_pair store col (ins, (a, b))
    = Ok (Column ins (a, b) (Fin y0, Fin y1) (store (Fin f0), store (Fin f1)))
    ∧ (y0 + 1 < y1)%Qc ∧ (at_q col a < f0)%Qc ∧ (at_q col b < f1)%Qc.
Proof.
  intros Ha Hb Hab.
  pose proof (candidates_apart col a b Ha Hb Hab) as Hgap.
  destruct (refine_near_row col a Ha) as (y0 & f0 & E0 & L0 & U0 & F0).
  destruct (refine_near_row col b Hb) as (y1 & f1 & E1 & L1 & U1 & F1).
  exists y0, y1, f0, f1. unfold refine_pair. simpl. rewrite E0. simpl. rewrite E1.
  split; [done|]. split; [|done].
  assert (qn a + qz 2 <= qn b)%Qc as Hq.
  { pose proof (qn_le (S (S a)) b Hgap) as H. rewrite !qn_S in H.
    revert H. generalize (qn a) (qn b). intros u v H. qc_lra. }
  revert L1 U0 Hq. generalize (qn a) (qn b). intros u v L1 U0 Hq. qc_lra.
Qed.

Lemma scan_column_script_shape (thr dx ys : Qc) (col : list Qc) (c : column) :
  scan_column_script thr dx ys col = Ok c → c.(in_surface) = true →
  ∃ a b y0 y1 f0 f1,
    column_kept c a b y0 y1
    ∧ a ∈ search_maxima col (Some thr) dx ∧ b ∈ search_maxima col (Some thr) dx
    ∧ (qn a <= ys)%Qc ∧ (ys <= qn b)%Qc
    ∧ c.(T_surf) = (Fin f0, Fin f1)
    ∧ (at_q col a < f0)%Qc ∧ (at_q col b < f1)%Qc.
Proof.
  unfold scan_column_script.
  destruct (select_pair_script _ _) as [[ins [a b]]|] eqn:Hsel;
    [|intros [= <-]; done].
  pose proof (select_pair_script_members _ _ _ Hsel) as [Ma Mb]. simpl in Ma, Mb.
  intros Hr Hin.
  assert (ins = true ∧ (a < b)%nat ∧ (qn a <= ys)%Qc ∧ (ys <= qn b)%Qc)
    as (-> & Hab & Hlo & Hhi).
  { destruct ins.
    - split; [done|]. eapply select_pair_script_kept; [|exact Hsel].
      apply search_maxima_NoDup.
    - exfalso. pose proof Ma as Ca%search_maxima_candidates.
      pose proof Mb as Cb%search_maxima_candidates.
      destruct (refine_pair_finite id col (false, (a, b)) Ca Cb)
        as (? & ? & ? & ? & E). rewrite E in Hr. injection Hr as <-. done. }
  destruct (refine_pair_apart id col true a b) as (y0 & y1 & f0 & f1 & E & Hy & F0 & F1);
    [eapply search_maxima_candidates; done..|done|].
  rewrite E in Hr. injection Hr as <-.
  exists a, b, y0, y1, f0, f1. unfold column_kept. simpl. tauto.
Qed.

Lemma scan_column_class_shape (Jy : num → num) (thr dx : Qc) (ys : option Qc)
    (col : list Qc) (c : column) :
  scan_column_class Jy thr dx ys col = Ok c → c.(in_surface) = true →
  ∃ a b y0 y1 f0 f1,
    column_kept c a b y0 y1
    ∧ a ∈ search_maxima col (Some thr) dx ∧ b ∈ search_maxima col (Some thr) dx
    ∧ (∀ s, ys = Some s → (s <= pair_mean (a, b))%Qc)
    ∧ c.(T_surf) = (Jy (Fin f0), Jy (Fin f1))
    ∧ (at_q col a < f0)%Qc ∧ (at_q col b < f1)%Qc.
Proof.
  unfold scan_column_class.
  destruct (select_pair_class _ _) as [[ins [a b]]|] eqn:Hsel;
    [|intros [= <-]; done].
  pose proof (select_pair_class_members _ _ _ Hsel) as [Ma Mb]. simpl in Ma, Mb.
  pose proof (select_pair_class_ordered _ _ _ _ _ (search_maxima_NoDup _ _ _) Hsel) as Hab.
  intros Hr Hin.
  destruct (refine_pair_apart Jy col ins a b) as (y0 & y1 & f0 & f1 & E & Hy & F0 & F1);
    [eapply search_maxima_candidates; done..|done|].
  rewrite E in Hr. injection Hr as <-. simpl in Hin. subst ins.
  exists a, b, y0, y1, f0, f1. unfold column_kept. simpl.
  repeat (split; [done|]). split; [|done].
  intros s ->. apply Qcnot_lt_le. eapply select_pair_class_midpoint. exact Hsel.
Qed.

(** X4.  A column that [detect_surface] keeps holds two rows [a < b]
    returned by [search_maxima] with the star between them
    ([a <= y_star <= b]); their refined positions are finite and more
    than one pixel apart. *)
Theorem scan_column_script_kept (thr dx ys : Qc) (col : list Qc) (c : column) :
  scan_column_script thr dx ys col = Ok c → c.(in_surface) = true →
  ∃ a b y0 y1,
    c.(j_surf) = (a, b)
    ∧ a ∈ search_maxima col (Some thr) dx ∧ b ∈ search_maxima col (Some thr) dx
    ∧ (a < b)%nat ∧ (qn a <= ys)%Qc ∧ (ys <= qn b)%Qc
    ∧ c.(j_surf_exact) = (Fin y0, Fin y1) ∧ (y0 + 1 < y1)%Qc.
Proof.
  intros Hs Hin.
  destruct (scan_column_script_shape thr dx ys col c Hs Hin)
    as (a & b & y0 & y1 & f0 & f1 & (Hj & Hab & He & Hy) & Ma & Mb & Hlo & Hhi & _).
  exists a, b, y0, y1. tauto.
Qed.

(** X5.  In [Surface._detect_surface] without [y_star] a column is kept
    exactly when [search_maxima] returns at least two maxima.  A kept
    column holds two rows [a < b] returned by [search_maxima], whose
    mean is not below [y_star] when one is given; their refined
    positions are finite and more than one pixel apart. *)
Theorem scan_column_class_kept (Jy : num → num) (thr dx : Qc) (ys : option Qc)
    (col : list Qc) (c : column) :
  scan_column_class Jy thr dx ys col = Ok c →
  (ys = None →
     (c.(in_surface) = true ↔ (2 ≤ length (search_maxima col (Some thr) dx))%nat))
  ∧ (c.(in_surface) = true →
     ∃ a b y0 y1,
       c.(j_surf) = (a, b)
       ∧ a ∈ search_maxima col (Some thr) dx ∧ b ∈ search_maxima col (Some thr) dx
       ∧ (a < b)%nat ∧ (∀ s, ys = Some s → (s <= pair_mean (a, b))%Qc)
       ∧ c.(j_surf_exact) = (Fin y0, Fin y1) ∧ (y0 + 1 < y1)%Qc).
Proof.
  intros Hs. split.
  - intros ->. revert Hs. unfold scan_column_class.
    destruct (search_maxima col (Some thr) dx) as [|s0 [|s1 rest]] eqn:Hj; simpl.
    + intros [= <-]. simpl. split; [done | lia].
    + intros [= <-]. simpl. split; [done | lia].
    + assert (s0 ∈ candidates col ∧ s1 ∈ candidates col) as [C0 C1].
      { split; apply (search_maxima_candidates col (Some thr) dx); rewrite Hj;
          [by left | right; by left]. }
      destruct (sort2_members s0 s1 (candidates col) C0 C1) as [M0 M1].
      destruct (refine_pair_finite Jy col (true, sort2 (s0, s1)) M0 M1)
        as (? & ? & ? & ? & ->).
      intros [= <-]. simpl. split; [lia | done].
  - intros Hin.
    destruct (scan_column_class_shape Jy thr dx ys col c Hs Hin)
      as (a & b & y0 & y1 & f0 & f1 & (Hj & Hab & He & Hy) & Ma & Mb & Hm & _).
    exists a, b, y0, y1. tauto.
Qed.

End ScanKept.

Lemma scan_column_script_kept_witness :
  ∃ a b y0 y1,
    example_column.(j_surf) = (a, b)
    ∧ a ∈ PeakSearch.search_maxima (image_column example_channel 0) (Some (qz 1)) (qz 1)
    ∧ b ∈ PeakSearch.search_maxima (image_column example_channel 0) (Some (qz 1)) (qz 1)
    ∧ (a < b)%nat ∧ (qn a <= qz 4)%Qc ∧ (qz 4 <= qn b)%Qc
    ∧ example_column.(j_surf_exact) = (Fin y0, Fin y1)
    ∧ (y0 + 1 < y1)%Qc.
Proof.
  apply (scan_column_script_kept (qz 1) (qz 1) (qz 4) (image_column example_channel 0));
    [vm_compute; reflexivity | reflexivity].
Defined.

Lemma scan_column_class_kept_witness :
  example_column.(in_surface) = true
  ↔ (2 ≤ length (PeakSearch.search_maxima (image_column example_channel 0)
                   (Some (qz 1)) (qz 1)))%nat.
Proof.
  apply (scan_column_class_kept id (qz 1) (qz 1) None (image_column example_channel 0));
    [vm_compute; reflexivity | reflexivity].
Defined.

(** ** What a channel saves *)

Lemma count_true_cons (b : bool) (mask : list bool) :
  count_true (b :: mask) = if b then S (count_true mask) else count_true mask.
Proof. destruct b; reflexivity. Qed.

Section SelectEntries.
Context {A : Type}.

Lemma select_entries (mask : list bool) (a : list A) (k0 : nat) :
  (length mask ≤ length a)%nat →
  Forall2 (fun i x => (k0 ≤ i)%nat ∧ mask !! (i - k0)%nat = Some true
                      ∧ a !! (i - k0)%nat = Some x)
          (where_from k0 mask) (select mask a).
Proof.
  revert a k0. induction mask as [|b mask IH]; intros a k0 Hlen; [constructor|].
  destruct a as [|x a]; [simpl in Hlen; lia|]. simpl in Hlen.
  assert (Forall2 (fun i y => (k0 ≤ i)%nat ∧ (b :: mask) !! (i - k0)%nat = Some true
                              ∧ (x :: a) !! (i - k0)%nat = Some y)
                  (where_from (S k0) mask) (select mask a)) as Htl.
  { eapply Forall2_impl; [apply (IH a (S k0)); lia|].
    intros i y (Hi & Hm & Ha). simpl in *.
    replace (i - k0)%nat with (S (i - S k0)) by lia. split; [lia|]. done. }
  simpl. destruct b; [|exact Htl].
  constructor; [|exact Htl].
  replace (k0 - k0)%nat with 0%nat by lia. done.
Qed.

Lemma select_length (mask : list bool) (a : list A) :
  (length mask ≤ length a)%nat → length (select mask a) = count_true mask.
Proof.
  revert a. induction mask as [|b mask IH]; intros a Hlen; [by destruct a|].
  destruct a as [|x a]; [simpl in Hlen; lia|]. simpl in Hlen.
  rewrite count_true_cons. destruct b; simpl; [f_equal|]; apply IH; lia.
Qed.

Lemma select_fmap {B} (f : A → B) (mask : list bool) (a : list A) :
  select mask (map f a) = map f (select mask a).
Proof.
  revert a. induction mask as [|b mask IH]; intros [|x a]; simpl; [done..|].
  destruct b; simpl; rewrite IH; done.
Qed.

End SelectEntries.

Lemma where_from_length (mask : list bool) (k : nat) :
  length (where_from k mask) = count_true mask.
Proof.
  revert k. induction mask as [|b mask IH]; intros k; [done|].
  rewrite count_true_cons. destruct b; simpl; [f_equal|]; apply IH.
Qed.

Lemma where_from_sorted (mask : list bool) (k : nat) :
  StronglySorted lt (where_from k mask).
Proof.
  revert k. induction mask as [|b mask IH]; intros k; simpl; [constructor|].
  destruct b; [|apply IH]. constructor; [apply IH|].
  apply Forall_forall. intros i Hi%where_from_ge. lia.
Qed.

Lemma where_from_bound (mask : list bool) (i : nat) :
  i ∈ where_from 0 mask → (i < length mask)%nat.
Proof.
  rewrite where_from_spec. intros (j & -> & Hj). simpl.
  eapply lookup_lt_Some. exact Hj.
Qed.

Lemma arange_lookup (n i : nat) (x : Qc) : arange n !! i = Some x → x = qn i.
Proof.
  unfold arange. rewrite list_lookup_fmap.
  destruct (seq 0 n !! i) as [j|] eqn:Hj; [|done].
  apply lookup_seq in Hj as [-> _]. simpl. congruence.
Qed.

Lemma arange_length (n : nat) : length (arange n) = n.
Proof. unfold arange. rewrite length_map, length_seq. done. Qed.

Lemma select_arange (mask : list bool) (n : nat) :
  (length mask ≤ n)%nat → select mask (arange n) = map qn (np_where mask).
Proof.
  intros Hlen.
  pose proof (select_entries mask (arange n) 0) as H.
  rewrite arange_length in H. specialize (H Hlen). unfold np_where.
  induction H as [|i x l l' (_ & _ & Hx) _ IH]; [done|].
  simpl. rewrite IH. f_equal. replace (i - 0)%nat with i in Hx by lia.
  eapply arange_lookup. exact Hx.
Qed.

Lemma fill_row_length {A} (zero : A) (nx : nat) (vals : list A) :
  (length vals ≤ nx)%nat → length (fill_row zero nx vals) = nx.
Proof. intros H. unfold fill_row. rewrite length_app, length_replicate. lia. Qed.

Lemma res_map_Forall2 {A B} (f : A → res B) (l : list A) (bs : list B) :
  res_map f l = Ok bs → Forall2 (fun a b => f a = Ok b) l bs.
Proof.
  revert bs. induction l as [|a l IH]; intros bs; simpl.
  - intros [= <-]. constructor.
  - destruct (f a) as [b|e] eqn:Ha; [|done]. simpl.
    destruct (res_map f l) as [bs'|e]; [|done]. simpl.
    intros [= <-]. constructor; [done|]. apply IH. done.
Qed.

Lemma count_true_le (mask : list bool) : (count_true mask ≤ length mask)%nat.
Proof. unfold count_true. apply length_filter. Qed.

Section SavedChannel.
Variable lstsq_degenerate : list Qc → list num → res (Qc * Qc).
Variable Jybeam_to_Tb : num → num.

Lemma prune_length (P : Qc * Qc) (cols : list column) :
  length (prune P cols) = length cols.
Proof. unfold prune. rewrite length_zip_with, arange_length. lia. Qed.

Lemma prune_lookup (P : Qc * Qc) (cols : list column) (i : nat) :
  prune P cols !! i = Some true →
  ∃ c, cols !! i = Some c ∧ c.(in_surface) = true ∧ straddles P (qn i) c = true.
Proof.
  unfold prune. rewrite lookup_zip_with.
  destruct (arange (length cols) !! i) as [x|] eqn:Hx; [|done]. simpl.
  apply arange_lookup in Hx as ->.
  destruct (cols !! i) as [c|]; [|done]. simpl.
  intros [= H]. apply andb_true_iff in H. eauto.
Qed.

Lemma two_pass_prune (cols : list column) (mask : list bool) :
  two_pass lstsq_degenerate cols = Ok mask → ∃ P, mask = prune P cols.
Proof.
  unfold two_pass. destruct (first_pass _ _) as [tmp|]; [|done]. simpl.
  destruct (fit_columns _ _ _) as [P|]; [|done]. simpl.
  intros [= <-]. eauto.
Qed.

(** the channel record in terms of the final mask *)
Lemma save_rows (nx : nat) (mask : list bool) (cols : list column) :
  length mask = length cols → length cols = nx →
  save nx mask cols
  = Channel (count_true mask)
      (fill_row 0%Qc nx (map qn (np_where mask)))
      (fill_row zero2 nx (select mask (map j_surf_exact cols)))
      (fill_row zero2 nx (select mask (map T_surf cols))).
Proof.
  intros Hm Hc. unfold save. cbv zeta.
  rewrite select_arange by lia.
  case_bool_decide as Hn; [done|].
  assert (count_true mask = 0)%nat as H0 by lia. rewrite H0.
  unfold np_where.
  pose proof (where_from_length mask 0) as Hw. rewrite H0 in Hw.
  apply nil_length_inv in Hw. rewrite Hw.
  rewrite !(select_none mask) by done.
  unfold fill_row. simpl. rewrite Nat.sub_0_r. done.
Qed.

Lemma in_surface_lookup (cols : list column) (i : nat) :
  map in_surface cols !! i = Some true →
  ∃ c, cols !! i = Some c ∧ c.(in_surface) = true.
Proof.
  rewrite list_lookup_fmap. destruct (cols !! i) as [c|]; [|done].
  simpl. intros [= H]. eauto.
Qed.

Lemma channel_init_saved (nx : nat) (cols : list column) :
  length cols = nx →
  saved_as nx cols (replicate nx false) (channel_init nx).
Proof.
  intros Hc. split; [apply length_replicate|]. split.
  - intros i Hi. apply lookup_replicate in Hi as [? _]. done.
  - assert (count_true (replicate nx false) = 0)%nat as H0.
    { clear. induction nx as [|n IH]; [done|]. exact IH. }
    pose proof (where_from_length (replicate nx false) 0) as Hw. rewrite H0 in Hw.
    apply nil_length_inv in Hw. unfold np_where. rewrite H0, Hw.
    rewrite !(select_none (replicate nx false)) by done.
    unfold fill_row, channel_init. simpl. rewrite Nat.sub_0_r. done.
Qed.

Lemma clean_script_saved (nx : nat) (cols : list column) (ch : channel) :
  length cols = nx →
  clean_script lstsq_degenerate nx cols = Ok ch →
  ∃ mask, saved_as nx cols mask ch
          ∧ (existsb id (map in_surface cols) = true → ∃ P, mask = prune P cols).
Proof.
  intros Hc. unfold clean_script.
  destruct (existsb id (map in_surface cols)) eqn:He.
  - destruct (two_pass _ _) as [mask|] eqn:Ht; [|done]. simpl. intros [= <-].
    destruct (two_pass_prune cols mask Ht) as [P ->].
    exists (prune P cols). split; [|eauto].
    split; [rewrite prune_length; done|]. split.
    + intros i (c & Hi & Hin & _)%prune_lookup. eauto.
    + apply save_rows; [apply prune_length | done].
  - intros [= <-]. exists (replicate nx false).
    split; [apply channel_init_saved; done | done].
Qed.

Lemma clean_class_saved (nx : nat) (cols : list column) (ch : channel) :
  length cols = nx →
  clean_class lstsq_degenerate nx cols = Ok ch →
  ∃ mask, saved_as nx cols mask ch
          ∧ ((2 < ch.(n_surf))%nat → ∃ P, mask = prune P cols).
Proof.
  intros Hc. unfold clean_class.
  destruct (existsb id (map in_surface cols)) eqn:He.
  - case_bool_decide as Hn.
    + destruct (two_pass _ _) as [mask|] eqn:Ht; [|done]. simpl. intros [= <-].
      destruct (two_pass_prune cols mask Ht) as [P ->].
      exists (prune P cols). split; [|eauto].
      split; [rewrite prune_length; done|]. split.
      * intros i (c & Hi & Hin & _)%prune_lookup. eauto.
      * apply save_rows; [apply prune_length | done].
    + simpl. intros [= <-]. exists (map in_surface cols).
      split.
      * split; [rewrite length_map; done|]. split; [apply in_surface_lookup|].
        apply save_rows; [apply length_map | done].
      * rewrite save_rows by (rewrite ?length_map; done). simpl. lia.
  - intros [= <-]. exists (replicate nx false).
    split; [apply channel_init_saved; done|]. simpl. lia.
Qed.

End SavedChannel.

Section ChannelTheorems.
Variable lstsq_degenerate : list Qc → list num → res (Qc * Qc).
Variable Jybeam_to_Tb : num → num.

Lemma fill_row_lookup {A} (zero : A) (nx : nat) (vals : list A) (k : nat) :
  (k < length vals)%nat → fill_row zero nx vals !! k = vals !! k.
Proof. intros H. unfold fill_row. apply lookup_app_l. done. Qed.

Lemma saved_lookup (nx : nat) (cols : list column) (mask : list bool)
    (ch : channel) (k : nat) :
  length cols = nx → saved_as nx cols mask ch → (k < ch.(n_surf))%nat →
  ∃ i c, mask !! i = Some true ∧ cols !! i = Some c ∧ c.(in_surface) = true
         ∧ ch.(x_surf) !! k = Some (qn i)
         ∧ ch.(y_surf) !! k = Some c.(j_surf_exact)
         ∧ ch.(Tb_surf) !! k = Some c.(T_surf).
Proof.
  intros Hc (Hm & Hin & ->) Hk. simpl in *.
  assert (length mask ≤ length cols)%nat as Hle by lia.
  pose proof (where_from_length mask 0) as Hw.
  destruct (lookup_lt_is_Some_2 (np_where mask) k) as [i Hi];
    [unfold np_where; lia|].
  pose proof (select_entries mask (map j_surf_exact cols) 0) as Hy.
  pose proof (select_entries mask (map T_surf cols) 0) as Ht.
  rewrite length_map in Hy, Ht. specialize (Hy Hle). specialize (Ht Hle).
  destruct (Forall2_lookup_l _ _ _ _ _ Hy Hi) as (y & Hyk & _ & Hmi & Hyi).
  destruct (Forall2_lookup_l _ _ _ _ _ Ht Hi) as (t & Htk & _ & _ & Hti).
  replace (i - 0)%nat with i in * by lia.
  destruct (Hin i Hmi) as (c & Hci & Hcin).
  rewrite list_lookup_fmap, Hci in Hyi, Hti. simpl in Hyi, Hti.
  injection Hyi as <-. injection Hti as <-.
  exists i, c. repeat (split; [done|]).
  rewrite !fill_row_lookup.
  - rewrite list_lookup_fmap, Hi. done.
  - eapply lookup_lt_Some. exact Htk.
  - eapply lookup_lt_Some. exact Hyk.
  - rewrite length_map. unfold np_where. lia.
Qed.

Lemma saved_layout (nx : nat) (cols : list column) (mask : list bool) (ch : channel) :
  length cols = nx → saved_as nx cols mask ch →
  let idx := np_where mask in
  ch.(n_surf) = length idx ∧ (length idx ≤ nx)%nat
  ∧ StronglySorted lt idx ∧ Forall (fun i => (i < nx)%nat) idx
  ∧ ch.(x_surf) = map qn idx ++ replicate (nx - length idx) 0%Qc
  ∧ length ch.(y_surf) = nx
  ∧ drop (length idx) ch.(y_surf) = replicate (nx - length idx) zero2
  ∧ length ch.(Tb_surf) = nx
  ∧ drop (length idx) ch.(Tb_surf) = replicate (nx - length idx) zero2.
Proof.
  intros Hc (Hm & Hin & ->) idx. simpl.
  pose proof (where_from_length mask 0) as Hw. fold (np_where mask) in Hw. fold idx in Hw.
  pose proof (count_true_le mask) as Hle.
  assert (length (select mask (map j_surf_exact cols)) = length idx) as Ly
    by (rewrite select_length; [lia | rewrite length_map; lia]).
  assert (length (select mask (map T_surf cols)) = length idx) as Lt
    by (rewrite select_length; [lia | rewrite length_map; lia]).
  split; [lia|]. split; [lia|]. split; [apply where_from_sorted|].
  split.
  { apply Forall_forall. intros i Hi%where_from_bound. lia. }
  split; [unfold fill_row; rewrite length_map; done|].
  split; [apply fill_row_length; lia|].
  split; [unfold fill_row; rewrite <- Ly, drop_app_length, Ly; done|].
  split; [apply fill_row_length; lia|].
  unfold fill_row. rewrite <- Lt, drop_app_length, Lt. done.
Qed.

Lemma detect_channel_script_cols (nx : nat) (thr dx ys : Qc) (im : list (list Qc))
    (ch : channel) :
  detect_channel_script lstsq_degenerate nx thr dx ys im = Ok ch →
  ∃ cols, length cols = nx
          ∧ (∀ i c, cols !! i = Some c →
                    (i < nx)%nat
                    ∧ scan_column_script thr dx ys (image_column im i) = Ok c)
          ∧ clean_script lstsq_degenerate nx cols = Ok ch.
Proof.
  unfold detect_channel_script.
  destruct (res_map _ (seq 0 nx)) as [cols|] eqn:Hr; [|done]. simpl.
  intros Hcl. exists cols. apply res_map_Forall2 in Hr.
  pose proof (Forall2_length _ _ _ Hr) as Hlen. rewrite length_seq in Hlen.
  split; [done|]. split; [|done].
  intros i c Hi.
  destruct (Forall2_lookup_r _ _ _ _ _ Hr Hi) as (j & Hj & Hs).
  apply lookup_seq in Hj as [-> ?]. split; [lia | done].
Qed.

Lemma detect_channel_class_cols (nx : nat) (thr dx : Qc) (ys : option Qc)
    (im : list (list Qc)) (ch : channel) :
  detect_channel_class lstsq_degenerate Jybeam_to_Tb nx thr dx ys im = Ok ch →
  ∃ cols, length cols = nx
          ∧ (∀ i c, cols !! i = Some c →
                    (i < nx)%nat
                    ∧ scan_column_class Jybeam_to_Tb thr dx ys (image_column im i) = Ok c)
          ∧ clean_class lstsq_degenerate nx cols = Ok ch.
Proof.
  unfold detect_channel_class.
  destruct (res_map _ (seq 0 nx)) as [cols|] eqn:Hr; [|done]. simpl.
  intros Hcl. exists cols. apply res_map_Forall2 in Hr.
  pose proof (Forall2_length _ _ _ Hr) as Hlen. rewrite length_seq in Hlen.
  split; [done|]. split; [|done].
  intros i c Hi.
  destruct (Forall2_lookup_r _ _ _ _ _ Hr Hi) as (j & Hj & Hs).
  apply lookup_seq in Hj as [-> ?]. split; [lia | done].
Qed.

(** X6.  The rows that either detector saves for a channel of [nx]
    columns: [n_surf] is at most [nx]; [x_surf] starts with [n_surf]
    column indices below [nx] in strictly increasing order and is zero
    from there on; [y_surf] and [Tb_surf] have [nx] entries and are
    zero from position [n_surf] on. *)
Theorem channel_layout (nx : nat) (thr dx ys : Qc) (yso : option Qc)
    (im : list (list Qc)) (ch : channel) :
  detect_channel_script lstsq_degenerate nx thr dx ys im = Ok ch
  ∨ detect_channel_class lstsq_degenerate Jybeam_to_Tb nx thr dx yso im = Ok ch →
  ∃ idx : list nat,
    ch.(n_surf) = length idx ∧ (length idx ≤ nx)%nat
    ∧ StronglySorted lt idx ∧ Forall (fun i => (i < nx)%nat) idx
    ∧ ch.(x_surf) = map qn idx ++ replicate (nx - length idx) 0%Qc
    ∧ length ch.(y_surf) = nx
    ∧ drop (length idx) ch.(y_surf) = replicate (nx - length idx) zero2
    ∧ length ch.(Tb_surf) = nx
    ∧ drop (length idx) ch.(Tb_surf) = replicate (nx - length idx) zero2.
Proof.
  intros [H|H].
  - destruct (detect_channel_script_cols _ _ _ _ _ _ H) as (cols & Hc & _ & Hcl).
    destruct (clean_script_saved _ _ _ _ Hc Hcl) as (mask & Hs & _).
    exists (np_where mask). apply (saved_layout nx cols mask ch Hc Hs).
  - destruct (detect_channel_class_cols _ _ _ _ _ _ H) as (cols & Hc & _ & Hcl).
    destruct (clean_class_saved _ _ _ _ Hc Hcl) as (mask & Hs & _).
    exists (np_where mask). apply (saved_layout nx cols mask ch Hc Hs).
Qed.

(** X7.  Entry [k < n_surf] of a saved channel is a column [i] of the
    image that the column scan kept: [x_surf[k]] is [i], [y_surf[k]] and
    [Tb_surf[k]] are the refined positions and peak values that the scan
    computed for column [i], unchanged by the cleaning; the two
    positions are finite and more than one pixel apart. *)
Theorem saved_entries (nx : nat) (thr dx ys : Qc) (yso : option Qc)
    (im : list (list Qc)) (ch : channel) (k : nat) :
  (k < ch.(n_surf))%nat →
  (detect_channel_script lstsq_degenerate nx thr dx ys im = Ok ch →
   ∃ i c y0 y1,
     (i < nx)%nat
     ∧ scan_column_script thr dx ys (image_column im i) = Ok c
     ∧ c.(in_surface) = true
     ∧ ch.(x_surf) !! k = Some (qn i)
     ∧ ch.(y_surf) !! k = Some (Fin y0, Fin y1) ∧ (y0 + 1 < y1)%Qc
     ∧ c.(j_surf_exact) = (Fin y0, Fin y1)
     ∧ ch.(Tb_surf) !! k = Some c.(T_surf))
  ∧ (detect_channel_class lstsq_degenerate Jybeam_to_Tb nx thr dx yso im = Ok ch →
     ∃ i c y0 y1,
       (i < nx)%nat
       ∧ scan_column_class Jybeam_to_Tb thr dx yso (image_column im i) = Ok c
       ∧ c.(in_surface) = true
       ∧ ch.(x_surf) !! k = Some (qn i)
       ∧ ch.(y_surf) !! k = Some (Fin y0, Fin y1) ∧ (y0 + 1 < y1)%Qc
       ∧ c.(j_surf_exact) = (Fin y0, Fin y1)
       ∧ ch.(Tb_surf) !! k = Some c.(T_surf)).
Proof.
  intros Hk. split; intros H.
  - destruct (detect_channel_script_cols _ _ _ _ _ _ H) as (cols & Hc & Hscan & Hcl).
    destruct (clean_script_saved _ _ _ _ Hc Hcl) as (mask & Hs & _).
    destruct (saved_lookup nx cols mask ch k Hc Hs Hk)
      as (i & c & _ & Hci & Hin & Hx & Hy & Ht).
    destruct (Hscan i c Hci) as [Hi Hsc].
    destruct (scan_column_script_shape _ _ _ _ _ Hsc Hin)
      as (a & b & y0 & y1 & f0 & f1 & (_ & _ & He & Hlt) & _).
    exists i, c, y0, y1. rewrite <- He. tauto.
  - destruct (detect_channel_class_cols _ _ _ _ _ _ H) as (cols & Hc & Hscan & Hcl).
    destruct (clean_class_saved _ _ _ _ Hc Hcl) as (mask & Hs & _).
    destruct (saved_lookup nx cols mask ch k Hc Hs Hk)
      as (i & c & _ & Hci & Hin & Hx & Hy & Ht).
    destruct (Hscan i c Hci) as [Hi Hsc].
    destruct (scan_column_class_shape _ _ _ _ _ _ Hsc Hin)
      as (a & b & y0 & y1 & f0 & f1 & (_ & _ & He & Hlt) & _).
    exists i, c, y0, y1. rewrite <- He. tauto.
Qed.

Lemma straddles_fin (P : Qc * Qc) (x : Qc) (c : column) (y0 y1 : Qc) :
  c.(j_surf_exact) = (Fin y0, Fin y1) → straddles P x c = true →
  (y0 < P.2 + P.1 * x)%Qc ∧ (P.2 + P.1 * x < y1)%Qc.
Proof.
  unfold straddles, line_at. intros ->. simpl.
  rewrite andb_true_iff, !bool_decide_eq_true. done.
Qed.

Lemma saved_around_line (nx : nat) (cols : list column) (P : Qc * Qc)
    (ch : channel) (k : nat) :
  length cols = nx → saved_as nx cols (prune P cols) ch → (k < ch.(n_surf))%nat →
  (∀ i c, cols !! i = Some c → c.(in_surface) = true →
          ∃ y0 y1, c.(j_surf_exact) = (Fin y0, Fin y1)) →
  ∃ i y0 y1,
    ch.(x_surf) !! k = Some (qn i) ∧ ch.(y_surf) !! k = Some (Fin y0, Fin y1)
    ∧ (y0 < P.2 + P.1 * qn i)%Qc ∧ (P.2 + P.1 * qn i < y1)%Qc.
Proof.
  intros Hc Hs Hk Hfin.
  destruct (saved_lookup nx cols _ ch k Hc Hs Hk)
    as (i & c & Hm & Hci & Hin & Hx & Hy & _).
  destruct (prune_lookup P cols i Hm) as (c' & Hci' & _ & Hst).
  rewrite Hci in Hci'. injection Hci' as <-.
  destruct (Hfin i c Hci Hin) as (y0 & y1 & He).
  exists i, y0, y1. rewrite <- He.
  split; [done|]. split; [done|]. eapply straddles_fin; done.
Qed.

(** X8.  Whatever [detect_surface] saves for a channel lies around one
    straight line [P[1] + P[0]*x]: in every saved column the lower
    position is strictly below the line and the upper one strictly
    above it.  The same holds in [Surface._detect_surface] for a channel
    with more than two saved columns. *)
Theorem saved_columns_around_line (nx : nat) (thr dx ys : Qc) (yso : option Qc)
    (im : list (list Qc)) (ch : channel) :
  (detect_channel_script lstsq_degenerate nx thr dx ys im = Ok ch →
   ∃ P : Qc * Qc, ∀ k, (k < ch.(n_surf))%nat →
     ∃ i y0 y1,
       ch.(x_surf) !! k = Some (qn i) ∧ ch.(y_surf) !! k = Some (Fin y0, Fin y1)
       ∧ (y0 < P.2 + P.1 * qn i)%Qc ∧ (P.2 + P.1 * qn i < y1)%Qc)
  ∧ (detect_channel_class lstsq_degenerate Jybeam_to_Tb nx thr dx yso im = Ok ch →
     (2 < ch.(n_surf))%nat →
     ∃ P : Qc * Qc, ∀ k, (k < ch.(n_surf))%nat →
       ∃ i y0 y1,
         ch.(x_surf) !! k = Some (qn i) ∧ ch.(y_surf) !! k = Some (Fin y0, Fin y1)
         ∧ (y0 < P.2 + P.1 * qn i)%Qc ∧ (P.2 + P.1 * qn i < y1)%Qc).
Proof.
  split.
  - intros H.
    destruct (detect_channel_script_cols _ _ _ _ _ _ H) as (cols & Hc & Hscan & Hcl).
    destruct (clean_script_saved _ _ _ _ Hc Hcl) as (mask & Hs & HP).
    destruct (existsb id (map in_surface cols)) eqn:He.
    + destruct (HP eq_refl) as [P ->]. exists P. intros k Hk.
      apply (saved_around_line nx cols P ch k Hc Hs Hk).
      intros i c Hci Hin. destruct (Hscan i c Hci) as [_ Hsc].
      destruct (scan_column_script_shape _ _ _ _ _ Hsc Hin)
        as (a & b & y0 & y1 & f0 & f1 & (_ & _ & Hj & _) & _). eauto.
    + exists (0%Qc, 0%Qc). intros k Hk. exfalso.
      revert Hcl Hk. unfold clean_script. rewrite He. intros [= <-]. simpl. lia.
  - intros H Hn.
    destruct (detect_channel_class_cols _ _ _ _ _ _ H) as (cols & Hc & Hscan & Hcl).
    destruct (clean_class_saved _ _ _ _ Hc Hcl) as (mask & Hs & HP).
    destruct (HP Hn) as [P ->]. exists P. intros k Hk.
    apply (saved_around_line nx cols P ch k Hc Hs Hk).
    intros i c Hci Hin. destruct (Hscan i c Hci) as [_ Hsc].
    destruct (scan_column_class_shape _ _ _ _ _ _ Hsc Hin)
      as (a & b & y0 & y1 & f0 & f1 & (_ & _ & Hj & _) & _). eauto.
Qed.

End ChannelTheorems.

Lemma channel_layout_witness :
  ∃ idx : list nat,
    example_saved.(n_surf) = length idx ∧ (length idx ≤ 3)%nat
    ∧ StronglySorted lt idx ∧ Forall (fun i => (i < 3)%nat) idx
    ∧ example_saved.(x_surf) = map qn idx ++ replicate (3 - length idx) 0%Qc
    ∧ length example_saved.(y_surf) = 3%nat
    ∧ drop (length idx) example_saved.(y_surf) = replicate (3 - length idx) zero2
    ∧ length example_saved.(Tb_surf) = 3%nat
    ∧ drop (length idx) example_saved.(Tb_surf) = replicate (3 - length idx) zero2.
Proof.
  apply (channel_layout lstsq_gives_up id 3 (qz 1) (qz 1) (qz 4) None example_channel).
  left. vm_compute. reflexivity.
Defined.

Lemma saved_entries_witness :
  ∃ i c y0 y1,
    (i < 3)%nat
    ∧ scan_column_script (qz 1) (qz 1) (qz 4) (image_column example_channel i) = Ok c
    ∧ c.(in_surface) = true
    ∧ example_saved.(x_surf) !! 0%nat = Some (qn i)
    ∧ example_saved.(y_surf) !! 0%nat = Some (Fin y0, Fin y1) ∧ (y0 + 1 < y1)%Qc
    ∧ c.(j_surf_exact) = (Fin y0, Fin y1)
    ∧ example_saved.(Tb_surf) !! 0%nat = Some c.(T_surf).
Proof.
  assert (0 < example_saved.(n_surf))%nat as Hk by (vm_compute; lia).
  apply (proj1 (saved_entries lstsq_gives_up id 3 (qz 1) (qz 1) (qz 4) None
                  example_channel example_saved 0 Hk)).
  vm_compute. reflexivity.
Defined.

Lemma saved_columns_around_line_witness :
  ∃ P : Qc * Qc, ∀ k, (k < example_saved.(n_surf))%nat →
    ∃ i y0 y1,
      example_saved.(x_surf) !! k = Some (qn i)
      ∧ example_saved.(y_surf) !! k = Some (Fin y0, Fin y1)
      ∧ (y0 < P.2 + P.1 * qn i)%Qc ∧ (P.2 + P.1 * qn i < y1)%Qc.
Proof.
  apply (proj1 (saved_columns_around_line lstsq_gives_up id 3 (qz 1) (qz 1) (qz 4) None
                  example_channel example_saved)).
  vm_compute. reflexivity.
Defined.

(** ** Channels that stop the run, channels saved without a fit *)

Section ChannelEdges.
Variable lstsq_degenerate : list Qc → list num → res (Qc * Qc).
Variable Jybeam_to_Tb : num → num.
Variable np : library.

Lemma res_map_raise {A B} (f : A → res B) (l1 l2 : list A) (a : A) (e : exn) :
  f a = Raise e → ∀ r, res_map f (l1 ++ a :: l2) ≠ Ok r.
Proof.
  intros Ha r. rewrite res_map_app. simpl. rewrite Ha.
  destruct (res_map f l1); done.
Qed.

(** X9.  When the first fit of a channel leaves no column, the second
    [np.polyfit] gets empty arrays: the channel raises [TypeError] and
    the run over any cube that holds this channel returns nothing.  In
    [Surface._detect_surface] this needs more than two columns in the
    surface. *)
Theorem no_survivor_stops_run (nx : nat) (thr dx ys : Qc) (yso : option Qc)
    (im : list (list Qc)) :
  (∀ cols tmp,
     scanned_script nx thr dx ys im = Ok cols →
     existsb id (map in_surface cols) = true →
     first_pass lstsq_degenerate cols = Ok tmp → count_true tmp = 0%nat →
     detect_channel_script lstsq_degenerate nx thr dx ys im = Raise TypeError
     ∧ ∀ before raw after PA s r,
         rotated np PA raw = im →
         (∀ noise, (before ++ raw :: after) !! 1%nat = Some noise →
                   (Fin s * np.(nanstd) noise)%num = Fin thr) →
         detect_surface lstsq_degenerate np (before ++ raw :: after) nx dx PA
           (Some s) (Some ys) ≠ Ok r)
  ∧ (∀ cols tmp,
       scanned_class Jybeam_to_Tb nx thr dx yso im = Ok cols →
       (2 < count_true (map in_surface cols))%nat →
       first_pass lstsq_degenerate cols = Ok tmp → count_true tmp = 0%nat →
       detect_channel_class lstsq_degenerate Jybeam_to_Tb nx thr dx yso im
       = Raise TypeError
       ∧ ∀ before raw after PA s r,
           rotated np PA raw = im →
           (∀ noise, (before ++ raw :: after) !! 1%nat = Some noise →
                     (Fin s * np.(nanstd) noise)%num = Fin thr) →
           _detect_surface lstsq_degenerate Jybeam_to_Tb np (before ++ raw :: after) nx dx
             PA (Some s) yso ≠ Ok r).
Proof.
  split; intros cols tmp Hs.
  - intros He Hf Hn.
    assert (detect_channel_script lstsq_degenerate nx thr dx ys im = Raise TypeError) as Hd.
    { change (detect_channel_script lstsq_degenerate nx thr dx ys im)
        with (do cols <- scanned_script nx thr dx ys im;
              clean_script lstsq_degenerate nx cols).
      rewrite Hs. simpl. eapply empty_survivors_raise; done. }
    split; [done|]. intros before raw after PA s r Him Hthr.
    unfold detect_surface.
    destruct ((before ++ raw :: after) !! 1%nat) as [noise|] eqn:Hnoise; [|done].
    unfold channels_script. eapply res_map_raise.
    rewrite (channel_script_finite _ _ _ _ _ thr) by (by apply Hthr).
    rewrite Him. exact Hd.
  - intros Hc Hf Hn.
    assert (existsb id (map in_surface cols) = true) as He.
    { destruct (existsb id (map in_surface cols)) eqn:E; [done|].
      apply exists_count in E. lia. }
    assert (detect_channel_class lstsq_degenerate Jybeam_to_Tb nx thr dx yso im
            = Raise TypeError) as Hd.
    { change (detect_channel_class lstsq_degenerate Jybeam_to_Tb nx thr dx yso im)
        with (do cols <- scanned_class Jybeam_to_Tb nx thr dx yso im;
              clean_class lstsq_degenerate nx cols).
      rewrite Hs. simpl.
      eapply (empty_survivors_raise lstsq_degenerate nx cols tmp); done. }
    split; [done|]. intros before raw after PA s r Him Hthr.
    unfold _detect_surface.
    destruct ((before ++ raw :: after) !! 1%nat) as [noise|] eqn:Hnoise; [|done].
    unfold channels_class. eapply res_map_raise.
    rewrite (channel_class_finite _ _ _ _ _ thr) by (by apply Hthr).
    rewrite Him. exact Hd.
Qed.

(** X10.  In [Surface._detect_surface] a channel with at most two
    columns in the surface is saved without any fit: every column that
    the scan kept is stored, in column order. *)
Theorem class_few_columns_unfiltered (nx : nat) (thr dx : Qc) (yso : option Qc)
    (im : list (list Qc)) (cols : list column) :
  scanned_class Jybeam_to_Tb nx thr dx yso im = Ok cols →
  (count_true (map in_surface cols) ≤ 2)%nat →
  ∃ ch, detect_channel_class lstsq_degenerate Jybeam_to_Tb nx thr dx yso im = Ok ch
        ∧ ch.(n_surf) = count_true (map in_surface cols)
        ∧ ch.(x_surf) = fill_row 0%Qc nx (map qn (np_where (map in_surface cols)))
        ∧ ch.(y_surf)
          = fill_row zero2 nx (map j_surf_exact (filter (fun c => c.(in_surface) = true) cols)).
Proof.
  intros Hs Hn.
  assert (length cols = nx) as Hc.
  { apply res_map_Forall2, Forall2_length in Hs. rewrite length_seq in Hs. done. }
  change (detect_channel_class lstsq_degenerate Jybeam_to_Tb nx thr dx yso im)
    with (do cols <- scanned_class Jybeam_to_Tb nx thr dx yso im;
          clean_class lstsq_degenerate nx cols).
  rewrite Hs. simpl. unfold clean_class.
  rewrite (bool_decide_eq_false_2 (2 < _)%nat) by lia.
  assert (save nx (map in_surface cols) cols
          = Channel (count_true (map in_surface cols))
              (fill_row 0%Qc nx (map qn (np_where (map in_surface cols))))
              (fill_row zero2 nx
                 (map j_surf_exact (filter (fun c => c.(in_surface) = true) cols)))
              (fill_row zero2 nx (select (map in_surface cols) (map T_surf cols)))) as Hsave.
  { rewrite save_rows by (rewrite ?length_map; done).
    rewrite (select_fmap j_surf_exact), select_map. done. }
  destruct (existsb id (map in_surface cols)) eqn:He.
  - simpl. eexists. split; [done|]. rewrite Hsave. done.
  - exists (channel_init nx). split; [done|].
    assert (channel_init nx = save nx (map in_surface cols) cols) as ->
      by (unfold save; cbv zeta; rewrite (exists_count _ He); done).
    rewrite Hsave. done.
Qed.

End ChannelEdges.

Lemma no_survivor_stops_run_witness :
  detect_channel_class lstsq_gives_up id 3 (qz 1 * qz 1) (qz 1) None outlier_channel
  = Raise TypeError
  ∧ ∀ r, _detect_surface lstsq_gives_up id example_library
           ([] ++ as_read outlier_channel :: [as_read noise_channel]) 3 (qz 1)
           None (Some (qz 1)) None ≠ Ok r.
Proof.
  destruct (proj2 (no_survivor_stops_run lstsq_gives_up id example_library 3
                     (qz 1 * qz 1) (qz 1) 0%Qc None outlier_channel)
              outlier_columns [false; false; false]) as [Hch Hrun].
  - vm_compute. reflexivity.
  - vm_compute. lia.
  - vm_compute. reflexivity.
  - reflexivity.
  - split; [exact Hch|]. intros r.
    apply (Hrun [] (as_read outlier_channel) [as_read noise_channel] None (qz 1) r).
    + vm_compute. reflexivity.
    + intros noise _. reflexivity.
Defined.

Lemma class_few_columns_unfiltered_witness :
  ∃ ch, detect_channel_class lstsq_gives_up id 3 (qz 1) (qz 1) None two_column_channel
        = Ok ch
        ∧ ch.(n_surf) = count_true (map in_surface two_columns)
        ∧ ch.(x_surf) = fill_row 0%Qc 3 (map qn (np_where (map in_surface two_columns)))
        ∧ ch.(y_surf)
          = fill_row zero2 3
              (map j_surf_exact (filter (fun c => c.(in_surface) = true) two_columns)).
Proof.
  apply (class_few_columns_unfiltered lstsq_gives_up id 3 (qz 1) (qz 1) None
           two_column_channel two_columns).
  - vm_compute. reflexivity.
  - vm_compute. lia.
Defined.

(** ** Deprojection: the zero-filled entries and the bounds of the outputs *)

Section Variants.
Variables (E : externals) (g : geometry).

Lemma nlt_fin_true (x y : Qc) : (x < y)%Qc → (Fin x <? Fin y)%num = true.
Proof. intros H. cbn [nlt]. apply bool_decide_eq_true_2. exact H. Qed.

Lemma Qc_neg_quotient (y s px : Qc) :
  (0 < y)%Qc → (0 < s)%Qc → (0 < px)%Qc → (- y / s * px < 0)%Qc.
Proof.
  intros Hy Hs Hp.
  assert (∃ r, (s * r = 1)%Qc ∧ (0 < r)%Qc ∧ (- y / s = - y * r)%Qc) as (r & Hr & Hr0 & ->).
  { exists (/ s)%Qc.
    assert (s ≠ 0%Qc) as Hs0 by (intros ->; revert Hs; by vm_compute).
    split; [apply Qcmult_inv_r; done|]. split; [|done].
    destruct (Qclt_le_dec 0 (/ s)) as [|Hle]; [done|]. exfalso.
    assert (s * / s <= 0)%Qc as H.
    { revert Hle Hs. generalize (/ s)%Qc. intros t Ht Hs'. qc2q. nra. }
    rewrite Qcmult_inv_r in H by done. revert H. by vm_compute. }
  qc2q. apply Qred_eq_iff in Hr. rewrite ?Qred_correct in Hr.
  assert (0 < y * r)%Q by (apply Qmult_lt_0_compat; done).
  assert (0 < y * r * px)%Q by (apply Qmult_lt_0_compat; done).
  lra.
Qed.

(** the height of an entry of the zero-filled tail is negative *)
Lemma padding_heights_negative (p : point) :
  p.(p_y) = zero2 →
  (0 < g.(y_star))%Qc → (0 < g.(sin_i))%Qc → (0 < g.(pixelscale))%Qc →
  (Class.h_of g p <? Fin 0%Qc)%num = true
  ∧ (Script.h_of g None false p <? Fin 0%Qc)%num = true
  ∧ ∀ d, (0 < d)%Qc → (Script.h_of g (Some d) false p <? Fin 0%Qc)%num = true.
Proof.
  intros Hp Hy Hs Hpx.
  assert (g.(sin_i) ≠ 0%Qc) as Hs0 by (intros E0; rewrite E0 in Hs; revert Hs; by vm_compute).
  assert (¬ (this g.(sin_i) == 0)%Q) as Hs0'
    by (intros Hq; apply Hs0; apply Qc_is_canon; exact Hq).
  pose proof (Qc_neg_quotient _ _ _ Hy Hs Hpx) as Hneg.
  assert (Class.h_of g p = Fin (- g.(y_star) / g.(sin_i) * g.(pixelscale))%Qc) as Hc.
  { unfold Class.h_of, Class.h_px, Class.y_c, Class.y_n, Class.y_f, zero2 in *.
    rewrite Hp. cbn [fst snd nsub nadd nneg nmul ndiv].
    rewrite (bool_decide_eq_false_2 _ Hs0). cbn [nmul].
    f_equal. to_Q. field. exact Hs0'. }
  assert (Script.h_of g None false p
          = Fin (- g.(y_star) / g.(sin_i) * g.(pixelscale))%Qc) as Hn.
  { unfold Script.h_of, Script.to_length, Script.h_px, Script.h_raw, Script.y_c, zero2 in *.
    rewrite Hp. cbn [fst snd nsub nadd nneg nmul ndiv].
    rewrite (bool_decide_eq_false_2 (qz 2 = 0)%Qc) by (by vm_compute).
    cbn [nsub nadd nneg nmul ndiv].
    rewrite (bool_decide_eq_false_2 _ Hs0). cbn [nmul].
    f_equal. to_Q. field. exact Hs0'. }
  split; [rewrite Hc; apply nlt_fin_true; done|].
  split; [rewrite Hn; apply nlt_fin_true; done|].
  intros d Hd.
  assert (Script.h_of g (Some d) false p
          = Fin (- g.(y_star) / g.(sin_i) * g.(pixelscale) * d)%Qc) as ->.
  { unfold Script.h_of in *. unfold Script.to_length in *. rewrite Hn. reflexivity. }
  apply nlt_fin_true.
  revert Hneg Hd. generalize (- y_star g / sin_i g * pixelscale g)%Qc.
  intros t Ht Hd. qc2q. nra.
Qed.

(** X12.  With the star above row 0, [sin(inc) > 0] and a positive
    pixel scale, an entry of the zero-filled tail of the detector's rows
    ([y = (0, 0)]) gets a negative height: [_compute_surface] masks it,
    and so does [measure_mol_surface] when the heights are not flipped,
    with or without a positive [distance]. *)
Theorem padding_entries_masked (p : point) :
  p.(p_y) = zero2 →
  (0 < g.(y_star))%Qc → (0 < g.(sin_i))%Qc → (0 < g.(pixelscale))%Qc →
  Class.mask_of E g p = true
  ∧ Script.mask2 E g None false p = true
  ∧ ∀ d, (0 < d)%Qc → Script.mask2 E g (Some d) false p = true.
Proof.
  intros Hp Hy Hs Hpx.
  destruct (padding_heights_negative p Hp Hy Hs Hpx) as (Hc & Hn & Hd).
  split; [|split].
  - unfold Class.mask_of. rewrite Hc. reflexivity.
  - unfold Script.mask2, Script.mask1. rewrite Hn. reflexivity.
  - intros d Hpos. unfold Script.mask2, Script.mask1. rewrite (Hd d Hpos). reflexivity.
Qed.

(** X13.  The four arrays returned by [measure_mol_surface] have the
    same length, at most the number of detector entries; every returned
    radius is finite and at most 400, every returned velocity is finite
    and not negative. *)
Theorem script_outputs_bounded (d : option Qc) (pts : list point) :
  let out := Script.measure_mol_surface E g pts d in
  length out.1.1.2 = length out.1.1.1
  ∧ length out.1.2 = length out.1.1.1
  ∧ length out.2 = length out.1.1.1
  ∧ (length out.1.1.1 ≤ length pts)%nat
  ∧ Forall (fun r => ∃ q, r = Fin q ∧ (q <= qz 400)%Qc) out.1.1.1
  ∧ Forall (fun v => ∃ q, v = Fin q ∧ (0 <= q)%Qc) out.1.2.
Proof.
  intros out. subst out. rewrite measure_mol_surface_points. simpl.
  rewrite !length_map.
  split; [done|]. split; [done|]. split; [done|].
  split; [apply sublist_length, script_returned_sublist|].
  split.
  - apply Forall_fmap, Forall_forall. intros p (Hm & _)%script_returned_kept.
    destruct (script_unmasked E g d _ p Hm)
      as (a & b & hq & vq & rq & _ & _ & _ & _ & Hr & Hle & _).
    simpl. eauto.
  - destruct (script_velocities_nonneg E g d pts) as (qs & -> & Hqs).
    apply Forall_fmap. eapply Forall_impl; [exact Hqs|]. simpl. eauto.
Qed.

End Variants.

Lemma padding_entries_masked_witness :
  Class.mask_of example_externals example_geometry point_padding = true.
Proof.
  apply (padding_entries_masked example_externals example_geometry point_padding);
    [reflexivity | by vm_compute..].
Defined.

(** ** The result container *)

Lemma string_length_app (a b : string) :
  String.length (a +:+ b) = (String.length a + String.length b)%nat.
Proof. induction a as [|c a IH]; simpl; [done|]. rewrite IH. done. Qed.

Lemma string_leb_refl (a : string) : String.leb a a = true.
Proof.
  unfold String.leb. destruct (String.leb_total a a) as [H|H]; exact H.
Qed.

Lemma ascii_compare_lt (a b : Ascii.ascii) :
  Ascii.compare a b = Lt ↔ (Ascii.N_of_ascii a < Ascii.N_of_ascii b)%N.
Proof. unfold Ascii.compare. apply N.compare_lt_iff. Qed.

Lemma ascii_compare_gt (a b : Ascii.ascii) :
  Ascii.compare a b = Gt ↔ (Ascii.N_of_ascii b < Ascii.N_of_ascii a)%N.
Proof. unfold Ascii.compare. apply N.compare_gt_iff. Qed.

Lemma string_leb_trans (a b c : string) :
  String.leb a b = true → String.leb b c = true → String.leb a c = true.
Proof.
  unfold String.leb. revert b c.
  induction a as [|x a IH]; intros [|y b] [|z c]; simpl; try done.
  unfold Ascii.compare.
  destruct (N.compare_spec (Ascii.N_of_ascii x) (Ascii.N_of_ascii y)) as [Exy|Exy|Exy];
    destruct (N.compare_spec (Ascii.N_of_ascii y) (Ascii.N_of_ascii z)) as [Eyz|Eyz|Eyz];
    destruct (N.compare_spec (Ascii.N_of_ascii x) (Ascii.N_of_ascii z)) as [Exz|Exz|Exz];
    try done; try (intros; exfalso; lia).
  apply IH.
Qed.

Section DictFacts.
Import SurfaceDict.
Variable V : Type.

Local Abbreviation dict := (SurfaceDict.dict V).

Lemma getitem_setitem (d : dict) (k : string) (v : V) :
  getitem V (setitem V d k v) k = Some v.
Proof.
  induction d as [|[k' v'] d IH]; simpl.
  - rewrite decide_True; done.
  - destruct (decide (k' = k)) as [->|Hne]; simpl.
    + rewrite decide_True; done.
    + rewrite decide_False; done.
Qed.

Lemma getitem_setitem_ne (d : dict) (k k' : string) (v : V) :
  k' ≠ k → getitem V (setitem V d k v) k' = getitem V d k'.
Proof.
  intros Hne. induction d as [|[k0 v0] d IH]; simpl.
  - rewrite decide_False; done.
  - destruct (decide (k0 = k)) as [->|H0]; simpl.
    + rewrite !decide_False by done. done.
    + destruct (decide (k0 = k')); done.
Qed.

Lemma getitem_None (d : dict) (k : string) :
  getitem V d k = None ↔ k ∉ keys V d.
Proof.
  unfold keys. induction d as [|[k' v'] d IH]; simpl.
  - split; [intros _ H; inversion H | done].
  - rewrite not_elem_of_cons. destruct (decide (k' = k)) as [->|Hne].
    + split; [done | intros [H _]; done].
    + rewrite IH. split; [intros H; split; [congruence | done] | tauto].
Qed.

Lemma getitem_Some (d : dict) (k : string) :
  k ∈ keys V d ↔ ∃ v, getitem V d k = Some v.
Proof.
  destruct (getitem V d k) as [v|] eqn:Hg.
  - split; [eauto|]. intros _.
    destruct (decide (k ∈ keys V d)) as [|Hn]; [done|].
    apply getitem_None in Hn. congruence.
  - split; [|intros [v Hv]; done].
    intros Hin. apply getitem_None in Hg. done.
Qed.

Lemma delitem_None (d : dict) (k : string) :
  delitem V d k = None ↔ k ∉ keys V d.
Proof.
  unfold keys. induction d as [|[k' v'] d IH]; simpl.
  - split; [intros _ H; inversion H | done].
  - rewrite not_elem_of_cons. destruct (decide (k' = k)) as [->|Hne].
    + split; [done | intros [H _]; done].
    + destruct (delitem V d k) as [d'|].
      * split; [done|]. intros [_ H]. apply IH in H. done.
      * split; [intros _; split; [congruence | apply IH; done] | done].
Qed.

Lemma keys_cons (k : string) (v : V) (d : dict) :
  keys V ((k, v) :: d) = k :: keys V d.
Proof. done. Qed.

Lemma keys_setitem (d : dict) (k : string) (v : V) :
  keys V (setitem V d k v)
  = if decide (k ∈ keys V d) then keys V d else keys V d ++ [k].
Proof.
  induction d as [|[k' v'] d IH]; [done|].
  cbn [setitem]. rewrite keys_cons.
  destruct (decide (k' = k)) as [->|Hne].
  - rewrite keys_cons.
    destruct (decide (k ∈ k :: keys V d)) as [|H]; [done|]. exfalso. apply H. by left.
  - rewrite keys_cons, IH.
    destruct (decide (k ∈ keys V d)) as [Hin|Hin];
      destruct (decide (k ∈ k' :: keys V d)) as [H|H]; try done.
    + exfalso. apply H. by right.
    + exfalso. apply elem_of_cons in H as [->|H]; done.
Qed.

Lemma setitem_NoDup (d : dict) (k : string) (v : V) :
  NoDup (keys V d) → NoDup (keys V (setitem V d k v)).
Proof.
  intros Hnd. rewrite keys_setitem.
  destruct (decide (k ∈ keys V d)) as [Hin|Hin]; [done|].
  apply NoDup_app. split; [done|]. split.
  - intros x Hx Hk. apply list_elem_of_singleton in Hk as ->. done.
  - apply NoDup_singleton.
Qed.

Lemma filter_other (k : string) (ks : list string) :
  k ∉ ks → filter (fun k' => k' ≠ k) ks = ks.
Proof.
  induction ks as [|k0 ks IH]; intros Hn; [done|].
  apply not_elem_of_cons in Hn as [Hne Hn].
  rewrite filter_cons, decide_True by done. f_equal. apply IH. done.
Qed.

Lemma delitem_Some (d d' : dict) (k : string) :
  NoDup (keys V d) → delitem V d k = Some d' →
  keys V d' = filter (fun k' => k' ≠ k) (keys V d)
  ∧ getitem V d' k = None
  ∧ ∀ k', k' ≠ k → getitem V d' k' = getitem V d k'.
Proof.
  revert d'. induction d as [|[k0 v0] d IH]; intros d' Hnd; [done|].
  rewrite keys_cons in Hnd. apply NoDup_cons in Hnd as [Hk0 Hnd].
  cbn [delitem getitem]. rewrite keys_cons, filter_cons.
  destruct (decide (k0 = k)) as [->|Hne].
  - intros [= <-]. rewrite decide_False by (intros H; done).
    split; [symmetry; apply filter_other; done|].
    split; [apply getitem_None; done|].
    intros k' Hk'. rewrite decide_False by done. done.
  - destruct (delitem V d k) as [d''|] eqn:Hd; [|done]. intros [= <-].
    destruct (IH d'' Hnd eq_refl) as (Hk & Hg & Ho).
    rewrite decide_True by done. rewrite keys_cons, Hk.
    split; [done|]. cbn [getitem]. rewrite decide_False by done.
    split; [done|]. intros k' Hk'.
    destruct (decide (k0 = k')); [done|]. apply Ho. done.
Qed.

Lemma spaces_length (n : nat) : String.length (spaces n) = n.
Proof. induction n as [|n IH]; simpl; [done|]. rewrite IH. done. Qed.

Lemma widest_bound (k : string) (ks : list string) :
  k ∈ ks → (String.length k ≤ widest ks)%nat.
Proof.
  induction ks as [|k0 ks IH]; intros Hin; [inversion Hin|].
  simpl. apply elem_of_cons in Hin as [->|Hin]; [lia|].
  specialize (IH Hin). lia.
Qed.

Lemma rjust_length (k : string) (m : nat) :
  (String.length k ≤ m)%nat → String.length (rjust k m) = m.
Proof.
  intros H. unfold rjust. rewrite string_length_app, spaces_length. lia.
Qed.

Lemma insert_item_perm (x : string * V) (l : dict) : insert_item V x l ≡ₚ x :: l.
Proof.
  induction l as [|y l IH]; simpl; [done|].
  destruct (String.ltb x.1 y.1); [done|]. rewrite IH. apply Permutation_swap.
Qed.

Lemma ltb_false_leb (a b : string) : String.ltb a b = false → String.leb b a = true.
Proof.
  unfold String.ltb, String.leb. rewrite (String.compare_antisym b a).
  destruct (String.compare a b); done.
Qed.

Lemma ltb_leb (a b : string) : String.ltb a b = true → String.leb a b = true.
Proof. unfold String.ltb, String.leb. destruct (String.compare a b); done. Qed.

Lemma insert_item_sorted (x : string * V) (l : dict) :
  StronglySorted (key_leb V) l → StronglySorted (key_leb V) (insert_item V x l).
Proof.
  induction 1 as [|y l Hs IH Hall]; simpl.
  - constructor; constructor.
  - destruct (String.ltb x.1 y.1) eqn:Hlt.
    + constructor; [constructor; done|].
      constructor; [apply ltb_leb; done|].
      eapply Forall_impl; [exact Hall|]. intros z Hz. unfold key_leb in *.
      eapply string_leb_trans; [apply ltb_leb; exact Hlt | exact Hz].
    + constructor; [done|].
      rewrite insert_item_perm. constructor; [|done].
      apply ltb_false_leb. done.
Qed.

Lemma sorted_items_from (acc d : dict) :
  StronglySorted (key_leb V) acc →
  foldl (fun acc x => insert_item V x acc) acc d ≡ₚ acc ++ d
  ∧ StronglySorted (key_leb V) (foldl (fun acc x => insert_item V x acc) acc d).
Proof.
  revert acc. induction d as [|x d IH]; intros acc Hs; simpl.
  - rewrite app_nil_r. done.
  - destruct (IH (insert_item V x acc) (insert_item_sorted x acc Hs)) as [Hp Hso].
    split; [|done]. rewrite Hp, insert_item_perm.
    rewrite (Permutation_middle acc d x). done.
Qed.

Lemma sorted_items_spec (d : dict) :
  sorted_items V d ≡ₚ d ∧ StronglySorted (key_leb V) (sorted_items V d).
Proof. apply (sorted_items_from [] d). constructor. Qed.

(** X14.  Reading an attribute after setting it gives the value that
    was set, setting it leaves every other attribute as it was, and a
    second assignment to the same name replaces the first. *)
Theorem attribute_round_trip (d : dict) (name : string) (v : V) :
  __getattr__ V (__setattr__ V d name v) name = Return v
  ∧ (∀ other, other ≠ name →
       __getattr__ V (__setattr__ V d name v) other = __getattr__ V d other)
  ∧ (∀ v', __setattr__ V (__setattr__ V d name v) name v' = __setattr__ V d name v').
Proof.
  unfold __getattr__, __setattr__. split; [|split].
  - rewrite getitem_setitem. done.
  - intros other Hne. rewrite getitem_setitem_ne by done. done.
  - intros v'. induction d as [|[k0 v0] d IH]; cbn [setitem].
    + rewrite decide_True by done. done.
    + destruct (decide (k0 = name)) as [->|Hne]; cbn [setitem].
      * rewrite decide_True by done. done.
      * rewrite decide_False by done. rewrite IH. done.
Qed.

(** X15.  Reading a name that is not among the keys raises
    [AttributeError] with that name, and only then; deleting such a name
    raises [KeyError], not [AttributeError]; a name among the keys reads
    as a value. *)
Theorem missing_attribute_raises (d : dict) (name : string) :
  (name ∉ __dir__ V d ↔ __getattr__ V d name = Raised (AttributeError name))
  ∧ (name ∉ __dir__ V d ↔ __delattr__ V d name = Raised (KeyError name))
  ∧ (name ∈ __dir__ V d ↔ ∃ v, __getattr__ V d name = Return v).
Proof.
  unfold __dir__, __getattr__, __delattr__. split; [|split].
  - rewrite <- getitem_None. destruct (getitem V d name); split; done.
  - rewrite <- delitem_None. destruct (delitem V d name); split; done.
  - rewrite getitem_Some. destruct (getitem V d name) as [v|].
    + split; intros _; eauto.
    + split; intros [v Hv]; done.
Qed.

(** X16.  Deleting an attribute that is present removes that key and no
    other, keeps the order of the rest, makes a later read of the name
    raise [AttributeError], and leaves every other attribute as it
    was. *)
Theorem delattr_removes (d : dict) (name : string) :
  NoDup (__dir__ V d) → name ∈ __dir__ V d →
  ∃ d', __delattr__ V d name = Return d'
        ∧ __dir__ V d' = filter (fun k => k ≠ name) (__dir__ V d)
        ∧ NoDup (__dir__ V d')
        ∧ __getattr__ V d' name = Raised (AttributeError name)
        ∧ ∀ other, other ≠ name → __getattr__ V d' other = __getattr__ V d other.
Proof.
  unfold __dir__, __getattr__, __delattr__. intros Hnd Hin.
  destruct (delitem V d name) as [d'|] eqn:Hd;
    [|apply delitem_None in Hd; done].
  destruct (delitem_Some d d' name Hnd Hd) as (Hk & Hg & Ho).
  exists d'. split; [done|]. split; [done|].
  split; [rewrite Hk; apply NoDup_filter; done|].
  rewrite Hg. split; [done|]. intros other Hne. rewrite Ho by done. done.
Qed.

(** X17.  [__dir__] lists the keys in the order in which they were first
    set: setting a name that is present leaves the list as it is,
    setting a new name puts it at the end; no key is listed twice. *)
Theorem dir_insertion_order (d : dict) (name : string) (v : V) :
  __dir__ V (__setattr__ V d name v)
  = (if decide (name ∈ __dir__ V d) then __dir__ V d else __dir__ V d ++ [name])
  ∧ (NoDup (__dir__ V d) → NoDup (__dir__ V (__setattr__ V d name v))).
Proof.
  unfold __dir__, __setattr__. split; [apply keys_setitem | apply setitem_NoDup].
Qed.

End DictFacts.

Section DictRepr.
Import SurfaceDict.
Variable V : Type.
Variable repr : V → string.

(** X18.  [__repr__] of an empty container is the text [Surface()].
    Otherwise it is one line per item, joined by newlines, in ascending
    key order; each line is the key right-justified to the width of the
    longest key plus one, a colon, a space and the [repr] of the value,
    so that every key is preceded by at least one space and all colons
    stand in the same column. *)
Theorem repr_layout (d : SurfaceDict.dict V) :
  __repr__ V repr [] = "Surface()"
  ∧ (d ≠ [] →
     let m := (widest (__dir__ V d) + 1)%nat in
     ∃ items,
       items ≡ₚ d ∧ StronglySorted (key_leb V) items
       ∧ __repr__ V repr d
         = String.concat newline
             (map (fun kv => rjust kv.1 m +:+ ": " +:+ repr kv.2) items)
       ∧ ∀ k, k ∈ __dir__ V d →
              String.length (rjust k m) = m ∧ (String.length k < m)%nat).
Proof.
  split; [done|]. intros Hne m.
  destruct (sorted_items_spec V d) as [Hp Hs].
  exists (sorted_items V d). split; [done|]. split; [done|]. split.
  - unfold __repr__. destruct d as [|[k v] d']; [done|]. done.
  - intros k Hk. pose proof (widest_bound k _ Hk) as Hw. unfold __dir__ in *.
    split; [apply rjust_length|]; subst m; lia.
Qed.

End DictRepr.

Lemma attribute_round_trip_witness :
  SurfaceDict.__getattr__ string
    (SurfaceDict.__setattr__ string example_surface "x" "8") "n"
  = SurfaceDict.__getattr__ string example_surface "n".
Proof.
  apply (attribute_round_trip string example_surface "x" "8"). done.
Defined.

Lemma missing_attribute_raises_witness :
  SurfaceDict.__getattr__ string example_surface "T"
  = SurfaceDict.Raised (SurfaceDict.AttributeError "T").
Proof.
  apply (missing_attribute_raises string example_surface "T").
  vm_compute. intros H. repeat (apply elem_of_cons in H as [H|H]; [done|]).
  inversion H.
Defined.

Lemma delattr_removes_witness :
  ∃ d', SurfaceDict.__delattr__ string example_surface "x" = SurfaceDict.Return d'
        ∧ SurfaceDict.__dir__ string d'
          = filter (fun k => k ≠ "x") (SurfaceDict.__dir__ string example_surface)
        ∧ NoDup (SurfaceDict.__dir__ string d')
        ∧ SurfaceDict.__getattr__ string d' "x"
          = SurfaceDict.Raised (SurfaceDict.AttributeError "x")
        ∧ ∀ other, other ≠ "x" →
            SurfaceDict.__getattr__ string d' other
            = SurfaceDict.__getattr__ string example_surface other.
Proof.
  apply (delattr_removes string example_surface "x").
  - vm_compute. repeat (constructor; [intros H; repeat (apply elem_of_cons in H as [H|H]; [done|]); inversion H|]).
    constructor.
  - vm_compute. right. left.
Defined.

Lemma dir_insertion_order_witness :
  NoDup (SurfaceDict.__dir__ string (SurfaceDict.__setattr__ string [] "n" "3")).
Proof.
  apply (dir_insertion_order string [] "n" "3"). constructor.
Defined.

Lemma repr_layout_witness :
  let m := (SurfaceDict.widest (SurfaceDict.__dir__ string example_surface) + 1)%nat in
  ∃ items,
    items ≡ₚ example_surface
    ∧ StronglySorted (SurfaceDict.key_leb string) items
    ∧ SurfaceDict.__repr__ string id example_surface
      = String.concat SurfaceDict.newline
          (map (fun kv => SurfaceDict.rjust kv.1 m +:+ ": " +:+ id kv.2) items)
    ∧ ∀ k, k ∈ SurfaceDict.__dir__ string example_surface →
           String.length (SurfaceDict.rjust k m) = m ∧ (String.length k < m)%nat.
Proof.
  apply (repr_layout string id example_surface). done.
Defined.

(** ** From the detector to the deprojection *)

Section Pipeline.
Variable lstsq_degenerate : list Qc → list num → res (Qc * Qc).
Variable np : library.
Variable E : externals.

Lemma saved_tail_zero (nx : nat) (cols : list column) (ch : channel) (k : nat)
    (y : num * num) :
  length cols = nx →
  clean_script lstsq_degenerate nx cols = Ok ch
  ∨ clean_class lstsq_degenerate nx cols = Ok ch →
  (ch.(n_surf) ≤ k)%nat → ch.(y_surf) !! k = Some y → y = zero2.
Proof.
  intros Hc H Hk Hy.
  assert (∃ mask, saved_as nx cols mask ch) as (mask & Hs).
  { destruct H as [H|H].
    - destruct (clean_script_saved _ _ _ _ Hc H) as (mask & Hs & _). eauto.
    - destruct (clean_class_saved _ _ _ _ Hc H) as (mask & Hs & _). eauto. }
  destruct (saved_layout nx cols mask ch Hc Hs) as (Hn & _ & _ & _ & _ & _ & Hd & _).
  rewrite <- Hn in Hd.
  assert (drop (n_surf ch) (y_surf ch) !! (k - n_surf ch)%nat = Some y) as Hl.
  { rewrite lookup_drop. replace (n_surf ch + (k - n_surf ch))%nat with k by lia. done. }
  rewrite Hd in Hl. apply lookup_replicate in Hl as [-> _]. done.
Qed.

Lemma res_map_seq_length {B} (f : nat → res B) (nx : nat) (bs : list B) :
  res_map f (seq 0 nx) = Ok bs → length bs = nx.
Proof.
  intros H. apply res_map_Forall2, Forall2_length in H.
  rewrite length_seq in H. done.
Qed.

Lemma channel_tail_zero (nx : nat) (sigma ys yso : option Qc) (std : num) (dx : Qc)
    (im : list (list Qc)) (ch : channel) (k : nat) (y : num * num) :
  channel_script lstsq_degenerate nx sigma std dx ys im = Ok ch
  ∨ channel_class lstsq_degenerate E.(Jybeam_to_Tb) nx sigma std dx yso im = Ok ch →
  (ch.(n_surf) ≤ k)%nat → ch.(y_surf) !! k = Some y → y = zero2.
Proof.
  intros H Hk Hy.
  assert (∃ cols, length cols = nx
                  ∧ (clean_script lstsq_degenerate nx cols = Ok ch
                     ∨ clean_class lstsq_degenerate nx cols = Ok ch))
    as (cols & Hc & Hcl).
  { destruct H as [H|H]; [unfold channel_script in H | unfold channel_class in H];
      destruct (res_map _ (seq 0 nx)) as [cols|] eqn:Hr; try done;
      exists cols; (split; [exact (res_map_seq_length _ _ _ Hr) | auto]). }
  exact (saved_tail_zero nx cols ch k y Hc Hcl Hk Hy).
Qed.

Lemma channel_points_lookup (vel : Qc) (ch : channel) (k : nat) (p : point) :
  channel_points vel ch !! k = Some p →
  ∃ y, ch.(y_surf) !! k = Some y ∧ p.(p_y) = y.
Proof.
  unfold channel_points. intros H.
  apply lookup_zip_with_Some in H as (x & [y T] & -> & Hx & Hz).
  apply lookup_zip_with_Some in Hz as (y' & T' & [= <- <-] & Hy & HT).
  eauto.
Qed.

(** X19.  With the star above row 0, [sin(inc) > 0] and a positive
    pixel scale, every entry of a detector output that the deprojection
    leaves unmasked is a detection: it stands at a position below
    [n_surf] of its channel, never in the zero-filled tail of the rows.
    This holds for the mask of [_compute_surface] and, when the heights
    are not flipped, for the masks of [measure_mol_surface]. *)
Theorem unmasked_points_are_detections (g : geometry) (image : list (list (list num)))
    (nx : nat) (dx : Qc) (PA sigma ys yso : option Qc) (chans : list channel) :
  (0 < g.(y_star))%Qc → (0 < g.(sin_i))%Qc → (0 < g.(pixelscale))%Qc →
  detect_surface lstsq_degenerate np image nx dx PA sigma ys = Ok chans
  ∨ _detect_surface lstsq_degenerate E.(Jybeam_to_Tb) np image nx dx PA sigma yso
    = Ok chans →
  ∀ ch vel k p,
    ch ∈ chans → channel_points vel ch !! k = Some p →
    Class.mask_of E g p = false
    ∨ Script.mask2 E g None false p = false
    ∨ (∃ d, (0 < d)%Qc ∧ Script.mask2 E g (Some d) false p = false) →
    (k < ch.(n_surf))%nat.
Proof.
  intros Hy Hs Hpx Hdet ch vel k p Hch Hp Hmask.
  destruct (decide (k < n_surf ch)%nat) as [|Hge]; [done|]. exfalso.
  assert (∃ std im,
            channel_script lstsq_degenerate nx sigma std dx ys im = Ok ch
            ∨ channel_class lstsq_degenerate E.(Jybeam_to_Tb) nx sigma std dx yso im
              = Ok ch) as (std & im & Him).
  { apply list_elem_of_lookup in Hch as [iv Hiv].
    unfold detect_surface, _detect_surface in Hdet.
    destruct (image !! 1%nat) as [noise|]; [|by destruct Hdet].
    exists (np.(nanstd) noise).
    destruct Hdet as [H|H]; apply res_map_Forall2 in H;
      destruct (Forall2_lookup_r _ _ _ _ _ H Hiv) as (raw & _ & Him); eauto. }
  destruct (channel_points_lookup vel ch k p Hp) as (y & Hyk & Hpy).
  assert (p_y p = zero2) as Hz.
  { rewrite Hpy. eapply (channel_tail_zero nx sigma ys yso std dx im ch k); [done|lia|done]. }
  destruct (padding_heights_negative g p Hz Hy Hs Hpx) as (Hc & Hn & Hd).
  destruct Hmask as [Hm|[Hm|(d & Hpos & Hm)]].
  - unfold Class.mask_of in Hm. rewrite Hc in Hm. done.
  - unfold Script.mask2, Script.mask1 in Hm. rewrite Hn in Hm. done.
  - unfold Script.mask2, Script.mask1 in Hm. rewrite (Hd d Hpos) in Hm. done.
Qed.

End Pipeline.

Lemma unmasked_points_are_detections_witness :
  (1 < example_saved.(n_surf))%nat.
Proof.
  assert (detect_surface lstsq_gives_up example_library example_cube 3 (qz 1) None
            (Some (qz 1)) (Some (qz 4))
          = Ok [example_saved; channel_init 3; channel_init 3]) as Hdet
    by (vm_compute; reflexivity).
  assert (0 < example_geometry.(y_star))%Qc as Hy by (by vm_compute).
  assert (0 < example_geometry.(sin_i))%Qc as Hs by (by vm_compute).
  assert (0 < example_geometry.(pixelscale))%Qc as Hpx by (by vm_compute).
  apply (unmasked_points_are_detections lstsq_gives_up example_library example_externals
           example_geometry example_cube 3 (qz 1) None (Some (qz 1)) (Some (qz 4)) None
           [example_saved; channel_init 3; channel_init 3] Hy Hs Hpx (or_introl Hdet)
           example_saved (qz 10) 1 example_detection).
  - by left.
  - vm_compute. reflexivity.
  - left. vm_compute. reflexivity.
Defined.

(** ** Arguments that the detectors cannot work with *)

Section DetectorArguments.
Variable lstsq_degenerate : list Qc → list num → res (Qc * Qc).
Variable Jybeam_to_Tb : num → num.
Variable np : library.

Lemma res_map_first {A B} (f : A → res B) (a : A) (l : list A) (e : exn) :
  f a = Raise e → res_map f (a :: l) = Raise e.
Proof. intros H. simpl. rewrite H. done. Qed.

Lemma res_map_all {A B} (f : A → res B) (l : list A) (bs : list B) (b : B) :
  res_map f l = Ok bs → (∀ a b', f a = Ok b' → b' = b) →
  bs = replicate (length l) b.
Proof.
  intros H Hf. apply res_map_Forall2 in H.
  induction H as [|a b' l bs Hab _ IH]; [done|].
  simpl. rewrite (Hf a b' Hab), IH. done.
Qed.

(** without [sigma] the first column of the first channel raises *)
Lemma no_sigma_raises (nx : nat) (std : num) (dx : Qc) (PA y_star : option Qc)
    (image : list (list (list num))) :
  image ≠ [] → (0 < nx)%nat →
  channels_script lstsq_degenerate np nx None std dx PA y_star image = Raise TypeError
  ∧ channels_class lstsq_degenerate Jybeam_to_Tb np nx None std dx PA y_star image
    = Raise TypeError.
Proof.
  intros Him Hnx. destruct image as [|raw image]; [done|].
  destruct nx as [|nx]; [lia|].
  split; apply res_map_first;
    [unfold channel_script | unfold channel_class];
    rewrite (res_map_first _ 0%nat (seq 1 nx) TypeError); done.
Qed.

(** without [y_star] a column of [detect_surface] is left untouched or
    raises *)
Lemma scan_script_no_star (sigma : option Qc) (std : num) (dx : Qc) (col : list Qc)
    (c : column) :
  scan_script sigma std dx None col = Ok c → c = column_init.
Proof.
  unfold scan_script. destruct (threshold_of sigma std) as [t|]; [|done].
  cbn [res_bind]. destruct (search_maxima_at col t dx) as [|a [|b l]]; [| |done];
    by intros [= <-].
Qed.

Lemma channel_script_no_star (nx : nat) (sigma : option Qc) (std : num) (dx : Qc)
    (im : list (list Qc)) (ch : channel) :
  channel_script lstsq_degenerate nx sigma std dx None im = Ok ch →
  ch = channel_init nx.
Proof.
  unfold channel_script.
  destruct (res_map _ (seq 0 nx)) as [cols|] eqn:Hr; [|done]. cbn [res_bind].
  apply (res_map_all _ _ _ column_init) in Hr;
    [|intros i c; apply scan_script_no_star].
  rewrite length_seq in Hr. subst cols. unfold clean_script.
  rewrite no_column_in_surface. by intros [= <-].
Qed.

Lemma res_map_raised {A B} (f : A → res B) (l : list A) (e : exn) :
  res_map f l = Raise e → ∃ a, a ∈ l ∧ f a = Raise e.
Proof.
  induction l as [|a l IH]; [done|]. simpl.
  destruct (f a) as [b|e'] eqn:Ha; simpl.
  - destruct (res_map f l) as [bs|e'']; [done|]. simpl. intros [= ->].
    destruct (IH eq_refl) as (a' & Hin & Ha'). exists a'. split; [by right | done].
  - intros [= ->]. exists a. split; [by left | done].
Qed.

Lemma scan_script_no_star_raised (sigma : option Qc) (std : num) (dx : Qc)
    (col : list Qc) (e : exn) :
  scan_script sigma std dx None col = Raise e → e = TypeError.
Proof.
  unfold scan_script, threshold_of. destruct sigma as [s|]; cbn [res_bind].
  - destruct (search_maxima_at col _ dx) as [|a [|b l]]; [done..|]. by intros [= <-].
  - by intros [= <-].
Qed.

Lemma channel_script_no_star_raised (nx : nat) (sigma : option Qc) (std : num) (dx : Qc)
    (im : list (list Qc)) (e : exn) :
  channel_script lstsq_degenerate nx sigma std dx None im = Raise e → e = TypeError.
Proof.
  unfold channel_script.
  destruct (res_map _ (seq 0 nx)) as [cols|e'] eqn:Hr; cbn [res_bind].
  - apply (res_map_all _ _ _ column_init) in Hr;
      [|intros i c; apply scan_script_no_star].
    rewrite length_seq in Hr. subst cols. unfold clean_script.
    rewrite no_column_in_surface. done.
  - intros [= ->]. apply res_map_raised in Hr as (i & _ & Hi).
    eapply scan_script_no_star_raised. exact Hi.
Qed.

(** X21.  Arguments that the detectors cannot work with.  A cube of
    fewer than two channels raises [IndexError] in both detectors: the
    noise is measured in the channel of index 1.  Without [sigma] (the
    default of [detect_surface]) a cube of at least two channels and one
    column raises [TypeError] at the first column.  Without [y_star]
    (the other default of [detect_surface]) the test against the star
    raises [TypeError] as soon as a column has two maxima: a run of
    [detect_surface] that returns has found nothing in any channel. *)
Theorem detector_argument_errors (image : list (list (list num))) (nx : nat) (dx : Qc)
    (PA sigma y_star : option Qc) :
  ((length image < 2)%nat →
   detect_surface lstsq_degenerate np image nx dx PA sigma y_star = Raise IndexError
   ∧ _detect_surface lstsq_degenerate Jybeam_to_Tb np image nx dx PA sigma y_star
     = Raise IndexError)
  ∧ ((2 ≤ length image)%nat → (0 < nx)%nat →
     detect_surface lstsq_degenerate np image nx dx PA None y_star = Raise TypeError
     ∧ _detect_surface lstsq_degenerate Jybeam_to_Tb np image nx dx PA None y_star
       = Raise TypeError)
  ∧ (∀ chans,
       detect_surface lstsq_degenerate np image nx dx PA sigma None = Ok chans →
       chans = replicate (length image) (channel_init nx))
  ∧ (∀ before raw after s noise i,
       image = before ++ raw :: after → image !! 1%nat = Some noise →
       (i < nx)%nat →
       (2 ≤ length (search_maxima_at (image_column (rotated np PA raw) i)
                      (Fin s * np.(nanstd) noise) dx))%nat →
       detect_surface lstsq_degenerate np image nx dx PA (Some s) None = Raise TypeError).
Proof.
  split; [apply short_cube_raises|]. split; [|split].
  - intros Hlen Hnx. unfold detect_surface, _detect_surface.
    destruct (image !! 1%nat) as [noise|] eqn:Hn.
    + apply no_sigma_raises; [|done]. by destruct image.
    + apply lookup_ge_None_1 in Hn. lia.
  - intros chans. unfold detect_surface.
    destruct (image !! 1%nat) as [noise|]; [|done].
    intros H. apply (res_map_all _ _ _ (channel_init nx)) in H; [done|].
    intros raw ch. apply channel_script_no_star.
  - intros before raw after s noise i -> Hnoise Hi Hlen.
    destruct (detect_surface lstsq_degenerate np (before ++ raw :: after) nx dx PA
                (Some s) None) as [chans|e] eqn:Hd.
    2:{ unfold detect_surface in Hd. rewrite Hnoise in Hd.
        apply res_map_raised in Hd as (raw' & _ & Hd).
        apply channel_script_no_star_raised in Hd. by subst e. }
    exfalso.
    unfold detect_surface in Hd. rewrite Hnoise in Hd.
    unfold channels_script in Hd. rewrite res_map_app in Hd.
    destruct (res_map _ before) as [r1|]; [|done]. cbn [res_bind] in Hd.
    simpl in Hd.
    destruct (channel_script _ _ _ _ _ _ (rotated np PA raw)) as [ch|] eqn:Hch; [|done].
    unfold channel_script in Hch.
    destruct (res_map _ (seq 0 nx)) as [cols|] eqn:Hr; [|done].
    apply res_map_Forall2 in Hr.
    destruct (Forall2_lookup_l _ _ _ i i Hr) as (c & _ & Hc).
    { apply lookup_seq. lia. }
    unfold scan_script, threshold_of in Hc. cbn [res_bind] in Hc.
    destruct (search_maxima_at _ _ dx) as [|a [|b l]]; simpl in Hlen; [lia|lia|done].
Qed.

End DetectorArguments.

Lemma detector_argument_errors_witness :
  detect_surface lstsq_gives_up example_library example_cube 3 (qz 1) None None
    (Some (qz 4)) = Raise TypeError
  ∧ _detect_surface lstsq_gives_up id example_library example_cube 3 (qz 1) None None
      (Some (qz 4)) = Raise TypeError.
Proof.
  apply (proj1 (proj2 (detector_argument_errors lstsq_gives_up id example_library
                         example_cube 3 (qz 1) None None (Some (qz 4)))));
    vm_compute; lia.
Defined.

(** ** A channel of two columns in [detect_surface] *)

Section TwoColumns.
Variable lstsq_degenerate : list Qc → list num → res (Qc * Qc).

Lemma fit_det_two (xi xk : Qc) : xi ≠ xk → fit_det [xi; xk] ≠ 0%Qc.
Proof.
  intros Hne Hd. apply Hne.
  assert (fit_det [xi; xk] = (xi - xk) * (xi - xk))%Qc as E.
  { unfold fit_det. cbn [length qsum foldr map]. change (qn 2) with (qz 2).
    to_Q. ring. }
  rewrite E in Hd. apply Qcmult_integral in Hd.
  assert (xi - xk = 0)%Qc as H0 by (destruct Hd; done).
  replace xi with ((xi - xk) + xk)%Qc by ring. rewrite H0. ring.
Qed.

Lemma fit_line_two (xi xk mi mk : Qc) :
  xi ≠ xk →
  let P := fit_line [xi; xk] [mi; mk] in
  (P.2 + P.1 * xi = mi)%Qc ∧ (P.2 + P.1 * xk = mk)%Qc.
Proof.
  intros Hne P. subst P.
  pose proof (fit_det_two xi xk Hne) as Hd.
  assert (¬ (this (fit_det [xi; xk]) == 0)%Q) as Hd'
    by (intros Hq; apply Hd; apply Qc_is_canon; exact Hq).
  revert Hd'. unfold fit_line, fit_det.
  cbn [length qsum foldr map zip_with fst snd]. change (qn 2) with (qz 2).
  unfold qz, Qc_of_Z, Qcdiv, Qcinv, Qcminus, Qcplus, Qcopp, Qcmult, Q2Qc.
  cbn [this]. rewrite ?Qred_correct. intros Hd'.
  rewrite ?Qred_correct in Hd'.
  split; apply Qc_is_canon; cbn [this]; rewrite ?Qred_correct; field;
    intros H; apply Hd'; (etransitivity; [|exact H]); unfold inject_Z; ring.
Qed.

Lemma np_where_two (mask : list bool) :
  count_true mask = 2%nat → ∃ i k, (i < k)%nat ∧ np_where mask = [i; k].
Proof.
  intros Hc. pose proof (where_from_length mask 0) as Hl.
  pose proof (where_from_sorted mask 0) as Hs. unfold np_where.
  rewrite Hc in Hl. destruct (where_from 0 mask) as [|i [|k [|]]]; try done.
  exists i, k. split; [|done].
  apply StronglySorted_inv in Hs as [_ Hi]. apply Forall_inv in Hi. done.
Qed.

Lemma select_two {A} (mask : list bool) (a : list A) (i k : nat) :
  (length mask ≤ length a)%nat → np_where mask = [i; k] →
  ∃ x y, select mask a = [x; y] ∧ a !! i = Some x ∧ a !! k = Some y.
Proof.
  intros Hlen Hw. pose proof (select_entries mask a 0 Hlen) as H.
  unfold np_where in Hw. rewrite Hw in H.
  apply Forall2_cons_inv_l in H as (x & l1 & (_ & _ & Hx) & H & ->).
  apply Forall2_cons_inv_l in H as (y & l2 & (_ & _ & Hy) & H & ->).
  apply Forall2_nil_inv_l in H as ->.
  rewrite Nat.sub_0_r in Hx, Hy. eauto.
Qed.

Lemma qn_ne (i k : nat) : (i < k)%nat → qn i ≠ qn k.
Proof.
  intros Hlt Heq. pose proof (qn_le (S i) k Hlt) as H. rewrite qn_S, Heq in H.
  revert H. generalize (qn k). intros q H. qc2q. lra.
Qed.

Lemma arange_lookup_lt (n j : nat) : (j < n)%nat → arange n !! j = Some (qn j).
Proof.
  intros H. unfold arange. rewrite list_lookup_fmap, lookup_seq_lt by done. done.
Qed.

Lemma midpoint_fin (c : column) (y0 y1 : Qc) :
  c.(j_surf_exact) = (Fin y0, Fin y1) → midpoint c = Fin ((y0 + y1) / qz 2)%Qc.
Proof.
  intros H. unfold midpoint. rewrite H. cbn [fst snd nadd ndiv].
  rewrite (bool_decide_eq_false_2 (qz 2 = 0)%Qc) by (by vm_compute). done.
Qed.

Lemma straddles_midpoint (P : Qc * Qc) (x : Qc) (c : column) (y0 y1 : Qc) :
  c.(j_surf_exact) = (Fin y0, Fin y1) → (y0 + 1 < y1)%Qc →
  (P.2 + P.1 * x = (y0 + y1) / qz 2)%Qc →
  straddles P x c = true.
Proof.
  intros He Hlt HP. unfold straddles, line_at. rewrite He, HP.
  cbn [fst snd ngt nlt]. apply andb_true_iff.
  split; apply bool_decide_eq_true_2; revert Hlt; generalize y0 y1; intros a b Hlt; qc_lra.
Qed.

Lemma two_columns_fit (cols : list column) (i k : nat) :
  scanned_ok cols → (i < k)%nat → np_where (map in_surface cols) = [i; k] →
  ∃ P, fit_columns lstsq_degenerate (map in_surface cols) cols = Ok P
       ∧ prune P cols = map in_surface cols.
Proof.
  intros Hok Hik Hw.
  assert (∀ j, map in_surface cols !! j = Some true ↔ j = i ∨ j = k) as Hin.
  { intros j. rewrite <- np_where_spec, Hw, !elem_of_cons, elem_of_nil. tauto. }
  destruct (select_two (map in_surface cols) (map midpoint cols) i k) as (mi' & mk' & Hsel & Hmi & Hmk);
    [rewrite !length_map; done | done |].
  rewrite list_lookup_fmap in Hmi, Hmk.
  destruct (cols !! i) as [ci|] eqn:Hci; [|done].
  destruct (cols !! k) as [ck|] eqn:Hck; [|done].
  cbn [fmap option_fmap option_map] in Hmi, Hmk.
  injection Hmi as <-. injection Hmk as <-.
  assert (in_surface ci = true) as Hini.
  { pose proof (proj2 (Hin i) (or_introl eq_refl)) as H.
    rewrite list_lookup_fmap, Hci in H. by injection H. }
  assert (in_surface ck = true) as Hink.
  { pose proof (proj2 (Hin k) (or_intror eq_refl)) as H.
    rewrite list_lookup_fmap, Hck in H. by injection H. }
  destruct (Hok i ci Hci Hini) as (a0 & a1 & Hea & Hlta).
  destruct (Hok k ck Hck Hink) as (b0 & b1 & Heb & Hltb).
  pose proof (qn_ne i k Hik) as Hne.
  destruct (fit_line_two (qn i) (qn k) ((a0 + a1) / qz 2) ((b0 + b1) / qz 2) Hne)
    as [Hli Hlk].
  exists (fit_line [qn i; qn k] [((a0 + a1) / qz 2)%Qc; ((b0 + b1) / qz 2)%Qc]).
  split.
  - unfold fit_columns. rewrite Hsel, select_arange by (rewrite length_map; done).
    rewrite Hw, (midpoint_fin ci a0 a1 Hea), (midpoint_fin ck b0 b1 Heb).
    unfold polyfit1. cbn [map all_finite forallb isfinite andb].
    rewrite (bool_decide_eq_false_2 _ (fit_det_two _ _ Hne)). done.
  - apply list_eq. intros j. unfold prune.
    rewrite lookup_zip_with, list_lookup_fmap.
    destruct (cols !! j) as [c|] eqn:Hcj.
    + assert (j < length cols)%nat as Hj by (eapply lookup_lt_Some; done).
      rewrite (arange_lookup_lt _ _ Hj).
      cbn [fmap option_fmap option_map mbind option_bind].
      destruct (in_surface c) eqn:Hinc; [|done].
      assert (j = i ∨ j = k) as [-> | ->]
        by (apply Hin; rewrite list_lookup_fmap, Hcj, <- Hinc; done).
      * rewrite Hci in Hcj. injection Hcj as <-.
        rewrite (straddles_midpoint _ _ _ a0 a1); done.
      * rewrite Hck in Hcj. injection Hcj as <-.
        rewrite (straddles_midpoint _ _ _ b0 b1); done.
    + destruct (arange (length cols) !! j); done.
Qed.

Lemma two_columns_pass (cols : list column) :
  scanned_ok cols → count_true (map in_surface cols) = 2%nat →
  two_pass lstsq_degenerate cols = Ok (map in_surface cols).
Proof.
  intros Hok Hc. destruct (np_where_two _ Hc) as (i & k & Hik & Hw).
  destruct (two_columns_fit cols i k Hok Hik Hw) as (P & Hfit & Hpr).
  unfold two_pass, first_pass. rewrite Hfit. cbn [res_bind].
  rewrite Hpr, Hfit. cbn [res_bind]. rewrite Hpr. done.
Qed.

(** X22.  In [detect_surface] a channel with exactly two columns in the
    surface goes through both fits: the line through the two midpoints
    lies strictly between the two positions of either column, so both
    columns are saved ([n = 2]), and the result is the one that the
    cleaning of [Surface._detect_surface] gives for the same columns
    without any fit. *)
Theorem script_two_columns (nx : nat) (thr dx ys : Qc) (im : list (list Qc))
    (cols : list column) :
  scanned_script nx thr dx ys im = Ok cols →
  count_true (map in_surface cols) = 2%nat →
  ∃ ch, detect_channel_script lstsq_degenerate nx thr dx ys im = Ok ch
        ∧ ch.(n_surf) = 2%nat
        ∧ ch = save nx (map in_surface cols) cols
        ∧ clean_class lstsq_degenerate nx cols = Ok ch.
Proof.
  intros Hs Hc.
  assert (scanned_ok cols) as Hok.
  { intros j c Hj Hin. apply res_map_Forall2 in Hs.
    destruct (Forall2_lookup_r _ _ _ _ _ Hs Hj) as (j' & _ & Hsc).
    destruct (scan_column_script_shape _ _ _ _ _ Hsc Hin)
      as (a & b & y0 & y1 & f0 & f1 & (_ & _ & He & Hlt) & _). eauto. }
  assert (existsb id (map in_surface cols) = true) as He.
  { destruct (existsb id (map in_surface cols)) eqn:E; [done|].
    apply exists_count in E. lia. }
  exists (save nx (map in_surface cols) cols).
  change (detect_channel_script lstsq_degenerate nx thr dx ys im)
    with (do cols <- scanned_script nx thr dx ys im;
          clean_script lstsq_degenerate nx cols).
  rewrite Hs. cbn [res_bind]. unfold clean_script, clean_class.
  rewrite He, (two_columns_pass cols Hok Hc). cbn [res_bind].
  rewrite (bool_decide_eq_false_2 (2 < _)%nat) by lia.
  split; [done|]. split; [|done].
  unfold save. cbv zeta. rewrite Hc. done.
Qed.

End TwoColumns.

Lemma script_two_columns_witness :
  ∃ ch, detect_channel_script lstsq_gives_up 3 (qz 1) (qz 1) (qz 4) two_column_channel
        = Ok ch
        ∧ ch.(n_surf) = 2%nat
        ∧ ch = save 3 (map in_surface two_columns) two_columns
        ∧ clean_class lstsq_gives_up 3 two_columns = Ok ch.
Proof.
  apply (script_two_columns lstsq_gives_up 3 (qz 1) (qz 1) (qz 4) two_column_channel
           two_columns).
  - vm_compute. reflexivity.
  - vm_compute. reflexivity.
Defined.
